(** * unidecode-plus-plus: transliteration engine and spacing resolver

    A shallow embedding of [src/unidecode.js]: the option defaults
    ([prepareOptions]), the public entry point ([unidecode]), the per
    code point substitution ([replacer]) with its page cache, and the
    spacing resolver ([resolveSpacing]) with its seven ordered rewrite
    passes.

    JavaScript strings are sequences of UTF-16 code units; they are
    modelled as lists of integers.  Every regular expression of the
    source is one [matcher], run by one model of the global
    [String.prototype.replace] loop. *)

From Stdlib Require Import ZArith Lia String Ascii.
From Stdlib Require Import HexadecimalString.
From stdpp Require Import gmap list.

Open Scope Z_scope.

(** ** Strings *)

(** A JavaScript string: its UTF-16 code units, in order. *)
Abbreviation jsstring := (list Z) (only parsing).

(** An ASCII literal of the source as a [jsstring]. *)
Definition lit (s : string) : jsstring :=
  map (fun a => Z.of_N (N_of_ascii a)) (list_ascii_of_string s).

(** The two sentinel markers, ['\x80'] and ['\x81']. *)
Definition x80 : Z := 0x80.
Definition x81 : Z := 0x81.

(** The regular expression class [\w] (no [i] or [u] flag):
    [[A-Za-z0-9_]]. *)
Definition is_word (c : Z) : bool :=
  ((0x41 <=? c) && (c <=? 0x5A))
  || ((0x61 <=? c) && (c <=? 0x7A))
  || ((0x30 <=? c) && (c <=? 0x39))
  || (c =? 0x5F).

(** The regular expression class [\s], which is also what
    [String.prototype.trim] strips: WhiteSpace and LineTerminator of
    ECMAScript. *)
Definition is_space (c : Z) : bool :=
  ((0x09 <=? c) && (c <=? 0x0D))
  || (c =? 0x20) || (c =? 0xA0) || (c =? 0x1680)
  || ((0x2000 <=? c) && (c <=? 0x200A))
  || (c =? 0x2028) || (c =? 0x2029) || (c =? 0x202F)
  || (c =? 0x205F) || (c =? 0x3000) || (c =? 0xFEFF).

(** Length of the longest prefix of [s] whose units all satisfy [p]
    (what a greedy [c+] or [c*] takes). *)
Fixpoint run (p : Z -> bool) (s : jsstring) : nat :=
  match s with
  | c :: s' => if p c then S (run p s') else O
  | [] => O
  end.

Definition is_x81 (c : Z) : bool := c =? x81.

(** ** The global replace loop

    A [matcher] is one regular expression together with its
    replacement: [m start rest] is asked at every search position,
    where [rest] is the input from that position on and [start] tells
    whether the position is index 0 (for [^]).  [Some (n, r)] means the
    expression matches the first [n] units of [rest] and the
    replacement text for this match is [r].  Every expression of the
    source consumes at least one unit when it matches. *)
Definition matcher := bool -> jsstring -> option (nat * jsstring).

(** [str.replace(re, ...)] for a global [re]: the leftmost match is
    searched from the current position; a match is replaced and the
    search resumes right after it; a unit at which nothing matches is
    copied.  [skip] counts the units of the last match that are still
    to be passed over. *)
Fixpoint replace_go (m : matcher) (start : bool) (skip : nat)
    (s : jsstring) : jsstring :=
  match s with
  | [] => []
  | c :: s' =>
      match skip with
      | S k => replace_go m false k s'
      | O =>
          match m start s with
          | Some (n, r) => r ++ replace_go m false (Nat.pred n) s'
          | None => c :: replace_go m false O s'
          end
      end
  end.

Definition replace_g (m : matcher) (s : jsstring) : jsstring :=
  replace_go m true O s.

(** ** The regular expressions of the source *)

(** [/([AOU])\u0308/g] with replacement ['$1E']. *)
Definition re_umlaut_upper : matcher := fun _ s =>
  match s with
  | c :: d :: _ =>
      if ((c =? 0x41) || (c =? 0x4F) || (c =? 0x55)) && (d =? 0x0308)
      then Some (2%nat, [c; 0x45]) else None
  | _ => None
  end.

(** [/([aou])\u0308/g] with replacement ['$1e']. *)
Definition re_umlaut_lower : matcher := fun _ s =>
  match s with
  | c :: d :: _ =>
      if ((c =? 0x61) || (c =? 0x6F) || (c =? 0x75)) && (d =? 0x0308)
      then Some (2%nat, [c; 0x65]) else None
  | _ => None
  end.

(** [/(\w)(\x80--\x80)(\w)/g] with replacement
    [(_, p1, _2, p3) => p1 + ' - ' + p3]. *)
Definition re_dash : matcher := fun _ s =>
  match s with
  | p1 :: a :: b :: c :: d :: p3 :: _ =>
      if is_word p1 && (a =? x80) && (b =? 0x2D) && (c =? 0x2D)
         && (d =? x80) && is_word p3
      then Some (6%nat, p1 :: lit " - " ++ [p3]) else None
  | _ => None
  end.

(** [/\x80(?!\w)/g] with replacement [""]. *)
Definition re_x80_not_before_word : matcher := fun _ s =>
  match s with
  | c :: rest =>
      if (c =? x80)
         && negb (match rest with d :: _ => is_word d | [] => false end)
      then Some (1%nat, []) else None
  | [] => None
  end.

(** [/\x80\x80|(\w)\x80/g] with replacement ["$1\x81"]; when the first
    alternative matches, group 1 is unset and [$1] is empty. *)
Definition re_collapse : matcher := fun _ s =>
  match s with
  | c :: d :: _ =>
      if (c =? x80) && (d =? x80) then Some (2%nat, [x81])
      else if is_word c && (d =? x80) then Some (2%nat, [c; x81])
      else None
  | _ => None
  end.

(** [/\x80/g] with replacement [""]. *)
Definition re_x80 : matcher := fun _ s =>
  match s with
  | c :: _ => if c =? x80 then Some (1%nat, []) else None
  | [] => None
  end.

(** [/^\x81+|\x81+$/g] with replacement [""] (no [m] flag: [^] and [$]
    are the two ends of the string).  The greedy [\x81+] takes the
    whole run; giving units back never reaches the end of the string,
    so the second alternative matches exactly when the run ends the
    string. *)
Definition re_edges : matcher := fun start s =>
  let n := run is_x81 s in
  if start && (0 <? n)%nat then Some (n, [])
  else if (0 <? n)%nat && (n =? length s)%nat then Some (n, [])
  else None.

(** [/\x81 \x81/g] with replacement ["  "] (two spaces). *)
Definition re_x81_space_x81 : matcher := fun _ s =>
  match s with
  | a :: b :: c :: _ =>
      if (a =? x81) && (b =? 0x20) && (c =? x81)
      then Some (3%nat, lit "  ") else None
  | _ => None
  end.

(** [/\s?\x81+/g] with replacement [" "]: the optional [\s] is tried
    first, then without it. *)
Definition re_x81_run : matcher := fun _ s =>
  match s with
  | c :: rest =>
      if is_space c && (0 <? run is_x81 rest)%nat
      then Some (S (run is_x81 rest), lit " ")
      else if (0 <? run is_x81 s)%nat then Some (run is_x81 s, lit " ")
      else None
  | [] => None
  end.

(** ** The spacing resolver *)

Definition resolveSpacing (str : jsstring) : jsstring :=
  replace_g re_x81_run
    (replace_g re_x81_space_x81
      (replace_g re_edges
        (replace_g re_x80
          (replace_g re_collapse
            (replace_g re_x80_not_before_word
              (replace_g re_dash str)))))).

(** ** Options *)

(** The options object a caller passes: every field may be absent
    ([undefined]). *)
Record InputOptions := {
  in_german : option bool;
  in_deferredSmartSpacing : option bool;
  in_smartSpacing : option bool;
  in_skipRanges : option (list (Z * Z));
}.

(** [{}] *)
Definition no_options : InputOptions :=
  {| in_german := None; in_deferredSmartSpacing := None;
     in_smartSpacing := None; in_skipRanges := None |}.

Record Options := {
  german : bool;
  deferredSmartSpacing : bool;
  smartSpacing : bool;
  skipRanges : list (Z * Z);
}.

Definition prepareOptions (options : InputOptions) : Options :=
  {| german :=
       match in_german options with Some g => g | None => false end;
     deferredSmartSpacing :=
       match in_deferredSmartSpacing options with
       | Some d => d | None => false end;
     smartSpacing :=
       match in_deferredSmartSpacing options with
       | Some true => true
       | _ => match in_smartSpacing options with
              | Some s => s | None => false end
       end;
     skipRanges :=
       match in_skipRanges options with Some r => r | None => [] end |}.

(** [prepareOptions(inputOptions ?? {})], where [None] is a call
    without options. *)
Definition options_of (inputOptions : option InputOptions) : Options :=
  prepareOptions
    (match inputOptions with Some o => o | None => no_options end).

(** ** The page cache and the table store *)

(** A key of [dataCache]: the number [high + 0.5] is kept as
    [(high, true)] and the number [high] as [(high, false)]. *)
Abbreviation row := (Z * bool)%type (only parsing).

(** A table page: an array of replacement strings. *)
Abbreviation page := (list (list Z)) (only parsing).

(** What the code does to the table store and to the cache, recorded
    in order: a [require] call for a row, and a read of
    [dataCache[row]] that decides what the replacer does (the test
    [!dataCache[row]] and the lookup [dataCache[row][low]]).  The
    record is not in the source; it is there to state that a page is
    or is not touched. *)
Inductive event :=
  | EvRequire (r : row)
  | EvRead (r : row).

(** The state the module keeps: [dataCache], and the record of the
    accesses made so far. *)
Record world := {
  dataCache : gmap row page;
  trace : list event;
}.

(** The state of a freshly loaded module: [const dataCache = {}]. *)
Definition fresh : world := {| dataCache := ∅; trace := [] |}.

(** A computation either returns a value or throws. *)
Inductive outcome (A : Type) :=
  | Ok (a : A)
  | Throw.
Arguments Ok {A} a.
Arguments Throw {A}.

Definition M (A : Type) := world -> outcome A * world.

Definition ret {A} (a : A) : M A := fun w => (Ok a, w).

Definition bind {A B} (c : M A) (k : A -> M B) : M B := fun w =>
  match c w with
  | (Ok a, w') => k a w'
  | (Throw, w') => (Throw, w')
  end.

Notation "'let*' x ':=' c 'in' k" := (bind c (fun x => k))
  (at level 10, x name, c at level 100, k at level 200).

Definition throw {A} : M A := fun w => (Throw, w).

(** [try { body } catch (err) { handler }] *)
Definition try_catch {A} (body handler : M A) : M A := fun w =>
  match body w with
  | (Ok a, w') => (Ok a, w')
  | (Throw, w') => handler w'
  end.

Definition log (e : event) : M unit := fun w =>
  (Ok tt, {| dataCache := dataCache w; trace := trace w ++ [e] |}).

(** Reading [dataCache[row]]; [None] is [undefined]. *)
Definition cache_get (r : row) : M (option page) := fun w =>
  (Ok (dataCache w !! r),
   {| dataCache := dataCache w; trace := trace w ++ [EvRead r] |}).

(** [dataCache[row] = p] *)
Definition cache_set (r : row) (p : page) : M unit := fun w =>
  (Ok tt, {| dataCache := <[r := p]> (dataCache w); trace := trace w |}).

(** [new Array(256).fill('_')] *)
Definition fallback_page : page := replicate 256 (lit "_").

(** The padding of a short table: [length = 256] and
    [fill('_', start)]. *)
Definition pad_page (p : page) : page :=
  if (length p <? 256)%nat
  then p ++ replicate (256 - length p) (lit "_")
  else p.

(** [char.codePointAt(0)]: a high surrogate followed by a low one is
    one code point; anything else is its first unit.  The callback is
    only called on a match, which is never empty. *)
Definition is_high_surrogate (c : Z) : bool := (0xD800 <=? c) && (c <=? 0xDBFF).
Definition is_low_surrogate (c : Z) : bool := (0xDC00 <=? c) && (c <=? 0xDFFF).

Definition codePointAt0 (char : jsstring) : Z :=
  match char with
  | c :: d :: _ =>
      if is_high_surrogate c && is_low_surrogate d
      then (c - 0xD800) * 0x400 + (d - 0xDC00) + 0x10000
      else c
  | [c] => c
  | [] => 0
  end.

(** The loop over [options.skipRanges]: the first range that holds
    [cp] ends it. *)
Fixpoint in_skip_ranges (ranges : list (Z * Z)) (cp : Z) : bool :=
  match ranges with
  | [] => false
  | (lo, hi) :: rest =>
      if (lo <=? cp) && (cp <=? hi) then true
      else in_skip_ranges rest cp
  end.

(** [/^\w+$/.test(s)] *)
Definition all_word (s : jsstring) : bool :=
  (0 <? length s)%nat && forallb is_word s.

(** [s.trim()] *)
Fixpoint trim_start (s : jsstring) : jsstring :=
  match s with
  | c :: s' => if is_space c then trim_start s' else s
  | [] => []
  end.

Definition trim (s : jsstring) : jsstring :=
  rev (trim_start (rev (trim_start s))).

Definition jsstring_eqb (a b : jsstring) : bool :=
  bool_decide (a = b).

Section Engine.

(** The table store: what [require('./data/x..')] gives for the file
    name built from a row, [None] when it throws.  The data files are
    not part of the engine. *)
Variable tables : row -> option page.

(** [require(...)] for the file of a row. *)
Definition require (r : row) : M page :=
  let* _ := log (EvRequire r) in
  match tables r with
  | Some p => ret p
  | None => throw
  end.

(** The block [if (!dataCache[row]) { try { ... } catch (err) { ... } }].
    An array is never falsy, so only an absent entry is loaded. *)
Definition ensure_page (r : row) : M unit :=
  let* cached := cache_get r in
  match cached with
  | Some _ => ret tt
  | None =>
      try_catch
        (let* p := require r in cache_set r (pad_page p))
        (cache_set r fallback_page)
  end.

(** [dataCache[row][low]].  Indexing [undefined] throws; an index past
    the end of the array gives [undefined], which every later use
    turns into the text "undefined". *)
Definition read_entry (r : row) (low : Z) : M jsstring :=
  let* cached := cache_get r in
  match cached with
  | None => throw
  | Some p =>
      ret (match p !! Z.to_nat low with
           | Some s => s
           | None => lit "undefined"
           end)
  end.

Definition replacer (char : jsstring) (options : Options) : M jsstring :=
  let cp := codePointAt0 char in
  if in_skip_ranges (skipRanges options) cp then ret char
  else
    let high := Z.shiftr cp 8 in
    let row := (high, (high =? 0) && german options) in
    let low := Z.land cp 0xFF in
    let emDash := cp =? 0x2014 in
    let emoji := (high =? 0x1F4) || (high =? 0x1F6) || (high =? 0x1F9) in
    if ((0x18 <? high) && (high <? 0x1E)) || ((0xD7 <? high) && (high <? 0xF9))
    then ret []
    else if (0xFF <? high) && negb emoji then ret (lit "_")
    else
      let* _ := ensure_page row in
      let* newChar := read_entry row low in
      if smartSpacing options && emDash
      then ret (x80 :: lit "--" ++ [x80])
      else if negb (smartSpacing options)
              || jsstring_eqb newChar (lit "[?]")
              || jsstring_eqb newChar (lit "_")
              || all_word newChar
      then ret newChar
      else if emoji
      then ret (x80 :: x81 :: newChar ++ [x81; x80])
      else ret (x80 :: trim newChar ++ [x80]).

(** [str.replace(codepoints, (match) => f(match))] for
    [codepoints = /[^\x00-\x7F]/gu]: with the [u] flag the string is
    read one code point at a time, a surrogate pair being one code
    point and an unpaired surrogate one too.  The other expression,
    of the [catch] branch, is for engines without the [u] flag; the
    file uses [??] and object spread, so an engine that runs it has
    the flag and takes the first branch. *)
Fixpoint replace_codepoints (f : jsstring -> M jsstring) (s : jsstring)
    : M jsstring :=
  match s with
  | [] => ret []
  | c :: s' =>
      if (0x00 <=? c) && (c <=? 0x7F)
      then let* rest := replace_codepoints f s' in ret (c :: rest)
      else
        match s' with
        | d :: s'' =>
            if is_high_surrogate c && is_low_surrogate d
            then let* r := f [c; d] in
                 let* rest := replace_codepoints f s'' in
                 ret (r ++ rest)
            else let* r := f [c] in
                 let* rest := replace_codepoints f s' in
                 ret (r ++ rest)
        | [] => let* r := f [c] in
                let* rest := replace_codepoints f s' in
                ret (r ++ rest)
        end
  end.

(** The exported function. [inputOptions] is [None] when the caller
    passes none. *)
Definition unidecode (inputStr : jsstring)
    (inputOptions : option InputOptions) : M jsstring :=
  match inputStr with
  | [] => ret []
  | _ =>
      let options := options_of inputOptions in
      let str := inputStr in
      let str :=
        if german options
        then replace_g re_umlaut_lower (replace_g re_umlaut_upper str)
        else str in
      let* str := replace_codepoints (fun m => replacer m options) str in
      if negb (smartSpacing options) || deferredSmartSpacing options
      then ret str
      else ret (resolveSpacing str)
  end.

End Engine.

(** ** The file of a page *)

(** [row.toString(16)]: the digits of the whole part in base 16, in
    lower case, and [".8"] for the half (0.5 is 0.8 in base 16). *)
Definition row_toString16 (r : row) : string :=
  (NilZero.string_of_uint (N.to_hex_uint (Z.to_N (fst r)))
   ++ (if snd r then ".8" else ""))%string.

(** The argument of [require]:
    ['./data/x' + (row < 0x10 ? '0' : '') + row.toString(16)]. *)
Definition data_file (r : row) : string :=
  ("./data/x" ++ (if (fst r <? 0x10)%Z then "0" else "")
   ++ row_toString16 r)%string.

(** * Vocabulary of the properties *)

(** ** Sentinels and ASCII *)

(** A unit that is neither of the two sentinel markers. *)
Definition not_sentinel (c : Z) : Prop := c ≠ x80 ∧ c ≠ x81.

(** A string that holds no 0x80 and no 0x81. *)
Definition sentinel_free (s : jsstring) : Prop := Forall not_sentinel s.

(** An expression that only matches where a sentinel stands. *)
Definition needs_sentinel (m : matcher) : Prop :=
  ∀ start t n r, m start t = Some (n, r) → ¬ sentinel_free t.

(** A code point in 0x00..0x7F, and a string of such. *)
Definition is_ascii (c : Z) : Prop := 0x00 ≤ c ≤ 0x7F.

Definition ascii_only (s : jsstring) : Prop := Forall is_ascii s.

(** A string without U+0308, the combining diaeresis. *)
Definition no_diaeresis (s : jsstring) : Prop := Forall (λ c, c ≠ 0x0308) s.

(** The marker triple of the em dash: ['\x80--\x80']. *)
Definition dash_marker : jsstring := x80 :: lit "--" ++ [x80].

(** ** Code points in a string *)

(** The string ends with a high surrogate; the string starts with a
    low one.  A cut between two such strings splits a pair. *)
Definition ends_high (s : jsstring) : bool :=
  match last s with
  | Some h => is_high_surrogate h
  | None => false
  end.

Definition starts_low (s : jsstring) : bool :=
  match s with
  | d :: _ => is_low_surrogate d
  | [] => false
  end.

(** The units of one code point outside ASCII: one unit that is not a
    surrogate, or a high surrogate followed by a low one. *)
Definition non_ascii_char (char : jsstring) : Prop :=
  (∃ c, char = [c] ∧ ¬ is_ascii c
        ∧ is_high_surrogate c = false ∧ is_low_surrogate c = false)
  ∨ (∃ h l, char = [h; l]
            ∧ is_high_surrogate h = true ∧ is_low_surrogate l = true).

(** The units [char] of one code point outside ASCII as the scan
    matches it between [pre] and [post]: a surrogate pair, or one
    unit, which may be a surrogate that pairs neither with the last
    unit of [pre] nor with the first of [post]. *)
Definition code_point_between (pre char post : jsstring) : Prop :=
  (∃ c, char = [c] ∧ ¬ is_ascii c
        ∧ ends_high pre && is_low_surrogate c = false
        ∧ is_high_surrogate c && starts_low post = false)
  ∨ (∃ h l, char = [h; l]
            ∧ is_high_surrogate h = true ∧ is_low_surrogate l = true).

(** [unidecode] resolves the spacing itself. *)
Definition resolves (options : Options) : bool :=
  smartSpacing options && negb (deferredSmartSpacing options).

(** ** The page cache *)

(** The page a successful or failed load leaves in the cache. *)
Definition loaded (tables : row → option page) (r : row) : page :=
  match tables r with
  | Some p => pad_page p
  | None => fallback_page
  end.

(** The page [dataCache[r]] holds once [ensure_page] has run. *)
Definition page_after (tables : row → option page) (w : world) (r : row)
    : page :=
  match dataCache w !! r with
  | Some p => p
  | None => loaded tables r
  end.

(** The state after [ensure_page] and the read of the entry. *)
Definition world_after (tables : row → option page) (w : world) (r : row)
    : world :=
  match dataCache w !! r with
  | Some _ =>
      {| dataCache := dataCache w;
         trace := trace w ++ [EvRead r; EvRead r] |}
  | None =>
      {| dataCache := <[r := loaded tables r]> (dataCache w);
         trace := trace w ++ [EvRead r; EvRequire r; EvRead r] |}
  end.

(** [p[low]], as [read_entry] returns it. *)
Definition entry (p : page) (low : Z) : jsstring :=
  match p !! Z.to_nat low with
  | Some s => s
  | None => lit "undefined"
  end.

(** Every cached page is what a load of its row gives: the state of the
    cache in any run that started from the fresh module. *)
Definition cache_consistent (tables : row → option page) (w : world) : Prop :=
  ∀ r p, dataCache w !! r = Some p → p = loaded tables r.

(** ** Matches and what surrounds them *)

(** A match is at least one unit long and lies within the string. *)
Definition bounded (m : matcher) : Prop :=
  ∀ start t n r, m start t = Some (n, r) → (1 ≤ n ≤ length t)%nat.

(** What follows [l] has no say in the matches that start in [l]. *)
Definition insulated (m : matcher) (l rest : jsstring) : Prop :=
  ∀ start t, t ≠ [] → t `suffix_of` l → m start (t ++ rest) = m start t.

(** The expression has no [^]. *)
Definition start_free (m : matcher) : Prop :=
  ∀ t, m true t = m false t.

(** A string that ends with a word character. *)
Definition ends_word (s : jsstring) : Prop :=
  ∃ s0 w, s = s0 ++ [w] ∧ is_word w = true.

(** The last unit is kept: a match that reaches it puts it back at the
    end of the replacement. *)
Definition keeps_last (m : matcher) (w : Z) : Prop :=
  ∀ start t n r,
    m start (t ++ [w]) = Some (n, r) →
    (n ≤ length t)%nat ∨ ∃ r', r = r' ++ [w].

(** The first unit is kept: a match that starts at it puts it back at
    the head of the replacement. *)
Definition keeps_first (m : matcher) (w : Z) : Prop :=
  ∀ start t n r, m start (w :: t) = Some (n, r) → ∃ r', r = w :: r'.

(** An expression of the German pass: it matches on a unit followed by
    U+0308 only, and looks at two units. *)
Definition needs_diaeresis (m : matcher) : Prop :=
  ∀ start t n r,
    m start t = Some (n, r) → ∃ c u, t = c :: 0x0308 :: u ∧ n = 2%nat.

Definition two_units (m : matcher) : Prop :=
  ∀ start x y t u, m start (x :: y :: t ++ u) = m start (x :: y :: t).

(** ** The seam of two strings *)

(** A run of sentinels. *)
Definition markers (m : jsstring) : Prop := Forall (λ c, c = x80 ∨ c = x81) m.

(** The string is empty or starts with a unit that is no sentinel. *)
Definition no_sentinel_first (s : jsstring) : Prop :=
  match s with
  | d :: _ => not_sentinel d
  | [] => True
  end.

(** The string is empty or ends with a unit that is no sentinel. *)
Definition left_plain (l : jsstring) : Prop :=
  match last l with
  | Some c => not_sentinel c
  | None => True
  end.

(** What stands before a run of sentinels: nothing, or a string whose
    last unit is neither a sentinel nor white space. *)
Definition left_part (l : jsstring) : Prop :=
  match last l with
  | Some c => not_sentinel c ∧ is_space c = false
  | None => True
  end.

(** What stands after a run of sentinels: nothing, or a string whose
    first unit is no sentinel and, where it is a space, is not
    followed by one. *)
Definition right_part (r : jsstring) : Prop :=
  match r with
  | c :: b0 => not_sentinel c ∧ (c = 0x20 → no_sentinel_first b0)
  | [] => True
  end.

Definition last_word (l : jsstring) : bool :=
  match last l with
  | Some c => is_word c
  | None => false
  end.

Definition head_word (r : jsstring) : bool :=
  match r with
  | c :: _ => is_word c
  | [] => false
  end.

Definition is_x80 (c : Z) : bool := c =? x80.

(** The string does not start with 0x81. *)
Definition head_x81_free (r : jsstring) : Prop :=
  match r with
  | c :: _ => c ≠ x81
  | [] => True
  end.

Definition nonempty (s : jsstring) : bool :=
  match s with
  | [] => false
  | _ :: _ => true
  end.

(** The run ends with 0x80. *)
Definition ends_x80 (m : jsstring) : bool :=
  match last m with
  | Some c => is_x80 c
  | None => false
  end.

(** The 0x81 of a run, and the 0x80 that pass 2 leaves at its end:
    the one that stands before a word character. *)
Definition after_pass2 (m r : jsstring) : jsstring :=
  List.filter is_x81 m ++ (if ends_x80 m && head_word r then [x80] else []).

(** What pass 3 makes of it: after a word character a lone 0x80
    becomes 0x81. *)
Definition after_pass3 (l m r : jsstring) : jsstring :=
  if last_word l && nonempty m && negb (existsb is_x81 m) && head_word r
  then [x81] else after_pass2 m r.

(** The 0x81 that stand for the run [m] between [l] and [r] after
    pass 4. *)
Definition after_pass4 (l m r : jsstring) : jsstring :=
  List.filter is_x81 (after_pass3 l m r).

(** No dash marker lies across the run [m]: a sufficient condition. *)
Definition no_dash_across (l m r : jsstring) : Prop :=
  existsb is_x81 m = true ∨ l = [] ∨ r = []
  ∨ (last l ≠ Some 0x2D ∧ (head r ≠ Some 0x2D ∨ last_word l = false)).

(** The first four passes of the resolver, after which no 0x80 is
    left, and the last three. *)
Definition first_passes (s : jsstring) : jsstring :=
  replace_g re_x80
    (replace_g re_collapse
       (replace_g re_x80_not_before_word (replace_g re_dash s))).

Definition last_passes (s : jsstring) : jsstring :=
  replace_g re_x81_run (replace_g re_x81_space_x81 (replace_g re_edges s)).

(** What the last three passes leave of a run of 0x81 between two
    parts: a space, or nothing at an end of the string. *)
Definition gap (u x v : jsstring) : jsstring :=
  if nonempty x && nonempty u && nonempty v then lit " " else [].

(** The same before a space that is followed by a second run of
    0x81: pass 6 makes two spaces of the last 0x81, the space and the
    first 0x81 after it. *)
Definition gap_before_space (u x : jsstring) : jsstring :=
  if nonempty u
  then match x with
       | [] => []
       | [_] => lit " "
       | _ :: _ :: _ => lit "  "
       end
  else [].

(** ** The cache over a run *)

(** Every cached page has 256 entries or more. *)
Definition pages_full (w : world) : Prop :=
  ∀ r p, dataCache w !! r = Some p → (256 ≤ length p)%nat.

(** The rows [require] was called for, in order. *)
Definition required (t : list event) : list row :=
  omap (λ e, match e with EvRequire r => Some r | EvRead _ => None end) t.

(** No row was required twice, and every required row is cached. *)
Definition loads_once (w : world) : Prop :=
  NoDup (required (trace w))
  ∧ ∀ r, r ∈ required (trace w) → is_Some (dataCache w !! r).

(** Every string of every page of the table store is ASCII. *)
Definition tables_ascii (tables : row → option page) : Prop :=
  ∀ r p, tables r = Some p → Forall ascii_only p.

(** The rows the replacer can ask a page for: the high byte of a code
    point that passes its two tests, with the half for row 0 only. *)
Definition requestable (r : row) : Prop :=
  (0 ≤ r.1 ≤ 0x18 ∨ 0x1E ≤ r.1 ≤ 0xD7 ∨ 0xF9 ≤ r.1 ≤ 0xFF
   ∨ r.1 = 0x1F4 ∨ r.1 = 0x1F6 ∨ r.1 = 0x1F9)
  ∧ (r.2 = true → r.1 = 0).

(** ** Replacements no longer than what they replace *)

Definition shrinking (m : matcher) : Prop :=
  ∀ start t n r, m start t = Some (n, r) → (length r ≤ n)%nat.

(** ** Cutting a string in two *)

(** The string does not start with U+0308. *)
Definition no_diaeresis_first (s : jsstring) : Prop :=
  match s with
  | d :: _ => d ≠ 0x0308
  | [] => True
  end.

(** A place where a string can be cut without changing what the
    scan and the German pass see: not inside a surrogate pair, and
    not before a U+0308 when the German pass runs. *)
Definition clean_cut (options : Options) (a b : jsstring) : Prop :=
  ends_high a && starts_low b = false
  ∧ (german options = true → no_diaeresis_first b).

(** [inputStr] after the German pass, when the option asks for it. *)
Definition german_pass (options : Options) (s : jsstring) : jsstring :=
  if german options
  then replace_g re_umlaut_lower (replace_g re_umlaut_upper s)
  else s.

(** Every replacement ends with a unit that is not a high
    surrogate. *)
Definition ends_plain (m : matcher) : Prop :=
  ∀ start t n r, m start t = Some (n, r) → r ≠ [] ∧ ends_high r = false.

(** ** What a transliteration is made of *)

(** A unit of a string that is ASCII but for the two markers. *)
Definition ascii_or_sentinel (c : Z) : Prop := is_ascii c ∨ c = x80 ∨ c = x81.

(** The digit of [d] in base 16, in lower case. *)
Definition hex_digit (d : Z) : ascii :=
  match String.get (Z.to_nat d) "0123456789abcdef" with
  | Some a => a
  | None => "0"%char
  end.

(** * Properties *)

(** ** Tactics *)

(** Linear arithmetic over the character classes, unfolded. *)
Ltac bool_lia :=
  unfold is_word, is_space, is_x81, x80, x81 in *; lia.

(** Refutes [sentinel_free] of a string with a sentinel among its
    first units. *)
Ltac sentinel_at_head :=
  let H := fresh in
  intros H; unfold sentinel_free in H;
  repeat (let H1 := fresh in
          apply Forall_cons in H as [H1 H]; destruct H1);
  congruence.

(** Settles [if c then _ else _] when the hypotheses decide [c]. *)
Ltac decide_test :=
  match goal with
  | |- context [if ?c then _ else _] =>
      first [ replace c with false by bool_lia
            | replace c with true by bool_lia ]
  end.

(** Settles a test that holds a [false] conjunct. *)
Ltac falsify := repeat (rewrite ?andb_false_r; simpl); done.

(** ** Strings without sentinels *)

Lemma run_pos_head p s :
  (0 < run p s)%nat → ∃ c t, s = c :: t ∧ p c = true.
Proof.
  destruct s as [|c t]; simpl; [lia|].
  destruct (p c) eqn:E; [eauto | lia].
Qed.

Lemma run_le_length p s : (run p s ≤ length s)%nat.
Proof.
  induction s as [|c t IH]; simpl; [lia|].
  destruct (p c); lia.
Qed.

Lemma is_x81_true c : is_x81 c = true ↔ c = x81.
Proof. unfold is_x81. apply Z.eqb_eq. Qed.

(** ** The replace loop *)

Section ReplaceLoop.

Variable m : matcher.

(** Where the expression never matches, the string is copied. *)
Lemma replace_go_no_match s :
  (∀ start t, t `suffix_of` s → t ≠ [] → m start t = None) →
  ∀ start, replace_go m start O s = s.
Proof.
  induction s as [|c t IH]; intros Hno start; [reflexivity|].
  simpl. rewrite (Hno start (c :: t)); [|reflexivity|discriminate].
  f_equal. apply IH. intros start' u Hu Hne.
  apply Hno; [|assumption]. by apply suffix_cons_r.
Qed.

(** Every unit of the result comes from a replacement or is a copied
    unit, one at which the expression did not match. *)
Lemma replace_go_Forall (P Q : Z → Prop) :
  (∀ start t n r, m start t = Some (n, r) → Forall Q r) →
  (∀ start c t, m start (c :: t) = None → P c → Q c) →
  ∀ s start skip, Forall P s → Forall Q (replace_go m start skip s).
Proof.
  intros Hrep Hcopy. induction s as [|c t IH]; intros start skip Hs.
  - constructor.
  - inversion Hs as [|? ? Hc Ht]; subst. simpl.
    destruct skip as [|k]; [|by apply IH].
    destruct (m start (c :: t)) as [[n r]|] eqn:E.
    + apply Forall_app. split; [by eapply Hrep | by apply IH].
    + constructor; [by eapply Hcopy | by apply IH].
Qed.

End ReplaceLoop.

(** ** The replace loop on a concatenation *)

Lemma replace_go_skip_all m start skip s :
  (length s ≤ skip)%nat → replace_go m start skip s = [].
Proof.
  revert start skip. induction s as [|c t IH]; intros start skip H; [done|].
  simpl in *. destruct skip as [|k]; [lia|]. apply IH. lia.
Qed.

Lemma replace_go_start_free m skip s :
  start_free m → replace_go m true skip s = replace_go m false skip s.
Proof.
  intros Hm. destruct s as [|c t]; [done|]. simpl. by rewrite Hm.
Qed.

Lemma replace_go_app m l rest :
  bounded m → insulated m l rest →
  ∀ start skip, (skip ≤ length l)%nat →
    replace_go m start skip (l ++ rest)
    = replace_go m start skip l
      ++ replace_go m (start && bool_decide (l = [])) O rest.
Proof.
  intros Hb. induction l as [|c t IH]; intros Hins start skip Hskip.
  - simpl in *. replace skip with O by lia. by rewrite andb_true_r.
  - assert (Hins' : insulated m t rest).
    { intros s u Hu Hsuf. apply Hins; [done | by apply suffix_cons_r]. }
    rewrite andb_false_r. simpl.
    destruct skip as [|k].
    + assert (Hm : m start (c :: t ++ rest) = m start (c :: t))
        by (by apply (Hins start (c :: t))).
      rewrite Hm.
      destruct (m start (c :: t)) as [[n r]|] eqn:E.
      * apply Hb in E. simpl in E.
        rewrite IH by (done || lia). rewrite andb_false_l.
        by rewrite app_assoc.
      * rewrite IH by (done || lia). by rewrite andb_false_l.
    + simpl in Hskip. rewrite IH by (done || lia). by rewrite andb_false_l.
Qed.

Lemma replace_g_app m l rest :
  bounded m → start_free m → insulated m l rest →
  replace_g m (l ++ rest) = replace_g m l ++ replace_g m rest.
Proof.
  intros Hb Hs Hins. unfold replace_g.
  rewrite replace_go_app by (done || lia).
  destruct (true && bool_decide (l = [])); [done|].
  by rewrite (replace_go_start_free m O rest).
Qed.

Lemma suffix_snoc_inv (l : jsstring) w t :
  t ≠ [] → t `suffix_of` (l ++ [w]) → ∃ t0, t = t0 ++ [w].
Proof.
  intros Hne [pre E].
  destruct (decide (t = [])) as [->|_]; [done|].
  destruct (exists_last Hne) as (t0 & x & ->).
  rewrite app_assoc in E. apply app_inj_tail in E as [_ ->]. by exists t0.
Qed.

Lemma replace_go_keeps_last m w :
  bounded m → keeps_last m w →
  ∀ l start skip, (skip ≤ length l)%nat →
    ∃ l', replace_go m start skip (l ++ [w]) = l' ++ [w].
Proof.
  intros Hb Hk. induction l as [|c t IH]; intros start skip Hskip.
  - simpl in *. replace skip with O by lia.
    destruct (m start [w]) as [[n r]|] eqn:E; [|by exists []].
    destruct (Hk start [] n r E) as [Hn|[r' ->]].
    + apply Hb in E. simpl in *. lia.
    + exists r'. by rewrite app_nil_r.
  - simpl. destruct skip as [|k].
    + destruct (m start (c :: t ++ [w])) as [[n r]|] eqn:E.
      * destruct (Hk start (c :: t) n r E) as [Hn|[r' ->]].
        -- destruct (IH false (Nat.pred n)) as [l' ->]; [simpl in Hn; lia|].
           exists (r ++ l'). by rewrite app_assoc.
        -- destruct (decide (n ≤ length (c :: t))%nat) as [Hn|Hn].
           ++ destruct (IH false (Nat.pred n)) as [l' ->]; [simpl in Hn; lia|].
              exists ((r' ++ [w]) ++ l'). by rewrite app_assoc.
           ++ rewrite replace_go_skip_all.
              ** exists r'. by rewrite app_nil_r.
              ** rewrite length_app. simpl in *. lia.
      * destruct (IH false O) as [l' ->]; [lia|]. by exists (c :: l').
    + destruct (IH false k) as [l' ->]; [simpl in Hskip; lia|]. by exists l'.
Qed.

(** A unit at which a [start_free] expression does not match is
    copied and the search goes on after it. *)
Lemma replace_g_copy m c t :
  start_free m → m true (c :: t) = None →
  replace_g m (c :: t) = c :: replace_g m t.
Proof.
  intros Hs Hm. unfold replace_g. simpl. rewrite Hm.
  by rewrite (replace_go_start_free m O t).
Qed.

Lemma replace_go_cons_none m start c t :
  m start (c :: t) = None →
  replace_go m start 0 (c :: t) = c :: replace_go m false 0 t.
Proof. intros H. simpl. by rewrite H. Qed.

Lemma replace_go_cons_some m start c t n r :
  m start (c :: t) = Some (n, r) →
  replace_go m start 0 (c :: t) = r ++ replace_go m false (Nat.pred n) t.
Proof. intros H. simpl. by rewrite H. Qed.

(** A prefix in which the expression matches nowhere is copied. *)
Lemma replace_go_copy_prefix m (e tail : jsstring) :
  (∀ start e1 c e2, e = e1 ++ c :: e2 → m start (c :: e2 ++ tail) = None) →
  ∀ start,
    replace_go m start 0 (e ++ tail)
    = e ++ replace_go m (match e with [] => start | _ => false end) 0 tail.
Proof.
  induction e as [|c e IH]; intros Hno start; [done|].
  change ((c :: e) ++ tail) with (c :: e ++ tail).
  rewrite replace_go_cons_none by (by apply (Hno start [] c e)).
  rewrite IH.
  - by destruct e.
  - intros st e1 c' e2 ->. by apply (Hno st (c :: e1) c' e2).
Qed.

(** ** The seven expressions of the resolver need a sentinel to match *)

Lemma needs_sentinel_no_change m s :
  needs_sentinel m → sentinel_free s → replace_g m s = s.
Proof.
  intros Hm Hs. apply replace_go_no_match.
  intros start t [pre ->] _.
  destruct (m start t) as [[n r]|] eqn:E; [|reflexivity].
  exfalso. apply (Hm _ _ _ _ E).
  unfold sentinel_free in *. by apply Forall_app in Hs as [_ ?].
Qed.

Lemma re_dash_needs_sentinel : needs_sentinel re_dash.
Proof.
  intros start t n r. unfold re_dash.
  destruct t as [|p1 [|a [|b [|c [|d [|p3 t]]]]]]; try discriminate.
  destruct (a =? x80) eqn:Ea; [|by rewrite !andb_false_r, ?andb_false_l].
  apply Z.eqb_eq in Ea as ->. intros _. sentinel_at_head.
Qed.

Lemma re_x80_not_before_word_needs_sentinel :
  needs_sentinel re_x80_not_before_word.
Proof.
  intros start t n r. unfold re_x80_not_before_word.
  destruct t as [|c t]; [discriminate|].
  destruct (c =? x80) eqn:Ec; [|discriminate].
  apply Z.eqb_eq in Ec as ->. intros _. sentinel_at_head.
Qed.

Lemma re_collapse_needs_sentinel : needs_sentinel re_collapse.
Proof.
  intros start t n r. unfold re_collapse.
  destruct t as [|c [|d t]]; try discriminate.
  destruct (d =? x80) eqn:Ed; [|by rewrite !andb_false_r].
  apply Z.eqb_eq in Ed as ->. intros _. sentinel_at_head.
Qed.

Lemma re_x80_needs_sentinel : needs_sentinel re_x80.
Proof.
  intros start t n r. unfold re_x80.
  destruct t as [|c t]; [discriminate|].
  destruct (c =? x80) eqn:Ec; [|discriminate].
  apply Z.eqb_eq in Ec as ->. intros _. sentinel_at_head.
Qed.

Lemma run_x81_pos_not_free s :
  (0 < run is_x81 s)%nat → ¬ sentinel_free s.
Proof.
  intros (c & t & -> & Hc)%run_pos_head. apply is_x81_true in Hc as ->.
  sentinel_at_head.
Qed.

Lemma re_edges_needs_sentinel : needs_sentinel re_edges.
Proof.
  intros start t n r. unfold re_edges.
  destruct (0 <? run is_x81 t)%nat eqn:E.
  - intros _. apply run_x81_pos_not_free. by apply Nat.ltb_lt.
  - by rewrite andb_false_r.
Qed.

Lemma re_x81_space_x81_needs_sentinel : needs_sentinel re_x81_space_x81.
Proof.
  intros start t n r. unfold re_x81_space_x81.
  destruct t as [|a [|b [|c t]]]; try discriminate.
  destruct (a =? x81) eqn:Ea; [|discriminate].
  apply Z.eqb_eq in Ea as ->. intros _. sentinel_at_head.
Qed.

Lemma re_x81_run_needs_sentinel : needs_sentinel re_x81_run.
Proof.
  intros start t n r. unfold re_x81_run.
  destruct t as [|c t]; [discriminate|].
  destruct (is_space c && (0 <? run is_x81 t)%nat) eqn:E1.
  - apply andb_true_iff in E1 as [_ E1%Nat.ltb_lt]. intros _ H.
    apply (run_x81_pos_not_free t E1).
    unfold sentinel_free in *. by apply Forall_cons in H as [_ ?].
  - destruct (0 <? run is_x81 (c :: t))%nat eqn:E2; [|discriminate].
    intros _. apply run_x81_pos_not_free. by apply Nat.ltb_lt.
Qed.

(** None of the seven passes matches in a string without sentinels. *)
Lemma resolver_copies_clean_string (s : jsstring) :
  sentinel_free s → resolveSpacing s = s.
Proof.
  intros Hs. unfold resolveSpacing.
  rewrite (needs_sentinel_no_change re_dash s)
    by auto using re_dash_needs_sentinel.
  rewrite (needs_sentinel_no_change re_x80_not_before_word s)
    by auto using re_x80_not_before_word_needs_sentinel.
  rewrite (needs_sentinel_no_change re_collapse s)
    by auto using re_collapse_needs_sentinel.
  rewrite (needs_sentinel_no_change re_x80 s)
    by auto using re_x80_needs_sentinel.
  rewrite (needs_sentinel_no_change re_edges s)
    by auto using re_edges_needs_sentinel.
  rewrite (needs_sentinel_no_change re_x81_space_x81 s)
    by auto using re_x81_space_x81_needs_sentinel.
  apply needs_sentinel_no_change; auto using re_x81_run_needs_sentinel.
Qed.

(** ** The page cache *)

Lemma ensure_read_bind {A} tables r low (k : jsstring → M A) w :
  (let* _ := ensure_page tables r in
   let* newChar := read_entry r low in k newChar) w
  = k (entry (page_after tables w r) low) (world_after tables w r).
Proof.
  unfold page_after, world_after, loaded, entry.
  unfold ensure_page, read_entry, try_catch, require, cache_get, cache_set,
    log, ret, throw, bind; simpl.
  destruct (dataCache w !! r) as [p|] eqn:E; simpl.
  - rewrite E. by rewrite <- app_assoc.
  - destruct (tables r) as [p|]; simpl; rewrite lookup_insert_eq;
      by rewrite <- !app_assoc.
Qed.

Lemma fallback_page_entry low :
  0 ≤ low < 256 → entry fallback_page low = lit "_".
Proof.
  intros H. unfold entry, fallback_page.
  rewrite lookup_replicate_2; [reflexivity | lia].
Qed.

Lemma land_255_range cp : 0 ≤ Z.land cp 0xFF < 256.
Proof.
  change 0xFF with (Z.ones 8). rewrite Z.land_ones by lia.
  apply Z.mod_pos_bound. lia.
Qed.

Lemma world_after_lookup tables w r :
  dataCache (world_after tables w r) !! r = Some (page_after tables w r).
Proof.
  unfold world_after, page_after.
  destruct (dataCache w !! r) eqn:E; simpl; [done|].
  apply lookup_insert_eq.
Qed.

(** ** The replacer and the scan never throw *)

Lemma replacer_returns tables char options w :
  ∃ out w', replacer tables char options w = (Ok out, w').
Proof.
  unfold replacer.
  destruct (in_skip_ranges _ _); [by eexists _, _|].
  destruct (_ || _); [by eexists _, _|].
  destruct (_ && negb _); [by eexists _, _|].
  rewrite ensure_read_bind.
  destruct (smartSpacing options && _); [by eexists _, _|].
  destruct (_ || _); [by eexists _, _|].
  destruct (_ || _); by eexists _, _.
Qed.

Lemma replace_codepoints_returns f s :
  (∀ char w, ∃ out w', f char w = (Ok out, w')) →
  ∀ w, ∃ out w', replace_codepoints f s w = (Ok out, w').
Proof.
  intros Hf.
  assert (Hstep : ∀ char t,
             (∀ w, ∃ out w', replace_codepoints f t w = (Ok out, w')) →
             ∀ w, ∃ out w',
               (let* r := f char in let* rest := replace_codepoints f t in
                ret (r ++ rest)) w = (Ok out, w')).
  { intros char t IH w. unfold bind.
    destruct (Hf char w) as (r & w1 & ->).
    destruct (IH w1) as (rest & w2 & ->). by eexists _, _. }
  induction s as [s IH] using (induction_ltof1 _ (@length Z)).
  unfold ltof in IH. destruct s as [|c t]; intros w.
  - by eexists _, _.
  - simpl. destruct (_ && _).
    + unfold bind. destruct (IH t) with (w := w) as (rest & w1 & ->);
        [simpl; lia|]. by eexists _, _.
    + destruct t as [|d u].
      * apply Hstep. apply IH. simpl; lia.
      * destruct (_ && _); apply Hstep; apply IH; simpl; lia.
Qed.

Lemma unidecode_returns tables s o w :
  ∃ out w', unidecode tables s o w = (Ok out, w').
Proof.
  unfold unidecode. destruct s as [|c t]; [by eexists _, _|].
  unfold bind.
  match goal with
  | |- context [replace_codepoints ?f ?x w] =>
      destruct (replace_codepoints_returns f x) with (w := w)
        as (out & w1 & ->)
  end.
  - intros. apply replacer_returns.
  - destruct (_ || _); by eexists _, _.
Qed.

(** ** No sentinel is left by the resolver *)

Lemma re_x80_copies_no_x80 start c t :
  re_x80 start (c :: t) = None → c ≠ x80.
Proof.
  unfold re_x80. destruct (c =? x80) eqn:E; [discriminate|].
  intros _. by apply Z.eqb_neq.
Qed.

Lemma re_x81_run_copies_no_x81 start c t :
  re_x81_run start (c :: t) = None → c ≠ x81.
Proof.
  unfold re_x81_run. intros H ->.
  change (run is_x81 (x81 :: t)) with (S (run is_x81 t)) in H.
  destruct (is_space x81 && _); discriminate.
Qed.

Lemma re_edges_replacement start t n r :
  re_edges start t = Some (n, r) → r = [].
Proof.
  unfold re_edges. repeat destruct (_ && _); congruence.
Qed.

Lemma re_x81_space_x81_replacement start t n r :
  re_x81_space_x81 start t = Some (n, r) → r = lit "  ".
Proof.
  unfold re_x81_space_x81.
  destruct t as [|a [|b [|c t]]]; try discriminate.
  destruct (_ && _); congruence.
Qed.

Lemma re_x81_run_replacement start t n r :
  re_x81_run start t = Some (n, r) → r = lit " ".
Proof.
  unfold re_x81_run. destruct t as [|c t]; [discriminate|].
  destruct (_ && _); [congruence|].
  destruct (0 <? _)%nat; congruence.
Qed.

Lemma re_x80_replacement start t n r :
  re_x80 start t = Some (n, r) → r = [].
Proof.
  unfold re_x80. destruct t as [|c t]; [discriminate|].
  destruct (c =? x80); congruence.
Qed.

Lemma resolveSpacing_not_sentinel (s : jsstring) :
  Forall not_sentinel (resolveSpacing s).
Proof.
  unfold resolveSpacing.
  set (s3 := replace_g re_collapse _).
  assert (H4 : Forall (λ c, c ≠ x80) (replace_g re_x80 s3)).
  { apply (replace_go_Forall re_x80 (λ _, True)).
    - intros start t n r ->%re_x80_replacement. constructor.
    - intros start c t H _. by eapply re_x80_copies_no_x80.
    - by apply Forall_true. }
  assert (H5 : Forall (λ c, c ≠ x80) (replace_g re_edges (replace_g re_x80 s3))).
  { revert H4. apply replace_go_Forall.
    - intros start t n r ->%re_edges_replacement. constructor.
    - auto. }
  assert (H6 : Forall (λ c, c ≠ x80)
                 (replace_g re_x81_space_x81
                    (replace_g re_edges (replace_g re_x80 s3)))).
  { revert H5. apply replace_go_Forall.
    - intros start t n r ->%re_x81_space_x81_replacement.
      by repeat constructor.
    - auto. }
  revert H6. apply replace_go_Forall.
  - intros start t n r ->%re_x81_run_replacement.
    by repeat constructor.
  - intros start c t H Hc. split; [done|].
    by eapply re_x81_run_copies_no_x81.
Qed.

(** C1. The string [resolveSpacing] returns holds neither 0x80 nor
    0x81, whatever its argument; and so [unidecode] called with smart
    spacing on and deferred smart spacing off returns a string, and
    that string holds neither of them. *)
Theorem no_sentinel_in_final_output :
  (∀ s : jsstring, (x80 ∉ resolveSpacing s) ∧ (x81 ∉ resolveSpacing s))
  ∧ (∀ tables (inputStr : jsstring) inputOptions w,
       smartSpacing (options_of inputOptions) = true →
       deferredSmartSpacing (options_of inputOptions) = false →
       ∃ out w', unidecode tables inputStr inputOptions w = (Ok out, w')
                 ∧ (x80 ∉ out) ∧ (x81 ∉ out)).
Proof.
  assert (Hres : ∀ s : jsstring,
             (x80 ∉ resolveSpacing s) ∧ (x81 ∉ resolveSpacing s)).
  { intros s. pose proof (resolveSpacing_not_sentinel s) as H.
    rewrite Forall_forall in H.
    split; intros Hin; destruct (H _ Hin); congruence. }
  split; [exact Hres|].
  intros tables s o w Hsmart Hdef.
  destruct s as [|c t].
  - exists [], w. split; [reflexivity|]. split; apply not_elem_of_nil.
  - unfold unidecode. rewrite Hsmart, Hdef. simpl negb.
    unfold bind.
    match goal with
    | |- context [replace_codepoints ?f ?x w] =>
        destruct (replace_codepoints_returns f x) with (w := w)
          as (out & w1 & ->)
    end.
    + intros. apply replacer_returns.
    + simpl. exists (resolveSpacing out), w1. split; [reflexivity|]. apply Hres.
Qed.

(** A call with [{smartSpacing: true}] on a string with an em dash and
    a non-breaking space, against a table store with no page at all. *)
Lemma no_sentinel_in_final_output_witness :
  ∃ out w',
    unidecode (λ _, None) [0x61; 0x2014; 0xA0; 0x62]
      (Some {| in_german := None; in_deferredSmartSpacing := None;
               in_smartSpacing := Some true; in_skipRanges := None |})
      fresh = (Ok out, w')
    ∧ (x80 ∉ out) ∧ (x81 ∉ out).
Proof.
  apply (proj2 no_sentinel_in_final_output); reflexivity.
Defined.

(** ** The scan, piece by piece *)

Lemma is_ascii_test c : is_ascii c → (0x00 <=? c) && (c <=? 0x7F) = true.
Proof. unfold is_ascii. lia. Qed.

Lemma not_ascii_test c : ¬ is_ascii c → (0x00 <=? c) && (c <=? 0x7F) = false.
Proof. unfold is_ascii. lia. Qed.

Lemma ascii_only_sentinel_free s : ascii_only s → sentinel_free s.
Proof.
  intros Hs. eapply Forall_impl; [exact Hs|].
  unfold is_ascii, not_sentinel, x80, x81. lia.
Qed.

Lemma bind_ret_id {A} (c : M (list A)) w :
  (let* b := c in ret ([] ++ b)) w = c w.
Proof. unfold bind, ret. by destruct (c w) as [[b|] w1]. Qed.

(** The scan of a concatenation is the scan of the two parts, one
    after the other, unless a surrogate pair straddles the cut. *)
Lemma replace_codepoints_app f pre s :
  ends_high pre && starts_low s = false →
  ∀ w, replace_codepoints f (pre ++ s) w
       = (let* a := replace_codepoints f pre in
          let* b := replace_codepoints f s in
          ret (a ++ b)) w.
Proof.
  induction pre as [pre IH] using (induction_ltof1 _ (@length Z)).
  unfold ltof in IH. intros Hcut w.
  destruct pre as [|c t].
  { simpl app. change ((let* a := replace_codepoints f [] in
                        let* b := replace_codepoints f s in ret (a ++ b)) w)
      with ((let* b := replace_codepoints f s in ret ([] ++ b)) w).
    by rewrite bind_ret_id. }
  assert (Hsingle : ∀ u,
    (length u < length (c :: t))%nat →
    ends_high u && starts_low s = false →
    ∀ char w,
      (let* r := f char in
       let* rest := replace_codepoints f (u ++ s) in ret (r ++ rest)) w
      = (let* a := (let* r := f char in
                    let* rest := replace_codepoints f u in ret (r ++ rest)) in
         let* b := replace_codepoints f s in ret (a ++ b)) w).
  { intros u Hu Hcu char w0. unfold bind, ret.
    destruct (f char w0) as [[r|] w1]; [|reflexivity].
    rewrite (IH u Hu Hcu w1). unfold bind, ret.
    destruct (replace_codepoints f u w1) as [[a|] w2]; [|reflexivity].
    destruct (replace_codepoints f s w2) as [[b|] w3]; [|reflexivity].
    by rewrite app_assoc. }
  simpl replace_codepoints.
  destruct ((0x00 <=? c) && (c <=? 0x7F)) eqn:Ec.
  - assert (Ht : ends_high t && starts_low s = false).
    { destruct t; [reflexivity | by rewrite <- Hcut]. }
    unfold bind, ret. rewrite (IH t) by (simpl; lia || done).
    unfold bind, ret.
    destruct (replace_codepoints f t w) as [[a|] w1]; [|reflexivity].
    by destruct (replace_codepoints f s w1) as [[b|] w2].
  - destruct t as [|d u].
    + destruct s as [|e s']; rewrite !app_nil_l.
      * apply (Hsingle []); [simpl; lia | done].
      * unfold ends_high, starts_low in Hcut. simpl in Hcut. rewrite Hcut.
        apply (Hsingle []); [simpl; lia | done].
    + change ((d :: u) ++ s) with (d :: (u ++ s)). cbv iota.
      destruct (is_high_surrogate c && is_low_surrogate d).
      * apply (Hsingle u); [simpl; lia|].
        destruct u; [reflexivity | by rewrite <- Hcut].
      * apply (Hsingle (d :: u)); [simpl; lia | done].
Qed.

Lemma replace_codepoints_ascii f s w :
  ascii_only s → replace_codepoints f s w = (Ok s, w).
Proof.
  induction 1 as [|c t Hc Ht IH]; [reflexivity|].
  simpl. rewrite is_ascii_test by done. unfold bind. by rewrite IH.
Qed.

Lemma ascii_only_ends_high s : ascii_only s → ends_high s = false.
Proof.
  intros Hs. unfold ends_high. destruct (last s) as [h|] eqn:E; [|done].
  apply last_Some in E as [pre ->]. apply Forall_app in Hs as [_ Hh].
  apply Forall_cons in Hh as [Hh _].
  unfold is_ascii, is_high_surrogate in *. lia.
Qed.

Lemma ascii_only_starts_low s : ascii_only s → starts_low s = false.
Proof.
  intros Hs. destruct s as [|d t]; [done|].
  apply Forall_cons in Hs as [Hd _].
  unfold is_ascii, starts_low, is_low_surrogate in *. lia.
Qed.

(** One unit outside ASCII between two ASCII strings is one match. *)
Lemma replace_codepoints_single f pre c post w :
  ascii_only pre → ascii_only post → ¬ is_ascii c →
  replace_codepoints f (pre ++ c :: post) w
  = (let* r := f [c] in ret (pre ++ r ++ post)) w.
Proof.
  intros Hpre Hpost Hc.
  rewrite replace_codepoints_app
    by (by rewrite ascii_only_ends_high).
  unfold bind, ret. rewrite replace_codepoints_ascii by done.
  change (c :: post) with ([c] ++ post).
  rewrite replace_codepoints_app
    by (by rewrite ascii_only_starts_low, andb_false_r).
  unfold bind, ret. simpl. rewrite not_ascii_test by done.
  unfold bind, ret.
  destruct (f [c] w) as [[r|] w1]; [|reflexivity].
  rewrite replace_codepoints_ascii by done. by rewrite app_nil_r.
Qed.

(** ** The German pass *)

Lemma re_umlaut_upper_needs_diaeresis : needs_diaeresis re_umlaut_upper.
Proof.
  intros start t n r. unfold re_umlaut_upper.
  destruct t as [|c [|d u]]; try discriminate.
  destruct (d =? 0x0308) eqn:E; [|by rewrite andb_false_r].
  apply Z.eqb_eq in E as ->.
  destruct (_ && _); [|discriminate]. intros [= <- _]. by exists c, u.
Qed.

Lemma re_umlaut_lower_needs_diaeresis : needs_diaeresis re_umlaut_lower.
Proof.
  intros start t n r. unfold re_umlaut_lower.
  destruct t as [|c [|d u]]; try discriminate.
  destruct (d =? 0x0308) eqn:E; [|by rewrite andb_false_r].
  apply Z.eqb_eq in E as ->.
  destruct (_ && _); [|discriminate]. intros [= <- _]. by exists c, u.
Qed.

Lemma needs_diaeresis_no_match m start s :
  needs_diaeresis m → no_diaeresis s → replace_go m start O s = s.
Proof.
  intros Hm Hs. apply replace_go_no_match.
  intros start' t [pre ->] _.
  destruct (m start' t) as [[n r]|] eqn:E; [|done].
  destruct (Hm _ _ _ _ E) as (c & u & -> & _).
  apply Forall_app in Hs as [_ Hs]. apply Forall_cons in Hs as [_ Hs].
  by apply Forall_cons in Hs as [Hd _].
Qed.

Lemma needs_diaeresis_bounded m : needs_diaeresis m → bounded m.
Proof.
  intros Hm start t n r E.
  destruct (Hm _ _ _ _ E) as (c & u & -> & ->). simpl. lia.
Qed.

Lemma needs_diaeresis_insulated m l c rest :
  needs_diaeresis m → two_units m → c ≠ 0x0308 →
  insulated m l (c :: rest).
Proof.
  intros Hm Hlocal Hc start t Hne _.
  destruct t as [|x [|y t]]; [done| |apply Hlocal].
  simpl.
  destruct (m start (x :: c :: rest)) as [[n r]|] eqn:E1.
  { destruct (Hm _ _ _ _ E1) as (? & ? & [= _ ? _] & _). done. }
  destruct (m start [x]) as [[n r]|] eqn:E2; [|done].
  by destruct (Hm _ _ _ _ E2) as (? & ? & ? & _).
Qed.

Lemma two_units_re_umlaut_upper : two_units re_umlaut_upper.
Proof. done. Qed.

Lemma two_units_re_umlaut_lower : two_units re_umlaut_lower.
Proof. done. Qed.

Lemma start_free_re_umlaut_upper : start_free re_umlaut_upper.
Proof. done. Qed.

Lemma start_free_re_umlaut_lower : start_free re_umlaut_lower.
Proof. done. Qed.

(** A pass of the German kind leaves what precedes a unit other than
    U+0308 as it is, when no U+0308 stands there. *)
Lemma needs_diaeresis_split m pre c rest :
  needs_diaeresis m → two_units m → start_free m →
  no_diaeresis pre → c ≠ 0x0308 →
  replace_g m (pre ++ c :: rest) = pre ++ replace_g m (c :: rest).
Proof.
  intros Hm Hlocal Hs Hpre Hc.
  rewrite replace_g_app
    by auto using needs_diaeresis_bounded, needs_diaeresis_insulated.
  unfold replace_g at 1. by rewrite needs_diaeresis_no_match.
Qed.

Lemma german_pass_no_diaeresis s :
  no_diaeresis s →
  replace_g re_umlaut_lower (replace_g re_umlaut_upper s) = s.
Proof.
  intros Hs. unfold replace_g.
  rewrite (needs_diaeresis_no_match re_umlaut_upper)
    by auto using re_umlaut_upper_needs_diaeresis.
  by rewrite (needs_diaeresis_no_match re_umlaut_lower)
    by auto using re_umlaut_lower_needs_diaeresis.
Qed.

(** The German pass on a letter followed by U+0308, between two
    strings without U+0308: the pair is folded where it stands. *)
Lemma german_pass_fold_upper pre c post :
  c ∈ [0x41; 0x4F; 0x55] → no_diaeresis pre → no_diaeresis post →
  replace_g re_umlaut_lower
    (replace_g re_umlaut_upper (pre ++ c :: 0x0308 :: post))
  = pre ++ c :: 0x45 :: post.
Proof.
  intros Hc Hpre Hpost.
  assert (Hc' : c ≠ 0x0308 ∧ (c =? 0x41) || (c =? 0x4F) || (c =? 0x55) = true).
  { repeat (apply elem_of_cons in Hc as [->|Hc]);
      try (by apply elem_of_nil in Hc); split; done. }
  destruct Hc' as [Hne Hup].
  rewrite needs_diaeresis_split
    by auto using re_umlaut_upper_needs_diaeresis, two_units_re_umlaut_upper,
         start_free_re_umlaut_upper.
  unfold replace_g at 2. simpl. rewrite Hup. simpl.
  rewrite (needs_diaeresis_no_match re_umlaut_upper)
    by auto using re_umlaut_upper_needs_diaeresis.
  unfold replace_g. apply needs_diaeresis_no_match;
    [apply re_umlaut_lower_needs_diaeresis|].
  apply Forall_app. split; [done|].
  apply List.Forall_cons; [done|]. by apply List.Forall_cons.
Qed.

Lemma german_pass_fold_lower pre c post :
  c ∈ [0x61; 0x6F; 0x75] → no_diaeresis pre → no_diaeresis post →
  replace_g re_umlaut_lower
    (replace_g re_umlaut_upper (pre ++ c :: 0x0308 :: post))
  = pre ++ c :: 0x65 :: post.
Proof.
  intros Hc Hpre Hpost.
  assert (Hc' : c ≠ 0x0308
                ∧ (c =? 0x41) || (c =? 0x4F) || (c =? 0x55) = false
                ∧ (c =? 0x61) || (c =? 0x6F) || (c =? 0x75) = true).
  { repeat (apply elem_of_cons in Hc as [->|Hc]);
      try (by apply elem_of_nil in Hc); repeat split; done. }
  destruct Hc' as (Hne & Hup & Hlow).
  rewrite needs_diaeresis_split
    by auto using re_umlaut_upper_needs_diaeresis, two_units_re_umlaut_upper,
         start_free_re_umlaut_upper.
  rewrite (replace_g_copy re_umlaut_upper c)
    by (done || (unfold re_umlaut_upper; by rewrite Hup)).
  rewrite (replace_g_copy re_umlaut_upper 0x0308)
    by (done || by destruct post).
  unfold replace_g at 2.
  rewrite (needs_diaeresis_no_match re_umlaut_upper)
    by auto using re_umlaut_upper_needs_diaeresis.
  rewrite needs_diaeresis_split
    by auto using re_umlaut_lower_needs_diaeresis, two_units_re_umlaut_lower,
         start_free_re_umlaut_lower.
  unfold replace_g. simpl. rewrite Hlow. simpl.
  by rewrite (needs_diaeresis_no_match re_umlaut_lower)
    by auto using re_umlaut_lower_needs_diaeresis.
Qed.

Lemma ascii_only_no_diaeresis s : ascii_only s → no_diaeresis s.
Proof.
  intros Hs. eapply Forall_impl; [exact Hs|]. unfold is_ascii. lia.
Qed.

(** ** The branches of the replacer that touch no table *)

Lemma in_skip_ranges_covered ranges lo hi cp :
  (lo, hi) ∈ ranges → lo ≤ cp ≤ hi → in_skip_ranges ranges cp = true.
Proof.
  intros Hin Hcp. induction ranges as [|[lo' hi'] rest IH].
  - by apply elem_of_nil in Hin.
  - simpl. apply elem_of_cons in Hin as [[= <- <-]|Hin].
    + replace ((lo <=? cp) && (cp <=? hi)) with true by lia. done.
    + destruct ((lo' <=? cp) && (cp <=? hi')); [done | by apply IH].
Qed.

Lemma replacer_skipped tables char options w :
  in_skip_ranges (skipRanges options) (codePointAt0 char) = true →
  replacer tables char options w = (Ok char, w).
Proof. intros H. unfold replacer. by rewrite H. Qed.

Lemma high_byte_bounds cp lo hi :
  lo * 256 ≤ cp → cp < (hi + 1) * 256 → lo ≤ Z.shiftr cp 8 ≤ hi.
Proof.
  intros Hlo Hhi. rewrite Z.shiftr_div_pow2 by lia.
  change (2 ^ 8) with 256. split.
  - apply Z.div_le_lower_bound; lia.
  - apply Z.lt_succ_r. apply Z.div_lt_upper_bound; lia.
Qed.

(** The two bands of high bytes that the replacer drops. *)
Lemma replacer_dropped tables char options w :
  let cp := codePointAt0 char in
  in_skip_ranges (skipRanges options) cp = false →
  0x1900 ≤ cp ≤ 0x1DFF ∨ 0xD800 ≤ cp ≤ 0xF8FF →
  replacer tables char options w = (Ok [], w).
Proof.
  intros cp Hskip Hcp. unfold replacer. fold cp. rewrite Hskip.
  set (high := Z.shiftr cp 8).
  assert (H : 0x19 ≤ high ≤ 0x1D ∨ 0xD8 ≤ high ≤ 0xF8).
  { destruct Hcp; [left | right]; apply high_byte_bounds; lia. }
  replace (((0x18 <? high) && (high <? 0x1E))
           || ((0xD7 <? high) && (high <? 0xF9))) with true by lia.
  done.
Qed.

(** ** The entry point on one unit outside ASCII between ASCII text *)

Lemma unidecode_single tables o pre c post w r w' :
  ascii_only pre → ascii_only post → ¬ is_ascii c → c ≠ 0x0308 →
  replacer tables [c] (options_of o) w = (Ok r, w') →
  sentinel_free r →
  unidecode tables (pre ++ c :: post) o w = (Ok (pre ++ r ++ post), w').
Proof.
  intros Hpre Hpost Hc Hd Hr Hfree.
  unfold unidecode. set (options := options_of o) in *.
  destruct (pre ++ c :: post) as [|x xs] eqn:E;
    [by destruct pre|]. rewrite <- E. clear E x xs.
  assert (Hgerman :
    (if german options
     then replace_g re_umlaut_lower (replace_g re_umlaut_upper (pre ++ c :: post))
     else pre ++ c :: post) = pre ++ c :: post).
  { destruct (german options); [|done].
    apply german_pass_no_diaeresis. apply Forall_app. split.
    - by apply ascii_only_no_diaeresis.
    - constructor; [done | by apply ascii_only_no_diaeresis]. }
  rewrite Hgerman. unfold bind at 1.
  rewrite replace_codepoints_single by done.
  unfold bind, ret. rewrite Hr.
  destruct (negb (smartSpacing options) || deferredSmartSpacing options);
    [done|].
  f_equal. f_equal. apply resolver_copies_clean_string.
  apply Forall_app. split; [by apply ascii_only_sentinel_free|].
  apply Forall_app. split; [done | by apply ascii_only_sentinel_free].
Qed.

(** ** ASCII input *)

(** C3. On a string whose units are all in 0x00..0x7F, and whatever
    the options, [unidecode] returns the string it was given and
    leaves the page cache and the record of table accesses as they
    were: no page is read and none is loaded. *)
Theorem ascii_input_unchanged tables (inputStr : jsstring) inputOptions w :
  ascii_only inputStr →
  unidecode tables inputStr inputOptions w = (Ok inputStr, w).
Proof.
  intros Hs. unfold unidecode. destruct inputStr as [|c t]; [done|].
  set (options := options_of _).
  rewrite (german_pass_no_diaeresis (c :: t))
    by (by apply ascii_only_no_diaeresis).
  replace (if german options then c :: t else c :: t) with (c :: t)
    by (by destruct (german options)).
  unfold bind. rewrite replace_codepoints_ascii by done.
  destruct (negb (smartSpacing options) || deferredSmartSpacing options);
    [done|].
  by rewrite resolver_copies_clean_string
    by (by apply ascii_only_sentinel_free).
Qed.

Lemma ascii_input_unchanged_witness :
  ascii_only (lit "plain text") ∧
  unidecode (λ _, None) (lit "plain text")
    (Some {| in_german := Some true; in_deferredSmartSpacing := None;
             in_smartSpacing := Some true; in_skipRanges := None |})
    fresh = (Ok (lit "plain text"), fresh).
Proof.
  assert (H : ascii_only (lit "plain text")).
  { unfold ascii_only, is_ascii, lit. simpl.
    repeat (apply List.Forall_cons; [lia|]). apply List.Forall_nil. }
  split; [exact H | exact (ascii_input_unchanged _ _ _ _ H)].
Defined.

(** ** The resolver on a string without sentinels *)

(** C8. On a string that holds no 0x80 and no 0x81, [resolveSpacing]
    changes nothing: none of its seven passes matches, so the result
    is the argument. *)
Theorem resolveSpacing_sentinel_free (s : jsstring) :
  sentinel_free s → resolveSpacing s = s.
Proof. apply resolver_copies_clean_string. Qed.

Lemma resolveSpacing_sentinel_free_witness :
  sentinel_free (lit "caf noir") ∧
  resolveSpacing (lit "caf noir") = lit "caf noir".
Proof.
  assert (H : sentinel_free (lit "caf noir")).
  { unfold sentinel_free, not_sentinel, x80, x81, lit. simpl.
    repeat (apply List.Forall_cons; [lia|]). apply List.Forall_nil. }
  split; [exact H | exact (resolveSpacing_sentinel_free _ H)].
Defined.

(** ** The em dash *)

(** The branch of the replacer that reads the table: the page is the
    cached one, or else the one just loaded. *)
Lemma replacer_lookup tables char options w :
  let cp := codePointAt0 char in
  let high := Z.shiftr cp 8 in
  let r := (high, (high =? 0) && german options) in
  let emoji := (high =? 0x1F4) || (high =? 0x1F6) || (high =? 0x1F9) in
  let newChar := entry (page_after tables w r) (Z.land cp 0xFF) in
  in_skip_ranges (skipRanges options) cp = false →
  ((0x18 <? high) && (high <? 0x1E)) || ((0xD7 <? high) && (high <? 0xF9))
    = false →
  (0xFF <? high) && negb emoji = false →
  replacer tables char options w
  = (Ok (if smartSpacing options && (cp =? 0x2014) then dash_marker
         else if negb (smartSpacing options)
                 || jsstring_eqb newChar (lit "[?]")
                 || jsstring_eqb newChar (lit "_")
                 || all_word newChar
         then newChar
         else if emoji then x80 :: x81 :: newChar ++ [x81; x80]
         else x80 :: trim newChar ++ [x80]),
     world_after tables w r).
Proof.
  intros cp high r emoji newChar Hskip Hband Hout.
  unfold replacer. fold cp. rewrite Hskip. fold high. rewrite Hband.
  fold emoji. rewrite Hout. fold r. rewrite ensure_read_bind. fold newChar.
  destruct (smartSpacing options && (cp =? 0x2014)); [done|].
  match goal with
  | |- (if ?c then _ else _) _ = _ => destruct c; [done|]
  end.
  by destruct emoji.
Qed.

(** C2. With [smartSpacing: true] and [deferredSmartSpacing: false],
    [unidecode] turns the three units "a", U+2014, "b" into exactly
    "a - b": the replacer emits the marker triple for the em dash
    whatever the table holds (or fails to hold) for it, and the
    resolver turns the triple between two word characters into
    " - ". *)
Theorem em_dash_between_words tables g w :
  let o := {| in_german := g; in_deferredSmartSpacing := Some false;
              in_smartSpacing := Some true; in_skipRanges := None |} in
  (∃ w', replacer tables [0x2014] (prepareOptions o) w = (Ok dash_marker, w'))
  ∧ resolveSpacing (0x61 :: dash_marker ++ [0x62]) = lit "a - b"
  ∧ (∃ w', unidecode tables [0x61; 0x2014; 0x62] (Some o) w
           = (Ok (lit "a - b"), w')).
Proof.
  intros o.
  assert (Hrep : ∀ w0, ∃ w', replacer tables [0x2014] (prepareOptions o) w0
                             = (Ok dash_marker, w')).
  { intros w0. rewrite replacer_lookup by done. by eexists. }
  split; [apply Hrep|]. split; [reflexivity|].
  unfold unidecode.
  change (options_of (Some o)) with (prepareOptions o).
  set (options := prepareOptions o).
  replace (if german options then _ else _) with [0x61; 0x2014; 0x62]
    by (by destruct (german options)).
  unfold bind.
  rewrite (replace_codepoints_single _ [0x61] 0x2014 [0x62]).
  - unfold bind, ret. cbv beta. subst options.
    destruct (Hrep w) as [w' ->]. by exists w'.
  - unfold ascii_only, is_ascii. repeat (apply List.Forall_cons; [lia|]).
    apply List.Forall_nil.
  - unfold ascii_only, is_ascii. repeat (apply List.Forall_cons; [lia|]).
    apply List.Forall_nil.
  - unfold is_ascii. lia.
Qed.

(** ** The German pass comes before the skip ranges *)

(** C10. With [german: true] the folding of a letter followed by
    U+0308 is done on the whole input before the scan and hence before
    any skip-range test: whatever [skipRanges] holds, each of A, O, U
    followed by U+0308 comes out as the letter and "E", each of a, o,
    u as the letter and "e", wherever the pair stands in ASCII text,
    and the call on "A" + U+0308 with
    [skipRanges: [[0x0308, 0x0308]]] returns "AE"; the page cache is
    not touched. *)
Theorem german_fold_precedes_skip_ranges tables w :
  (∀ sk sm df pre c post,
     let o := {| in_german := Some true; in_deferredSmartSpacing := df;
                 in_smartSpacing := sm; in_skipRanges := sk |} in
     ascii_only pre → ascii_only post →
     (c ∈ [0x41; 0x4F; 0x55] →
      unidecode tables (pre ++ c :: 0x0308 :: post) (Some o) w
      = (Ok (pre ++ c :: 0x45 :: post), w))
     ∧ (c ∈ [0x61; 0x6F; 0x75] →
        unidecode tables (pre ++ c :: 0x0308 :: post) (Some o) w
        = (Ok (pre ++ c :: 0x65 :: post), w)))
  ∧ unidecode tables [0x41; 0x0308]
      (Some {| in_german := Some true; in_deferredSmartSpacing := None;
               in_smartSpacing := None;
               in_skipRanges := Some [(0x0308, 0x0308)] |}) w
    = (Ok (lit "AE"), w).
Proof.
  assert (Hfold : ∀ o pre c e post,
            german (prepareOptions o) = true →
            ascii_only pre → ascii_only post → is_ascii c → is_ascii e →
            replace_g re_umlaut_lower
              (replace_g re_umlaut_upper (pre ++ c :: 0x0308 :: post))
              = pre ++ c :: e :: post →
            unidecode tables (pre ++ c :: 0x0308 :: post) (Some o) w
            = (Ok (pre ++ c :: e :: post), w)).
  { intros o pre c e post Hg Hpre Hpost Hc He. unfold unidecode.
    destruct (pre ++ c :: 0x0308 :: post) as [|x xs] eqn:E;
      [by destruct pre|]. rewrite <- E. clear E x xs. intros Hpass.
    set (options := options_of _). change (german options = true) in Hg.
    rewrite Hg, Hpass. unfold bind.
    assert (Hout : ascii_only (pre ++ c :: e :: post)).
    { apply Forall_app. split; [done|].
      apply List.Forall_cons; [done|]. by apply List.Forall_cons. }
    rewrite replace_codepoints_ascii by done.
    destruct (negb (smartSpacing options) || deferredSmartSpacing options);
      [done|].
    by rewrite resolver_copies_clean_string
      by (by apply ascii_only_sentinel_free). }
  assert (Hletters : ∀ c, c ∈ [0x41; 0x4F; 0x55; 0x61; 0x6F; 0x75] →
                          is_ascii c).
  { intros c Hc. repeat (apply elem_of_cons in Hc as [->|Hc]);
      try (by apply elem_of_nil in Hc); unfold is_ascii; lia. }
  split.
  - intros sk sm df pre c post o Hpre Hpost. split; intros Hc.
    + assert (Hc' : is_ascii c).
      { apply Hletters. apply list_elem_of_In in Hc.
        apply list_elem_of_In. simpl in *. tauto. }
      assert (He : is_ascii 0x45) by (unfold is_ascii; lia).
      apply (Hfold o pre c 0x45 post eq_refl Hpre Hpost Hc' He).
      by apply german_pass_fold_upper; try apply ascii_only_no_diaeresis.
    + assert (Hc' : is_ascii c).
      { apply Hletters. apply list_elem_of_In in Hc.
        apply list_elem_of_In. simpl in *. tauto. }
      assert (He : is_ascii 0x65) by (unfold is_ascii; lia).
      apply (Hfold o pre c 0x65 post eq_refl Hpre Hpost Hc' He).
      by apply german_pass_fold_lower; try apply ascii_only_no_diaeresis.
  - assert (Hc : is_ascii 0x41) by (unfold is_ascii; lia).
    assert (He : is_ascii 0x45) by (unfold is_ascii; lia).
    by apply (Hfold {| in_german := Some true;
                       in_deferredSmartSpacing := None;
                       in_smartSpacing := None;
                       in_skipRanges := Some [(0x0308, 0x0308)] |}
                [] 0x41 0x45 [] eq_refl (List.Forall_nil _)
                (List.Forall_nil _) Hc He).
Qed.

Lemma german_fold_precedes_skip_ranges_witness :
  (ascii_only (lit "M") ∧ ascii_only (lit "bel") ∧ 0x6F ∈ [0x61; 0x6F; 0x75])
  ∧ unidecode (λ _, None) (lit "M" ++ 0x6F :: 0x0308 :: lit "bel")
      (Some {| in_german := Some true; in_deferredSmartSpacing := None;
               in_smartSpacing := None;
               in_skipRanges := Some [(0x6F, 0x6F); (0x0308, 0x0308)] |})
      fresh
    = (Ok (lit "M" ++ 0x6F :: 0x65 :: lit "bel"), fresh).
Proof.
  assert (H1 : ascii_only (lit "M")).
  { unfold ascii_only, is_ascii, lit. simpl.
    repeat (apply List.Forall_cons; [lia|]). apply List.Forall_nil. }
  assert (H2 : ascii_only (lit "bel")).
  { unfold ascii_only, is_ascii, lit. simpl.
    repeat (apply List.Forall_cons; [lia|]). apply List.Forall_nil. }
  assert (H3 : 0x6F ∈ [0x61; 0x6F; 0x75])
    by (apply list_elem_of_In; simpl; tauto).
  split; [done|].
  exact (proj2 (proj1 (german_fold_precedes_skip_ranges (λ _, None) fresh)
                  (Some [(0x6F, 0x6F); (0x0308, 0x0308)]) None None
                  (lit "M") 0x6F (lit "bel") H1 H2) H3).
Defined.

(** ** Dropped code points *)

(** A unit that the replacer drops leaves the scan of what precedes it
    and of what follows it, provided it pairs with neither. *)
Lemma replace_codepoints_dropped tables options pre c post w :
  ends_high pre && is_low_surrogate c = false →
  is_high_surrogate c && starts_low post = false →
  ¬ is_ascii c →
  (∀ w0, replacer tables [c] options w0 = (Ok [], w0)) →
  replace_codepoints (λ m, replacer tables m options) (pre ++ c :: post) w
  = (let* a := replace_codepoints (λ m, replacer tables m options) pre in
     let* b := replace_codepoints (λ m, replacer tables m options) post in
     ret (a ++ b)) w.
Proof.
  intros Hl Hr Hc Hdrop.
  rewrite replace_codepoints_app by done.
  unfold bind, ret.
  destruct (replace_codepoints _ pre w) as [[a|] w1]; [|done].
  change (c :: post) with ([c] ++ post).
  rewrite replace_codepoints_app by done.
  unfold bind, ret. simpl. rewrite not_ascii_test by done.
  unfold bind, ret. rewrite Hdrop.
  by destruct (replace_codepoints _ post w1) as [[b|] w2].
Qed.

(** C6. An unpaired surrogate (a unit in 0xD800..0xDFFF that is not a
    high surrogate followed by a low one, nor a low one preceded by a
    high one) that no skip range covers is replaced by the empty
    string: the replacer returns [''] for it, so it adds nothing to
    the output of the scan and the cache is left alone; between ASCII
    text, [unidecode] returns the text without it. *)
Theorem isolated_surrogate_dropped tables w c :
  0xD800 ≤ c ≤ 0xDFFF →
  (∀ options pre post,
     in_skip_ranges (skipRanges options) c = false →
     ends_high pre && is_low_surrogate c = false →
     is_high_surrogate c && starts_low post = false →
     replacer tables [c] options w = (Ok [], w)
     ∧ replace_codepoints (λ m, replacer tables m options)
         (pre ++ c :: post) w
       = (let* a :=
            replace_codepoints (λ m, replacer tables m options) pre in
          let* b :=
            replace_codepoints (λ m, replacer tables m options) post in
          ret (a ++ b)) w)
  ∧ (∀ o pre post,
       in_skip_ranges (skipRanges (options_of o)) c = false →
       ascii_only pre → ascii_only post →
       unidecode tables (pre ++ c :: post) o w = (Ok (pre ++ post), w)).
Proof.
  intros Hc. split.
  - intros options pre post Hskip Hl Hr.
    assert (Hdrop : ∀ w0, replacer tables [c] options w0 = (Ok [], w0)).
    { intros w0. apply replacer_dropped; simpl; [done | lia]. }
    split; [apply Hdrop|].
    apply replace_codepoints_dropped; try done.
    unfold is_ascii. lia.
  - intros o pre post Hskip Hpre Hpost.
    apply (unidecode_single tables o pre c post w [] w); try done.
    + unfold is_ascii. lia.
    + lia.
    + apply replacer_dropped; simpl; [done | lia].
    + constructor.
Qed.

Lemma isolated_surrogate_dropped_witness :
  0xD800 ≤ 0xDC00 ≤ 0xDFFF ∧
  unidecode (λ _, None) (lit "ab" ++ 0xDC00 :: lit "cd") None fresh
  = (Ok (lit "ab" ++ lit "cd"), fresh).
Proof.
  assert (H : 0xD800 ≤ 0xDC00 ≤ 0xDFFF) by lia.
  split; [exact H|].
  apply (proj2 (isolated_surrogate_dropped (λ _, None) fresh 0xDC00 H) None).
  - reflexivity.
  - unfold ascii_only, is_ascii, lit; simpl.
    repeat (apply List.Forall_cons; [lia|]). apply List.Forall_nil.
  - unfold ascii_only, is_ascii, lit; simpl.
    repeat (apply List.Forall_cons; [lia|]). apply List.Forall_nil.
Defined.

(** C9. The band test of the replacer also covers U+1900..U+1DFF and
    U+E000..U+F8FF, none of which is a surrogate: such a code point
    that no skip range covers adds nothing to the output of the scan,
    wherever it stands, and leaves the cache alone; between ASCII
    text, [unidecode] returns the text without it. *)
Theorem non_surrogate_bands_dropped tables w c :
  0x1900 ≤ c ≤ 0x1DFF ∨ 0xE000 ≤ c ≤ 0xF8FF →
  is_high_surrogate c = false ∧ is_low_surrogate c = false
  ∧ (∀ options pre post,
       in_skip_ranges (skipRanges options) c = false →
       replacer tables [c] options w = (Ok [], w)
       ∧ replace_codepoints (λ m, replacer tables m options)
           (pre ++ c :: post) w
         = (let* a :=
              replace_codepoints (λ m, replacer tables m options) pre in
            let* b :=
              replace_codepoints (λ m, replacer tables m options) post in
            ret (a ++ b)) w)
  ∧ (∀ o pre post,
       in_skip_ranges (skipRanges (options_of o)) c = false →
       ascii_only pre → ascii_only post →
       unidecode tables (pre ++ c :: post) o w = (Ok (pre ++ post), w)).
Proof.
  intros Hc.
  assert (Hh : is_high_surrogate c = false) by (unfold is_high_surrogate; lia).
  assert (Hl : is_low_surrogate c = false) by (unfold is_low_surrogate; lia).
  assert (Hdrop : ∀ options w0,
             in_skip_ranges (skipRanges options) c = false →
             replacer tables [c] options w0 = (Ok [], w0)).
  { intros options w0 Hskip. apply replacer_dropped; simpl; [done | lia]. }
  repeat split; try done.
  - by apply Hdrop.
  - apply replace_codepoints_dropped.
    + by rewrite Hl, andb_false_r.
    + by rewrite Hh.
    + unfold is_ascii. lia.
    + intros w0. by apply Hdrop.
  - intros o pre post Hskip Hpre Hpost.
    apply (unidecode_single tables o pre c post w [] w); try done.
    + unfold is_ascii. lia.
    + lia.
    + by apply Hdrop.
    + constructor.
Qed.

Lemma non_surrogate_bands_dropped_witness :
  (0x1900 ≤ 0xE000 ≤ 0x1DFF ∨ 0xE000 ≤ 0xE000 ≤ 0xF8FF) ∧
  unidecode (λ _, None) (lit "ab" ++ 0xE000 :: lit "cd") None fresh
  = (Ok (lit "ab" ++ lit "cd"), fresh).
Proof.
  assert (H : 0x1900 ≤ 0xE000 ≤ 0x1DFF ∨ 0xE000 ≤ 0xE000 ≤ 0xF8FF)
    by (right; lia).
  split; [exact H|].
  apply (proj2 (proj2 (proj2
           (non_surrogate_bands_dropped (λ _, None) fresh 0xE000 H))) None).
  - reflexivity.
  - unfold ascii_only, is_ascii, lit; simpl.
    repeat (apply List.Forall_cons; [lia|]). apply List.Forall_nil.
  - unfold ascii_only, is_ascii, lit; simpl.
    repeat (apply List.Forall_cons; [lia|]). apply List.Forall_nil.
Defined.

(** ** Skip ranges *)

Lemma high_not_low c : is_high_surrogate c = true → is_low_surrogate c = false.
Proof. unfold is_high_surrogate, is_low_surrogate. lia. Qed.

Lemma low_not_high c : is_low_surrogate c = true → is_high_surrogate c = false.
Proof. unfold is_high_surrogate, is_low_surrogate. lia. Qed.

Lemma high_not_ascii c : is_high_surrogate c = true → ¬ is_ascii c.
Proof. unfold is_high_surrogate, is_ascii. lia. Qed.

(** A code point outside ASCII is one match of the scan, wherever it
    stands. *)
Lemma replace_codepoints_char f pre char post w :
  non_ascii_char char →
  replace_codepoints f (pre ++ char ++ post) w
  = (let* a := replace_codepoints f pre in
     let* r := f char in
     let* b := replace_codepoints f post in
     ret (a ++ r ++ b)) w.
Proof.
  intros Hchar.
  assert (Hone : ∀ w0, replace_codepoints f char w0
                       = (let* r := f char in ret (r ++ [])) w0).
  { intros w0.
    destruct Hchar as [(c & -> & Hc & _ & _)|(h & l & -> & Hh & Hl)]; simpl.
    - by rewrite not_ascii_test.
    - rewrite not_ascii_test by (by apply high_not_ascii).
      by rewrite Hh, Hl. }
  assert (Hleft : ends_high pre && starts_low (char ++ post) = false).
  { destruct Hchar as [(c & -> & _ & _ & Hl)|(h & l & -> & Hh & _)]; simpl.
    - by rewrite Hl, andb_false_r.
    - by rewrite (high_not_low h), andb_false_r. }
  assert (Hright : ends_high char && starts_low post = false).
  { destruct Hchar as [(c & -> & _ & Hh & _)|(h & l & -> & _ & Hl)].
    - unfold ends_high. simpl. by rewrite Hh.
    - unfold ends_high. simpl. by rewrite (low_not_high l). }
  rewrite replace_codepoints_app by done. unfold bind, ret.
  destruct (replace_codepoints f pre w) as [[a|] w1]; [|done].
  rewrite replace_codepoints_app by done. unfold bind, ret.
  rewrite Hone. unfold bind, ret.
  destruct (f char w1) as [[r|] w2]; [|done].
  rewrite app_nil_r.
  by destruct (replace_codepoints f post w2) as [[b|] w3].
Qed.

(** A code point outside ASCII is one match of the scan, an unpaired
    surrogate too. *)
Lemma non_ascii_char_between pre char post :
  non_ascii_char char → code_point_between pre char post.
Proof.
  intros [(c & -> & Hc & Hh & Hl)|(h & l & -> & Hh & Hl)].
  - left. exists c. by rewrite Hh, Hl, andb_false_r.
  - right. by exists h, l.
Qed.

Lemma replace_codepoints_between f pre char post w :
  code_point_between pre char post →
  replace_codepoints f (pre ++ char ++ post) w
  = (let* a := replace_codepoints f pre in
     let* r := f char in
     let* b := replace_codepoints f post in
     ret (a ++ r ++ b)) w.
Proof.
  intros Hchar.
  assert (Hone : ∀ w0, replace_codepoints f char w0
                       = (let* r := f char in ret (r ++ [])) w0).
  { intros w0.
    destruct Hchar as [(c & -> & Hc & _ & _)|(h & l & -> & Hh & Hl)]; simpl.
    - by rewrite not_ascii_test.
    - rewrite not_ascii_test by (by apply high_not_ascii).
      by rewrite Hh, Hl. }
  assert (Hleft : ends_high pre && starts_low (char ++ post) = false).
  { destruct Hchar as [(c & -> & _ & Hl & _)|(h & l & -> & Hh & _)]; simpl.
    - done.
    - by rewrite (high_not_low h), andb_false_r. }
  assert (Hright : ends_high char && starts_low post = false).
  { destruct Hchar as [(c & -> & _ & _ & Hh)|(h & l & -> & _ & Hl)].
    - done.
    - unfold ends_high. simpl. by rewrite (low_not_high l). }
  rewrite replace_codepoints_app by done. unfold bind, ret.
  destruct (replace_codepoints f pre w) as [[a|] w1]; [|done].
  rewrite replace_codepoints_app by done. unfold bind, ret.
  rewrite Hone. unfold bind, ret.
  destruct (f char w1) as [[r|] w2]; [|done].
  rewrite app_nil_r.
  by destruct (replace_codepoints f post w2) as [[b|] w3].
Qed.

(** The entry point on one code point outside ASCII between ASCII
    text. *)
Lemma unidecode_between tables o pre char post w r w' :
  ascii_only pre → ascii_only post →
  code_point_between pre char post →
  (german (options_of o) = true → no_diaeresis char) →
  replacer tables char (options_of o) w = (Ok r, w') →
  (resolves (options_of o) = true → sentinel_free r) →
  unidecode tables (pre ++ char ++ post) o w = (Ok (pre ++ r ++ post), w').
Proof.
  intros Hpre Hpost Hchar Hd Hr Hfree.
  assert (Hne : char ≠ []).
  { by destruct Hchar as [(c & -> & _)|(h & l & -> & _)]. }
  unfold unidecode. set (options := options_of o) in *.
  destruct (pre ++ char ++ post) as [|x xs] eqn:E.
  { apply app_eq_nil in E as [_ E]. by apply app_eq_nil in E as [? _]. }
  rewrite <- E. clear E x xs.
  assert (Hgerman :
    (if german options
     then replace_g re_umlaut_lower
            (replace_g re_umlaut_upper (pre ++ char ++ post))
     else pre ++ char ++ post) = pre ++ char ++ post).
  { destruct (german options); [|done].
    apply german_pass_no_diaeresis. apply Forall_app. split.
    - by apply ascii_only_no_diaeresis.
    - apply Forall_app. split; [by apply Hd|].
      by apply ascii_only_no_diaeresis. }
  rewrite Hgerman. unfold bind at 1.
  rewrite replace_codepoints_between by done.
  unfold bind, ret. rewrite !replace_codepoints_ascii by done.
  rewrite Hr. rewrite replace_codepoints_ascii by done.
  fold (resolves options) in Hfree.
  replace (negb (smartSpacing options) || deferredSmartSpacing options)
    with (negb (resolves options))
    by (unfold resolves; by destruct (smartSpacing options),
                               (deferredSmartSpacing options)).
  destruct (resolves options); [|done]. simpl.
  f_equal. f_equal. apply resolver_copies_clean_string.
  apply Forall_app. split; [by apply ascii_only_sentinel_free|].
  apply Forall_app. split; [by apply Hfree | by apply ascii_only_sentinel_free].
Qed.

(** C7. A character whose code point some pair of [skipRanges] holds
    (both ends included) comes back from the replacer as it is, with
    no page read nor loaded; so the scan copies every code point
    outside ASCII of such a range, an unpaired surrogate as well as a
    surrogate pair, wherever it stands.  Between ASCII text the whole
    call returns the input (in German mode for a code point other
    than U+0308, which the pass before the scan may fold away, and
    when the call resolves the spacing for one other than the two
    sentinels, which the resolver takes away); in particular with
    [skipRanges: [[0x00C0, 0x00FF]]] a code point of that range
    between ASCII text comes out of [unidecode] as it went in. *)
Theorem skip_range_passes_through tables w :
  (∀ char options lo hi,
     (lo, hi) ∈ skipRanges options →
     lo ≤ codePointAt0 char ≤ hi →
     replacer tables char options w = (Ok char, w))
  ∧ (∀ char options lo hi pre post,
       code_point_between pre char post →
       (lo, hi) ∈ skipRanges options →
       lo ≤ codePointAt0 char ≤ hi →
       replace_codepoints (λ m, replacer tables m options)
         (pre ++ char ++ post) w
       = (let* a :=
            replace_codepoints (λ m, replacer tables m options) pre in
          let* b :=
            replace_codepoints (λ m, replacer tables m options) post in
          ret (a ++ char ++ b)) w)
  ∧ (∀ char o lo hi pre post,
       ascii_only pre → ascii_only post →
       code_point_between pre char post →
       (lo, hi) ∈ skipRanges (options_of o) →
       lo ≤ codePointAt0 char ≤ hi →
       (german (options_of o) = true → no_diaeresis char) →
       (resolves (options_of o) = true → sentinel_free char) →
       unidecode tables (pre ++ char ++ post) o w
       = (Ok (pre ++ char ++ post), w))
  ∧ (∀ cp g sm df pre post,
       0x00C0 ≤ cp ≤ 0x00FF →
       ascii_only pre → ascii_only post →
       unidecode tables (pre ++ cp :: post)
         (Some {| in_german := g; in_deferredSmartSpacing := df;
                  in_smartSpacing := sm;
                  in_skipRanges := Some [(0x00C0, 0x00FF)] |}) w
       = (Ok (pre ++ cp :: post), w)).
Proof.
  assert (Hskip : ∀ char options lo hi w0,
            (lo, hi) ∈ skipRanges options →
            lo ≤ codePointAt0 char ≤ hi →
            replacer tables char options w0 = (Ok char, w0)).
  { intros char options lo hi w0 Hin Hcp. apply replacer_skipped.
    by apply (in_skip_ranges_covered _ lo hi). }
  split; [|split; [|split]].
  - intros char options lo hi. apply Hskip.
  - intros char options lo hi pre post Hchar Hin Hcp.
    rewrite replace_codepoints_between by done. unfold bind, ret.
    destruct (replace_codepoints _ pre w) as [[a|] w1]; [|done].
    by rewrite (Hskip char options lo hi w1).
  - intros char o lo hi pre post Hpre Hpost Hchar Hin Hcp Hd Hfree.
    apply unidecode_between; try done. by apply (Hskip _ _ lo hi).
  - intros cp g sm df pre post Hcp Hpre Hpost.
    apply (unidecode_single tables _ pre cp post w [cp] w); try done.
    + unfold is_ascii. lia.
    + lia.
    + apply replacer_skipped. simpl.
      by replace ((0x00C0 <=? cp) && (cp <=? 0x00FF)) with true by lia.
    + apply List.Forall_cons; [|apply List.Forall_nil].
      unfold not_sentinel, x80, x81. lia.
Qed.

(** An unpaired low surrogate that a skip range covers, after a high
    surrogate and an "a": the scan copies it. *)
Lemma skip_range_passes_through_witness :
  (code_point_between [0xD83D; 0x61] [0xDE00] [0x62]
   ∧ (0xD800, 0xDFFF) ∈ [(0x00C0, 0x00FF); (0xD800, 0xDFFF)]
   ∧ 0xD800 ≤ codePointAt0 [0xDE00] ≤ 0xDFFF)
  ∧ replace_codepoints
      (λ m, replacer (λ _, None) m
              {| german := false; deferredSmartSpacing := false;
                 smartSpacing := true;
                 skipRanges := [(0x00C0, 0x00FF); (0xD800, 0xDFFF)] |})
      ([0xD83D; 0x61] ++ [0xDE00] ++ [0x62]) fresh
    = (Ok [0xD83D; 0x61; 0xDE00; 0x62], fresh).
Proof.
  assert (H1 : code_point_between [0xD83D; 0x61] [0xDE00] [0x62]).
  { left. exists 0xDE00. unfold is_ascii. split; [done|].
    split; [lia|]. by split. }
  assert (H2 : (0xD800, 0xDFFF) ∈ [(0x00C0, 0x00FF); (0xD800, 0xDFFF)]).
  { apply list_elem_of_In. simpl. tauto. }
  assert (H3 : 0xD800 ≤ codePointAt0 [0xDE00] ≤ 0xDFFF).
  { simpl. lia. }
  split; [done|].
  rewrite (proj1 (proj2 (skip_range_passes_through (λ _, None) fresh))
             [0xDE00]
             {| german := false; deferredSmartSpacing := false;
                smartSpacing := true;
                skipRanges := [(0x00C0, 0x00FF); (0xD800, 0xDFFF)] |}
             0xD800 0xDFFF [0xD83D; 0x61] [0x62] H1 H2 H3).
  reflexivity.
Defined.

(** ** Failed page loads *)

Lemma fresh_consistent tables : cache_consistent tables fresh.
Proof. intros r p. unfold fresh. simpl. by rewrite lookup_empty. Qed.

Lemma world_after_consistent tables w r :
  cache_consistent tables w → cache_consistent tables (world_after tables w r).
Proof.
  intros Hw r' p. unfold world_after.
  destruct (dataCache w !! r) as [q|] eqn:E; simpl; [apply Hw|].
  rewrite lookup_insert. case_decide as Hr; [|apply Hw].
  subst r'. congruence.
Qed.

Lemma replacer_world tables char options w out w' :
  replacer tables char options w = (out, w') →
  w' = w
  ∨ w' = world_after tables w
           (Z.shiftr (codePointAt0 char) 8,
            (Z.shiftr (codePointAt0 char) 8 =? 0) && german options).
Proof.
  unfold replacer.
  destruct (in_skip_ranges _ _); [intros [= _ <-]; by left|].
  destruct (_ || _); [intros [= _ <-]; by left|].
  destruct (_ && negb _); [intros [= _ <-]; by left|].
  rewrite ensure_read_bind.
  destruct (smartSpacing options && _); [intros [= _ <-]; by right|].
  destruct (_ || _); [intros [= _ <-]; by right|].
  destruct (_ || _); intros [= _ <-]; by right.
Qed.

Lemma replacer_consistent tables char options w out w' :
  replacer tables char options w = (out, w') →
  cache_consistent tables w → cache_consistent tables w'.
Proof.
  intros [->| ->]%replacer_world Hw; [done|].
  by apply world_after_consistent.
Qed.

Lemma replace_codepoints_invariant (I : world → Prop) f :
  (∀ char w out w', f char w = (out, w') → I w → I w') →
  ∀ s w out w', replace_codepoints f s w = (out, w') → I w → I w'.
Proof.
  intros Hf.
  assert (Hstep : ∀ char t,
    (∀ w out w', replace_codepoints f t w = (out, w') → I w → I w') →
    ∀ w out w',
      (let* r := f char in
       let* rest := replace_codepoints f t in ret (r ++ rest)) w = (out, w') →
      I w → I w').
  { intros char t IH w out w'. unfold bind, ret.
    destruct (f char w) as [[r|] w1] eqn:E1.
    - destruct (replace_codepoints f t w1) as [[rest|] w2] eqn:E2;
        intros [= _ <-] Hw; eapply IH; eauto.
    - intros [= _ <-] Hw. eauto. }
  induction s as [s IH] using (induction_ltof1 _ (@length Z)).
  unfold ltof in IH. destruct s as [|c t]; intros w out w'.
  - by intros [= _ <-].
  - simpl. destruct (_ && _).
    + unfold bind, ret.
      destruct (replace_codepoints f t w) as [[rest|] w1] eqn:E;
        intros [= _ <-] Hw; eapply (IH t); eauto.
    + destruct t as [|d u].
      * apply Hstep. apply IH. simpl; lia.
      * destruct (_ && _); apply Hstep; apply IH; simpl; lia.
Qed.

Lemma unidecode_consistent tables s o w out w' :
  unidecode tables s o w = (out, w') →
  cache_consistent tables w → cache_consistent tables w'.
Proof.
  unfold unidecode. destruct s as [|c t]; [by intros [= _ <-]|].
  unfold bind.
  match goal with
  | |- context [replace_codepoints ?f ?x w] =>
      destruct (replace_codepoints f x w) as [[str|] w1] eqn:E
  end.
  - destruct (_ || _); intros [= _ <-] Hw;
      refine (replace_codepoints_invariant _ _ _ _ _ _ _ E Hw);
      intros ? ? ? ?; apply replacer_consistent.
  - intros [= _ <-] Hw.
    refine (replace_codepoints_invariant _ _ _ _ _ _ _ E Hw);
      intros ? ? ? ?; apply replacer_consistent.
Qed.

(** The claim C5 read to the letter fails: with no page loadable at
    all, the em dash under smart spacing comes out as "--", and a code
    point of a dropped band as the empty string, not as "_". *)
Lemma unresolvable_page_not_always_placeholder :
  (fst (unidecode (λ _, None) [0x2014]
          (Some {| in_german := None; in_deferredSmartSpacing := None;
                   in_smartSpacing := Some true; in_skipRanges := None |})
          fresh) = Ok (lit "--")
   ∧ fst (unidecode (λ _, None) [0xE000] None fresh) = Ok [])
  ∧ ¬ (∀ (tables : row → option page) o cp w,
         0x80 ≤ cp ≤ 0xFFFF →
         tables (Z.shiftr cp 8,
                 (Z.shiftr cp 8 =? 0) && german (options_of o)) = None →
         ∃ w', unidecode tables [cp] o w = (Ok (lit "_"), w')).
Proof.
  split; [split; reflexivity|].
  intros H.
  destruct (H (λ _, None)
              (Some {| in_german := None; in_deferredSmartSpacing := None;
                       in_smartSpacing := Some true;
                       in_skipRanges := None |})
              0x2014 fresh) as [w' Hw']; [lia | done |].
  vm_compute in Hw'. discriminate.
Qed.

Lemma page_after_unresolvable tables w r :
  cache_consistent tables w → tables r = None →
  page_after tables w r = fallback_page.
Proof.
  intros Hw Hr. unfold page_after.
  destruct (dataCache w !! r) as [p|] eqn:E.
  - rewrite (Hw r p E). unfold loaded. by rewrite Hr.
  - unfold loaded. by rewrite Hr.
Qed.

(** C5, amended. [unidecode] never throws: a failed page load is
    caught and a page of 256 "_" is cached in its place.  So a code
    point that gets as far as the table (no skip range holds it, its
    high byte is outside the dropped bands and is at most 0xFF or an
    emoji page) and whose page cannot be loaded is replaced by "_",
    unless it is the em dash under smart spacing, which the marker
    triple replaces; and a later lookup on that row uses the cached
    page, calls [require] no more and gives "_" again, whatever the
    table store holds by then. *)
Theorem load_failure_degrades_to_placeholder :
  (∀ tables (inputStr : jsstring) inputOptions w,
     ∃ out w', unidecode tables inputStr inputOptions w = (Ok out, w'))
  ∧ (∀ tables char options w,
       let cp := codePointAt0 char in
       let high := Z.shiftr cp 8 in
       let r := (high, (high =? 0) && german options) in
       let emoji := (high =? 0x1F4) || (high =? 0x1F6) || (high =? 0x1F9) in
       let w1 := world_after tables w r in
       cache_consistent tables w →
       tables r = None →
       in_skip_ranges (skipRanges options) cp = false →
       ((0x18 <? high) && (high <? 0x1E)) || ((0xD7 <? high) && (high <? 0xF9))
         = false →
       (0xFF <? high) && negb emoji = false →
       smartSpacing options && (cp =? 0x2014) = false →
       replacer tables char options w = (Ok (lit "_"), w1)
       ∧ dataCache w1 !! r = Some (replicate 256 (lit "_"))
       ∧ ∀ tables',
           replacer tables' char options w1
           = (Ok (lit "_"),
              {| dataCache := dataCache w1;
                 trace := trace w1 ++ [EvRead r; EvRead r] |})).
Proof.
  split; [intros; apply unidecode_returns|].
  intros tables char options w cp high r emoji w1 Hw Hr Hskip Hband Hout Hdash.
  assert (Hcached : dataCache w1 !! r = Some fallback_page).
  { unfold w1. rewrite world_after_lookup.
    by rewrite page_after_unresolvable. }
  assert (Hemit : ∀ tbl w0,
            page_after tbl w0 r = fallback_page →
            replacer tbl char options w0 = (Ok (lit "_"), world_after tbl w0 r)).
  { intros tbl w0 Hpage. rewrite replacer_lookup by done.
    fold cp high r. rewrite Hpage, Hdash.
    rewrite fallback_page_entry by apply land_255_range.
    f_equal. replace (jsstring_eqb (lit "_") (lit "_")) with true by done.
    by rewrite orb_true_r. }
  split; [|split; [done|]].
  - apply Hemit. by apply page_after_unresolvable.
  - intros tables'. rewrite Hemit.
    + unfold world_after. by rewrite Hcached.
    + unfold page_after. by rewrite Hcached.
Qed.

(** U+00E9 against a table store with no page, on the fresh module. *)
Lemma load_failure_degrades_to_placeholder_witness :
  replacer (λ _, None) [0xE9] (prepareOptions no_options) fresh
  = (Ok (lit "_"), world_after (λ _, None) fresh (0, false))
  ∧ ∀ tables',
      replacer tables' [0xE9] (prepareOptions no_options)
        (world_after (λ _, None) fresh (0, false))
      = (Ok (lit "_"),
         {| dataCache := dataCache (world_after (λ _, None) fresh (0, false));
            trace := trace (world_after (λ _, None) fresh (0, false))
                     ++ [EvRead (0, false); EvRead (0, false)] |}).
Proof.
  destruct (proj2 load_failure_degrades_to_placeholder (λ _, None) [0xE9]
              (prepareOptions no_options) fresh
              (fresh_consistent _) eq_refl eq_refl eq_refl eq_refl eq_refl)
    as (H1 & _ & H2).
  split; [exact H1 | exact H2].
Defined.

(** ** The seven expressions, one by one *)

Lemma run_snoc_stop p (t rest : jsstring) w :
  p w = false → run p (t ++ w :: rest) = run p (t ++ [w]).
Proof.
  intros Hw. induction t as [|c t IH]; simpl; [by rewrite Hw|].
  destruct (p c); [by rewrite IH | done].
Qed.

Lemma run_snoc_le p (t : jsstring) w :
  p w = false → (run p (t ++ [w]) ≤ length t)%nat.
Proof.
  intros Hw. induction t as [|c t IH]; simpl; [by rewrite Hw|].
  destruct (p c); lia.
Qed.

(** *** Bounds *)

Lemma re_dash_bounded : bounded re_dash.
Proof.
  intros start t n r. unfold re_dash.
  destruct t as [|p1 [|a [|b [|c [|d [|p3 t]]]]]]; try discriminate.
  destruct (_ && _); [|discriminate]. intros [= <- _]. simpl. lia.
Qed.

Lemma re_x80_not_before_word_bounded : bounded re_x80_not_before_word.
Proof.
  intros start t n r. unfold re_x80_not_before_word.
  destruct t as [|c t]; [discriminate|].
  destruct (_ && _); [|discriminate]. intros [= <- _]. simpl. lia.
Qed.

Lemma re_collapse_bounded : bounded re_collapse.
Proof.
  intros start t n r. unfold re_collapse.
  destruct t as [|c [|d t]]; try discriminate.
  destruct (_ && _); [intros [= <- _]; simpl; lia|].
  destruct (_ && _); [|discriminate]. intros [= <- _]. simpl. lia.
Qed.

Lemma re_x80_bounded : bounded re_x80.
Proof.
  intros start t n r. unfold re_x80.
  destruct t as [|c t]; [discriminate|].
  destruct (c =? x80); [|discriminate]. intros [= <- _]. simpl. lia.
Qed.

Lemma re_edges_bounded : bounded re_edges.
Proof.
  intros start t n r. unfold re_edges.
  pose proof (run_le_length is_x81 t).
  destruct (0 <? run is_x81 t)%nat eqn:E.
  - apply Nat.ltb_lt in E.
    destruct (start && true); [intros [= <- _]; lia|].
    destruct (true && _); [|discriminate]. intros [= <- _]. lia.
  - by rewrite andb_false_r.
Qed.

Lemma re_x81_space_x81_bounded : bounded re_x81_space_x81.
Proof.
  intros start t n r. unfold re_x81_space_x81.
  destruct t as [|a [|b [|c t]]]; try discriminate.
  destruct (_ && _); [|discriminate]. intros [= <- _]. simpl. lia.
Qed.

Lemma re_x81_run_bounded : bounded re_x81_run.
Proof.
  intros start t n r. unfold re_x81_run.
  destruct t as [|c t]; [discriminate|].
  pose proof (run_le_length is_x81 t).
  pose proof (run_le_length is_x81 (c :: t)).
  destruct (_ && _); [intros [= <- _]; simpl; lia|].
  destruct (0 <? _)%nat eqn:E; [|discriminate].
  apply Nat.ltb_lt in E. intros [= <- _].
  simpl in *. destruct (is_x81 c); lia.
Qed.

(** *** The dash expression keeps the units at its two ends *)

Lemma re_dash_keeps_last w : keeps_last re_dash w.
Proof.
  intros start t n r. unfold re_dash.
  destruct t as [|p1 [|a [|b [|c [|d [|p3 t]]]]]]; simpl; try discriminate.
  - destruct (_ && _); [|discriminate]. intros [= <- <-].
    right. by exists (p1 :: lit " - ").
  - destruct (_ && _); [|discriminate]. intros [= <- _]. left. lia.
Qed.

Lemma re_dash_keeps_first w : keeps_first re_dash w.
Proof.
  intros start t n r. unfold re_dash.
  destruct t as [|a [|b [|c [|d [|p3 t]]]]]; try discriminate.
  destruct (_ && _); [|discriminate]. intros [= _ <-]. by eexists.
Qed.

(** *** What follows a word character has no say in earlier matches *)

Lemma re_collapse_insulated l w rest :
  is_word w = true → insulated re_collapse l (w :: rest).
Proof.
  intros Hw start t Hne _. unfold re_collapse.
  destruct t as [|c [|d t]]; simpl; try done.
  replace (w =? x80) with false by bool_lia. by rewrite !andb_false_r.
Qed.

Lemma re_x80_insulated l rest : insulated re_x80 l rest.
Proof. intros start t Hne _. by destruct t. Qed.

(** *** Expressions without [^]; a 0x80 after a word character *)

Lemma start_free_re_dash : start_free re_dash.
Proof. done. Qed.
Lemma start_free_re_x80_not_before_word : start_free re_x80_not_before_word.
Proof. done. Qed.
Lemma start_free_re_collapse : start_free re_collapse.
Proof. done. Qed.
Lemma start_free_re_x80 : start_free re_x80.
Proof. done. Qed.
Lemma start_free_re_x81_space_x81 : start_free re_x81_space_x81.
Proof. done. Qed.
Lemma start_free_re_x81_run : start_free re_x81_run.
Proof. done. Qed.

Lemma re_dash_not_at_non_word start p1 t :
  is_word p1 = false → re_dash start (p1 :: t) = None.
Proof.
  intros H. unfold re_dash.
  destruct t as [|a [|b [|c [|d [|p3 t]]]]]; try done. by rewrite H.
Qed.

Lemma re_dash_not_at_x80 start t : re_dash start (x80 :: t) = None.
Proof. unfold re_dash. by destruct t as [|a [|b [|c [|d [|p3 t]]]]]. Qed.

Lemma pass3_join x y :
  ends_word x →
  replace_g re_collapse (x ++ x80 :: y)
  = replace_g re_collapse x ++ x81 :: replace_g re_collapse y.
Proof.
  intros (x0 & w & -> & Hw).
  rewrite <- app_assoc. simpl app.
  rewrite !replace_g_app
    by auto using re_collapse_bounded, start_free_re_collapse,
         re_collapse_insulated.
  rewrite <- app_assoc. f_equal.
  unfold replace_g. simpl.
  rewrite Hw. replace (w =? x80) with false by bool_lia. simpl.
  destruct y as [|c t]; [done|].
  by rewrite (replace_go_start_free re_collapse O (c :: t)).
Qed.

(** ** A run of sentinels between two parts *)

(** *** What the expressions keep of a unit that is no sentinel *)

Lemma keeps_last_x80_not_before_word c :
  c ≠ x80 → keeps_last re_x80_not_before_word c.
Proof.
  intros Hc start t n r. unfold re_x80_not_before_word.
  destruct t as [|d t]; simpl.
  - by rewrite (proj2 (Z.eqb_neq c x80) Hc).
  - destruct (_ && _); [|discriminate]. intros [= <- _]. left. lia.
Qed.

Lemma keeps_last_collapse c : c ≠ x80 → keeps_last re_collapse c.
Proof.
  intros Hc start t n r. unfold re_collapse.
  destruct t as [|d [|e t]]; simpl; try discriminate.
  - rewrite (proj2 (Z.eqb_neq c x80) Hc). by rewrite !andb_false_r.
  - destruct (_ && _); [intros [= <- _]; left; lia|].
    destruct (_ && _); [|discriminate]. intros [= <- _]. left. lia.
Qed.

Lemma keeps_last_x80 c : c ≠ x80 → keeps_last re_x80 c.
Proof.
  intros Hc start t n r. unfold re_x80.
  destruct t as [|d t]; simpl.
  - by rewrite (proj2 (Z.eqb_neq c x80) Hc).
  - destruct (d =? x80); [|discriminate]. intros [= <- _]. left. lia.
Qed.

Lemma keeps_last_edges c : c ≠ x81 → keeps_last re_edges c.
Proof.
  intros Hc start t n r. unfold re_edges.
  assert (Hc' : is_x81 c = false) by (by apply Z.eqb_neq).
  pose proof (run_snoc_le is_x81 t c Hc').
  destruct (_ && _); [intros [= <- _]; by left|].
  destruct (_ && _); [|discriminate]. intros [= <- _]. by left.
Qed.

Lemma keeps_last_x81_space_x81 c :
  c ≠ x81 → keeps_last re_x81_space_x81 c.
Proof.
  intros Hc start t n r. unfold re_x81_space_x81.
  destruct t as [|a [|b [|d t]]]; simpl; try discriminate.
  - rewrite (proj2 (Z.eqb_neq c x81) Hc). by rewrite !andb_false_r.
  - destruct (_ && _); [|discriminate]. intros [= <- _]. left. lia.
Qed.

Lemma keeps_first_x80_not_before_word c :
  c ≠ x80 → keeps_first re_x80_not_before_word c.
Proof.
  intros Hc start t n r. unfold re_x80_not_before_word.
  by rewrite (proj2 (Z.eqb_neq c x80) Hc).
Qed.

Lemma keeps_first_collapse c : c ≠ x80 → keeps_first re_collapse c.
Proof.
  intros Hc start t n r. unfold re_collapse.
  destruct t as [|d t]; [discriminate|].
  rewrite (proj2 (Z.eqb_neq c x80) Hc). rewrite andb_false_l.
  destruct (_ && _); [|discriminate]. intros [= _ <-]. by eexists.
Qed.

Lemma keeps_first_x80 c : c ≠ x80 → keeps_first re_x80 c.
Proof.
  intros Hc start t n r. unfold re_x80.
  by rewrite (proj2 (Z.eqb_neq c x80) Hc).
Qed.

Lemma keeps_first_edges c : c ≠ x81 → keeps_first re_edges c.
Proof.
  intros Hc start t n r. unfold re_edges. simpl.
  assert (Hc' : is_x81 c = false) by (by apply Z.eqb_neq).
  rewrite Hc'. simpl. by rewrite andb_false_r.
Qed.

Lemma keeps_first_x81_space_x81 c :
  c ≠ x81 → keeps_first re_x81_space_x81 c.
Proof.
  intros Hc start t n r. unfold re_x81_space_x81.
  destruct t as [|b [|d t]]; try discriminate.
  by rewrite (proj2 (Z.eqb_neq c x81) Hc).
Qed.

(** *** The two ends of a part are kept by a pass *)

Section KeepsEnds.

Variable m : matcher.
Hypothesis Hbounded : bounded m.
Hypothesis Hlast : ∀ c, not_sentinel c → keeps_last m c.
Hypothesis Hfirst : ∀ c, not_sentinel c → keeps_first m c.

Lemma replace_g_last l :
  left_plain l → last (replace_g m l) = last l.
Proof.
  unfold left_plain, replace_g. destruct (last l) as [c|] eqn:E.
  - intros Hc. apply last_Some in E as [l' ->].
    destruct (replace_go_keeps_last m c Hbounded (Hlast c Hc) l' true 0)
      as [l'' ->]; [lia|].
    by rewrite !last_snoc.
  - apply last_None in E as ->. done.
Qed.

Lemma replace_g_first r :
  no_sentinel_first r → head (replace_g m r) = head r.
Proof.
  destruct r as [|c t]; [done|]. intros Hc. unfold replace_g. simpl.
  destruct (m true (c :: t)) as [[n r]|] eqn:E; [|done].
  by destruct (Hfirst c Hc _ _ _ _ E) as [r' ->].
Qed.

End KeepsEnds.

Lemma left_part_snoc l c :
  left_part (l ++ [c]) ↔ not_sentinel c ∧ is_space c = false.
Proof. unfold left_part. by rewrite last_snoc. Qed.

Lemma left_part_plain l : left_part l → left_plain l.
Proof.
  unfold left_part, left_plain. destruct (last l); [by intros [? _] | done].
Qed.

Lemma left_plain_cases l :
  left_plain l → l = [] ∨ ∃ l0 c, l = l0 ++ [c] ∧ not_sentinel c.
Proof.
  unfold left_plain. destruct (last l) as [c|] eqn:E.
  - intros ?. apply last_Some in E as [l0 ->]. right. by exists l0, c.
  - apply last_None in E as ->. by left.
Qed.

Lemma left_part_cases l :
  left_part l →
  l = [] ∨ ∃ l0 c, l = l0 ++ [c] ∧ not_sentinel c ∧ is_space c = false.
Proof.
  unfold left_part. destruct (last l) as [c|] eqn:E.
  - intros [? ?]. apply last_Some in E as [l0 ->]. right. by exists l0, c.
  - apply last_None in E as ->. by left.
Qed.

Lemma nonempty_last (l : jsstring) :
  nonempty l = match last l with Some _ => true | None => false end.
Proof.
  destruct (last l) eqn:E.
  - apply last_Some in E as [l' ->]. by destruct l'.
  - by apply last_None in E as ->.
Qed.

Lemma nonempty_head (r : jsstring) :
  nonempty r = match head r with Some _ => true | None => false end.
Proof. by destruct r. Qed.

Lemma nonempty_true (m : jsstring) : nonempty m = true ↔ m ≠ [].
Proof. by destruct m. Qed.

Lemma head_word_head (r : jsstring) :
  head_word r = match head r with Some c => is_word c | None => false end.
Proof. by destruct r. Qed.

(** A string with the same last unit (the same first unit) has the
    same properties at the seam. *)
Lemma same_last (l l' : jsstring) :
  last l' = last l →
  (left_plain l → left_plain l') ∧ (left_part l → left_part l')
  ∧ last_word l' = last_word l ∧ nonempty l' = nonempty l.
Proof.
  intros E. unfold left_plain, left_part, last_word.
  rewrite !nonempty_last, E. done.
Qed.

Lemma same_head (r r' : jsstring) :
  head r' = head r →
  (no_sentinel_first r → no_sentinel_first r')
  ∧ (head_x81_free r → head_x81_free r')
  ∧ head_word r' = head_word r ∧ nonempty r' = nonempty r.
Proof.
  intros E. rewrite !head_word_head, !nonempty_head, E.
  destruct r as [|c t], r' as [|c' t']; try done. by injection E as ->.
Qed.

Lemma no_sentinel_first_x81_free r : no_sentinel_first r → head_x81_free r.
Proof. destruct r as [|c r']; [done|]. by intros [_ ?]. Qed.

Lemma pass1_ends (l r : jsstring) :
  left_plain l → no_sentinel_first r →
  last (replace_g re_dash l) = last l ∧ head (replace_g re_dash r) = head r.
Proof.
  intros Hl Hr. split.
  - apply replace_g_last; auto using re_dash_bounded, re_dash_keeps_last.
  - apply replace_g_first; auto using re_dash_keeps_first.
Qed.

Lemma pass2_ends (l r : jsstring) :
  left_plain l → no_sentinel_first r →
  last (replace_g re_x80_not_before_word l) = last l
  ∧ head (replace_g re_x80_not_before_word r) = head r.
Proof.
  intros Hl Hr. split.
  - apply replace_g_last; [apply re_x80_not_before_word_bounded| |done].
    intros c [Hc _]. by apply keeps_last_x80_not_before_word.
  - apply replace_g_first; [|done].
    intros c [Hc _]. by apply keeps_first_x80_not_before_word.
Qed.

Lemma pass3_ends (l r : jsstring) :
  left_plain l → no_sentinel_first r →
  last (replace_g re_collapse l) = last l
  ∧ head (replace_g re_collapse r) = head r.
Proof.
  intros Hl Hr. split.
  - apply replace_g_last; [apply re_collapse_bounded| |done].
    intros c [Hc _]. by apply keeps_last_collapse.
  - apply replace_g_first; [|done].
    intros c [Hc _]. by apply keeps_first_collapse.
Qed.

Lemma pass4_ends (l r : jsstring) :
  left_plain l → no_sentinel_first r →
  last (replace_g re_x80 l) = last l ∧ head (replace_g re_x80 r) = head r.
Proof.
  intros Hl Hr. split.
  - apply replace_g_last; [apply re_x80_bounded| |done].
    intros c [Hc _]. by apply keeps_last_x80.
  - apply replace_g_first; [|done].
    intros c [Hc _]. by apply keeps_first_x80.
Qed.

Lemma pass5_ends (l r : jsstring) :
  left_plain l → no_sentinel_first r →
  last (replace_g re_edges l) = last l ∧ head (replace_g re_edges r) = head r.
Proof.
  intros Hl Hr. split.
  - apply replace_g_last; [apply re_edges_bounded| |done].
    intros c [_ Hc]. by apply keeps_last_edges.
  - apply replace_g_first; [|done].
    intros c [_ Hc]. by apply keeps_first_edges.
Qed.

Lemma pass6_ends (l r : jsstring) :
  left_plain l → no_sentinel_first r →
  last (replace_g re_x81_space_x81 l) = last l
  ∧ head (replace_g re_x81_space_x81 r) = head r.
Proof.
  intros Hl Hr. split.
  - apply replace_g_last; [apply re_x81_space_x81_bounded| |done].
    intros c [_ Hc]. by apply keeps_last_x81_space_x81.
  - apply replace_g_first; [|done].
    intros c [_ Hc]. by apply keeps_first_x81_space_x81.
Qed.

(** *** Pass 1 *)

Lemma marker_not_word s : s = x80 ∨ s = x81 → is_word s = false.
Proof. by intros [-> | ->]. Qed.

Lemma replace_g_copy_prefix m (e tail : jsstring) :
  start_free m →
  (∀ start e1 c e2, e = e1 ++ c :: e2 → m start (c :: e2 ++ tail) = None) →
  replace_g m (e ++ tail) = e ++ replace_g m tail.
Proof.
  intros Hs Hno. unfold replace_g. rewrite replace_go_copy_prefix by done.
  destruct e; [done|]. by rewrite (replace_go_start_free m 0 tail Hs).
Qed.

Lemma replace_g_drop m c t :
  start_free m → m true (c :: t) = Some (1%nat, []) →
  replace_g m (c :: t) = replace_g m t.
Proof.
  intros Hs Hm. unfold replace_g. simpl. rewrite Hm. simpl.
  by rewrite (replace_go_start_free m 0 t Hs).
Qed.

Lemma markers_split (m e1 e2 : jsstring) c :
  markers m → m = e1 ++ c :: e2 → (c = x80 ∨ c = x81) ∧ markers e2.
Proof.
  intros Hm ->. unfold markers in *.
  apply Forall_app in Hm as [_ Hm]. by apply Forall_cons in Hm.
Qed.

Lemma re_dash_insulated_seam l c rest :
  not_sentinel c →
  match rest with
  | x :: y :: _ =>
      ¬ (is_word c = true ∧ x = x80 ∧ y = 0x2D)
      ∧ ¬ (c = 0x2D ∧ x = 0x2D ∧ y = x80)
      ∧ ¬ (c = 0x2D ∧ x = x80 ∧ is_word y = true)
  | _ => True
  end →
  insulated re_dash (l ++ [c]) rest.
Proof.
  intros [Hc0 Hc1] Hrest start t Hne [t0 ->]%suffix_snoc_inv; [|done].
  unfold re_dash.
  destruct t0 as [|p1 [|a [|b [|c0 [|d t0]]]]]; simpl.
  - destruct rest as [|x [|y [|g [|h [|i rest]]]]]; try done.
    destruct Hrest as (H1 & _ & _).
    destruct (is_word c) eqn:Ew; [|done].
    destruct (x =? x80) eqn:Ex; [|done].
    destruct (y =? 0x2D) eqn:Ey; [|done].
    exfalso. apply H1. lia.
  - rewrite (proj2 (Z.eqb_neq c x80) Hc0).
    destruct rest as [|x [|y [|g [|h rest]]]]; try done. falsify.
  - destruct rest as [|x [|y [|g rest]]]; try done.
    destruct Hrest as (_ & H2 & _).
    destruct (c =? 0x2D) eqn:Ec; [|falsify].
    destruct (x =? 0x2D) eqn:Ex; [|falsify].
    destruct (y =? x80) eqn:Ey; [|falsify].
    exfalso. apply H2. lia.
  - destruct rest as [|x [|y rest]]; try done.
    destruct Hrest as (_ & _ & H3).
    destruct (c =? 0x2D) eqn:Ec; [|falsify].
    destruct (x =? x80) eqn:Ex; [|falsify].
    destruct (is_word y) eqn:Ey; [|falsify].
    exfalso. apply H3. lia.
  - rewrite (proj2 (Z.eqb_neq c x80) Hc0).
    destruct rest as [|x rest]; [done|]. falsify.
  - by destruct t0.
Qed.

Lemma seam_pass1_right (m r : jsstring) :
  markers m → replace_g re_dash (m ++ r) = m ++ replace_g re_dash r.
Proof.
  intros Hm. apply replace_g_copy_prefix; [done|].
  intros start e1 c e2 Heq.
  destruct (markers_split m e1 e2 c Hm Heq) as [Hc _].
  apply re_dash_not_at_non_word. by apply marker_not_word.
Qed.

Lemma seam_pass1 (l m r : jsstring) :
  left_plain l → markers m → no_sentinel_first r → no_dash_across l m r →
  replace_g re_dash (l ++ m ++ r)
  = replace_g re_dash l ++ m ++ replace_g re_dash r.
Proof.
  intros Hl Hm Hr Hdash.
  destruct (left_plain_cases l Hl) as [->|(l0 & c & -> & Hc)].
  { rewrite app_nil_l. by rewrite (seam_pass1_right m r Hm). }
  rewrite replace_g_app; [by rewrite (seam_pass1_right m r Hm)| | |].
  - apply re_dash_bounded.
  - done.
  - apply re_dash_insulated_seam; [done|].
    assert (Hc' : existsb is_x81 m = false → r ≠ [] →
                  c ≠ 0x2D ∧ (head r ≠ Some 0x2D ∨ is_word c = false)).
    { intros Hx Hne. destruct Hdash as [H|[H|[H|[H1 H2]]]].
      - congruence.
      - by destruct l0.
      - done.
      - unfold last_word in H2. rewrite last_snoc in H1, H2.
        split; [congruence|done]. }
    destruct m as [|s1 [|s2 m']].
    + destruct r as [|x [|y r']]; try done. simpl.
      destruct Hr as [Hx0 Hx1].
      destruct Hc' as [Hc2 _]; [done|done|].
      repeat split; intros (? & ? & ?); congruence.
    + apply Forall_cons in Hm as [Hs1 _].
      destruct r as [|y r']; [done|]. simpl.
      repeat split.
      * intros (Hw & -> & ->). destruct Hc' as [_ [Hc2|Hc2]]; [done|done| |].
        -- by apply Hc2.
        -- congruence.
      * intros (_ & -> & _). by destruct Hs1.
      * intros (-> & -> & _). destruct Hc' as [Hc2 _]; [done|done|]. done.
    + apply Forall_cons in Hm as [Hs1 Hm].
      apply Forall_cons in Hm as [Hs2 _]. simpl.
      repeat split.
      * intros (_ & _ & ->). by destruct Hs2.
      * intros (_ & -> & _). by destruct Hs1.
      * intros (_ & _ & Hw). by rewrite (marker_not_word s2 Hs2) in Hw.
Qed.

(** *** Pass 2 *)

Lemma ends_x80_cons s1 s2 (m : jsstring) :
  ends_x80 (s1 :: s2 :: m) = ends_x80 (s2 :: m).
Proof. done. Qed.

Lemma seam_pass2_right (m r : jsstring) :
  markers m →
  replace_g re_x80_not_before_word (m ++ r)
  = after_pass2 m r ++ replace_g re_x80_not_before_word r.
Proof.
  intros Hm. unfold after_pass2.
  induction m as [|s1 m IH]; [done|].
  apply Forall_cons in Hm as [Hs1 Hm]. specialize (IH Hm).
  destruct m as [|s2 m'].
  - clear IH. change ([s1] ++ r) with (s1 :: r).
    destruct Hs1 as [-> | ->].
    + change (ends_x80 [x80]) with true.
      change (List.filter is_x81 [x80]) with (@nil Z).
      rewrite andb_true_l, app_nil_l.
      destruct (head_word r) eqn:Hw.
      * rewrite replace_g_copy; [done|done|].
        unfold re_x80_not_before_word. destruct r as [|c r']; [done|].
        simpl in Hw. by rewrite Hw.
      * rewrite replace_g_drop; [done|done|].
        unfold re_x80_not_before_word. destruct r as [|c r']; [done|].
        simpl in Hw. by rewrite Hw.
    + change (ends_x80 [x81]) with false.
      change (List.filter is_x81 [x81]) with [x81].
      rewrite andb_false_l, app_nil_r.
      by rewrite replace_g_copy.
  - rewrite ends_x80_cons.
    assert (Hs2 : is_word s2 = false).
    { apply Forall_cons in Hm as [Hs2 _]. by apply marker_not_word. }
    change ((s1 :: s2 :: m') ++ r) with (s1 :: s2 :: m' ++ r).
    change ((s2 :: m') ++ r) with (s2 :: m' ++ r) in IH.
    destruct Hs1 as [-> | ->].
    + rewrite replace_g_drop; [|done|].
      * by rewrite IH.
      * unfold re_x80_not_before_word. by rewrite Hs2.
    + rewrite replace_g_copy; [|done|done].
      rewrite IH. done.
Qed.

Lemma re_x80_not_before_word_insulated_seam l c rest :
  c ≠ x80 → insulated re_x80_not_before_word (l ++ [c]) rest.
Proof.
  intros Hc start t Hne [t0 ->]%suffix_snoc_inv; [|done].
  unfold re_x80_not_before_word.
  destruct t0 as [|d t0]; simpl.
  - by rewrite (proj2 (Z.eqb_neq c x80) Hc).
  - by destruct t0.
Qed.

Lemma seam_pass2 (l m r : jsstring) :
  left_plain l → markers m →
  replace_g re_x80_not_before_word (l ++ m ++ r)
  = replace_g re_x80_not_before_word l ++ after_pass2 m r
    ++ replace_g re_x80_not_before_word r.
Proof.
  intros Hl Hm.
  destruct (left_plain_cases l Hl) as [->|(l0 & c & -> & [Hc _])].
  { rewrite app_nil_l. by rewrite (seam_pass2_right m r Hm). }
  rewrite replace_g_app; [by rewrite (seam_pass2_right m r Hm)| | |].
  - apply re_x80_not_before_word_bounded.
  - done.
  - by apply re_x80_not_before_word_insulated_seam.
Qed.

(** *** Pass 3 *)

Lemma filter_x81_all (m : jsstring) : Forall (λ c, c = x81) (List.filter is_x81 m).
Proof.
  apply Forall_forall. intros c Hc%list_elem_of_In.
  apply filter_In in Hc as [_ Hc]. by apply is_x81_true.
Qed.

Lemma filter_x81_nil (m : jsstring) :
  existsb is_x81 m = false → List.filter is_x81 m = [].
Proof.
  induction m as [|c m IH]; [done|]. simpl.
  destruct (is_x81 c); [done|]. apply IH.
Qed.

Lemma filter_x81_cons (m : jsstring) :
  existsb is_x81 m = true → nonempty (List.filter is_x81 m) = true.
Proof.
  induction m as [|c m IH]; [done|]. simpl.
  destruct (is_x81 c); [done|]. apply IH.
Qed.

Lemma ends_x80_no_x81 (m : jsstring) :
  markers m → nonempty m = true → existsb is_x81 m = false →
  ends_x80 m = true.
Proof.
  intros Hm Hne Hx. unfold ends_x80.
  destruct (last m) as [c|] eqn:E.
  - apply last_Some in E as [m' ->].
    apply Forall_app in Hm as [_ Hm]. apply Forall_cons in Hm as [Hc _].
    rewrite existsb_app in Hx. apply orb_false_iff in Hx as [_ Hx].
    simpl in Hx. rewrite orb_false_r in Hx.
    destruct Hc as [-> | ->]; [done | discriminate].
  - apply last_None in E as ->. discriminate.
Qed.

Lemma ends_x80_nonempty (m : jsstring) : ends_x80 m = true → nonempty m = true.
Proof. by destruct m. Qed.

Lemma head_word_not_x80 r : head_word r = true → ∃ c r', r = c :: r' ∧ c ≠ x80.
Proof.
  destruct r as [|c r']; [done|]. simpl. intros Hw. exists c, r'.
  split; [done|]. intros ->. done.
Qed.

Lemma re_collapse_not_at_x81 start t : re_collapse start (x81 :: t) = None.
Proof. unfold re_collapse. by destruct t as [|d t]. Qed.

Lemma seam_pass3_right (m r : jsstring) :
  replace_g re_collapse (after_pass2 m r ++ r)
  = after_pass2 m r ++ replace_g re_collapse r.
Proof.
  unfold after_pass2. rewrite <- !app_assoc.
  rewrite replace_g_copy_prefix; [|done|].
  2:{ intros start e1 c e2 Heq.
      pose proof (filter_x81_all m) as Hall. rewrite Heq in Hall.
      apply Forall_app in Hall as [_ Hall].
      apply Forall_cons in Hall as [-> _].
      apply re_collapse_not_at_x81. }
  f_equal.
  destruct (ends_x80 m && head_word r) eqn:E; [|done].
  apply andb_true_iff in E as [_ Hw].
  destruct (head_word_not_x80 r Hw) as (c & r' & -> & Hc).
  change ([x80] ++ c :: r') with (x80 :: c :: r').
  rewrite replace_g_copy; [done|done|].
  unfold re_collapse. rewrite (proj2 (Z.eqb_neq c x80) Hc).
  by rewrite andb_false_r.
Qed.

Lemma re_collapse_insulated_seam l c rest :
  c ≠ x80 → is_word c = false ∨ head rest ≠ Some x80 →
  insulated re_collapse (l ++ [c]) rest.
Proof.
  intros Hc Hrest start t Hne [t0 ->]%suffix_snoc_inv; [|done].
  unfold re_collapse.
  destruct t0 as [|x [|y t0]]; simpl; try done.
  destruct rest as [|d rest]; [done|].
  rewrite (proj2 (Z.eqb_neq c x80) Hc). rewrite andb_false_l.
  destruct Hrest as [Hw | Hd].
  - by rewrite Hw.
  - assert (d ≠ x80) by (intros ->; by apply Hd).
    rewrite (proj2 (Z.eqb_neq d x80)) by done. by rewrite andb_false_r.
Qed.

Lemma head_after_pass2 (m r : jsstring) :
  no_sentinel_first r →
  head (after_pass2 m r ++ r) = Some x80 →
  nonempty m = true ∧ existsb is_x81 m = false ∧ head_word r = true.
Proof.
  intros Hr. unfold after_pass2.
  destruct (existsb is_x81 m) eqn:Ex.
  - pose proof (filter_x81_cons m Ex) as Hne.
    pose proof (filter_x81_all m) as Hall.
    destruct (List.filter is_x81 m) as [|d f]; [done|].
    apply Forall_cons in Hall as [-> _]. simpl. discriminate.
  - rewrite (filter_x81_nil m Ex), app_nil_l.
    destruct (ends_x80 m && head_word r) eqn:E.
    + apply andb_true_iff in E as [He Hw]. intros _.
      split; [by apply ends_x80_nonempty | done].
    + rewrite app_nil_l. intros Hh.
      destruct r as [|c r']; [done|]. injection Hh as ->.
      by destruct Hr.
Qed.

Lemma seam_pass3 (l m r : jsstring) :
  left_plain l → markers m → no_sentinel_first r →
  replace_g re_collapse (l ++ after_pass2 m r ++ r)
  = replace_g re_collapse l ++ after_pass3 l m r ++ replace_g re_collapse r.
Proof.
  intros Hl Hm Hr. unfold after_pass3.
  destruct (last_word l && nonempty m && negb (existsb is_x81 m)
            && head_word r) eqn:E.
  - apply andb_true_iff in E as [E Hw].
    apply andb_true_iff in E as [E Hx%negb_true_iff].
    apply andb_true_iff in E as [Hlw Hne].
    unfold after_pass2.
    rewrite (filter_x81_nil m Hx), (ends_x80_no_x81 m Hm Hne Hx), Hw.
    rewrite app_nil_l. change ([x80] ++ r) with (x80 :: r).
    change ([x81] ++ replace_g re_collapse r)
      with (x81 :: replace_g re_collapse r).
    apply pass3_join. unfold last_word in Hlw.
    destruct (last l) as [c|] eqn:El; [|done].
    apply last_Some in El as [l0 ->]. by exists l0, c.
  - destruct (left_plain_cases l Hl) as [->|(l0 & c & -> & [Hc _])].
    { rewrite !app_nil_l. by apply seam_pass3_right. }
    rewrite replace_g_app; [by rewrite (seam_pass3_right m r)| | |].
    + apply re_collapse_bounded.
    + done.
    + apply re_collapse_insulated_seam; [done|].
      destruct (is_word c) eqn:Hw; [right | by left].
      intros Hh. destruct (head_after_pass2 m r Hr Hh) as (H1 & H2 & H3).
      unfold last_word in E. rewrite last_snoc in E.
      by rewrite Hw, H1, H2, H3 in E.
Qed.

(** *** Pass 4 *)

Lemma seam_pass4_right (m r : jsstring) :
  markers m →
  replace_g re_x80 (m ++ r) = List.filter is_x81 m ++ replace_g re_x80 r.
Proof.
  induction 1 as [|s m Hs Hm IH]; [done|].
  change ((s :: m) ++ r) with (s :: m ++ r).
  destruct Hs as [-> | ->].
  - rewrite replace_g_drop; [|done|done]. by rewrite IH.
  - rewrite replace_g_copy; [|done|done]. by rewrite IH.
Qed.

Lemma seam_pass4 (l m r : jsstring) :
  markers m →
  replace_g re_x80 (l ++ m ++ r)
  = replace_g re_x80 l ++ List.filter is_x81 m ++ replace_g re_x80 r.
Proof.
  intros Hm.
  rewrite replace_g_app
    by auto using re_x80_bounded, start_free_re_x80, re_x80_insulated.
  by rewrite (seam_pass4_right m r Hm).
Qed.

Lemma after_pass2_markers (m r : jsstring) : markers (after_pass2 m r).
Proof.
  unfold after_pass2, markers. apply Forall_app. split.
  - eapply Forall_impl; [apply filter_x81_all|]. intros c ->. by right.
  - destruct (_ && _); [|constructor].
    apply List.Forall_cons; [by left | constructor].
Qed.

Lemma after_pass3_markers (l m r : jsstring) : markers (after_pass3 l m r).
Proof.
  unfold after_pass3. destruct (_ && _); [|apply after_pass2_markers].
  apply List.Forall_cons; [by right | constructor].
Qed.

Lemma filter_x81_idem (m : jsstring) :
  List.filter is_x81 (List.filter is_x81 m) = List.filter is_x81 m.
Proof.
  induction m as [|c m IH]; [done|]. simpl.
  destruct (is_x81 c) eqn:E; [|done]. simpl. by rewrite E, IH.
Qed.

Lemma after_pass4_all (l m r : jsstring) :
  Forall (λ c, c = x81) (after_pass4 l m r).
Proof. apply filter_x81_all. Qed.

(** The 0x81 that stand between the two parts after pass 4 are those
    of the run, or one for a run of 0x80 between two word
    characters. *)
Lemma after_pass4_value (l m r : jsstring) :
  after_pass4 l m r
  = if last_word l && nonempty m && negb (existsb is_x81 m) && head_word r
    then [x81] else List.filter is_x81 m.
Proof.
  unfold after_pass4, after_pass3.
  destruct (last_word l && nonempty m && negb (existsb is_x81 m)
            && head_word r); [done|].
  unfold after_pass2. rewrite List.filter_app, filter_x81_idem.
  replace (List.filter is_x81
             (if ends_x80 m && head_word r then [x80] else []))
    with (@nil Z) by (by destruct (ends_x80 m && head_word r)).
  by rewrite app_nil_r.
Qed.

Lemma after_pass4_nonempty (l m r : jsstring) :
  nonempty (after_pass4 l m r)
  = existsb is_x81 m || (nonempty m && last_word l && head_word r).
Proof.
  rewrite after_pass4_value.
  destruct (existsb is_x81 m) eqn:Ex.
  - rewrite andb_false_r. simpl. by rewrite filter_x81_cons.
  - rewrite filter_x81_nil by done. simpl. rewrite andb_true_r.
    by destruct (nonempty m), (last_word l), (head_word r).
Qed.

Lemma after_pass4_ends (l l' m r r' : jsstring) :
  last l' = last l → head r' = head r →
  after_pass4 l' m r' = after_pass4 l m r.
Proof.
  intros El Er. rewrite !after_pass4_value.
  destruct (same_last l l' El) as (_ & _ & -> & _).
  by destruct (same_head r r' Er) as (_ & _ & -> & _).
Qed.

(** *** The first four passes *)

Lemma first_passes_seam (l m r : jsstring) :
  left_plain l → markers m → no_sentinel_first r → no_dash_across l m r →
  first_passes (l ++ m ++ r)
  = first_passes l ++ after_pass4 l m r ++ first_passes r.
Proof.
  intros Hl Hm Hr Hdash. unfold first_passes.
  rewrite seam_pass1 by done.
  destruct (pass1_ends l r Hl Hr) as (El1 & Er1).
  set (l1 := replace_g re_dash l) in *.
  set (r1 := replace_g re_dash r) in *.
  assert (Hl1 : left_plain l1) by (by apply (same_last l l1 El1)).
  assert (Hr1 : no_sentinel_first r1) by (by apply (same_head r r1 Er1)).
  rewrite seam_pass2 by done.
  destruct (pass2_ends l1 r1 Hl1 Hr1) as (El2 & Er2).
  set (l2 := replace_g re_x80_not_before_word l1) in *.
  set (r2 := replace_g re_x80_not_before_word r1) in *.
  assert (Hl2 : left_plain l2) by (by apply (same_last l1 l2 El2)).
  assert (Hr2 : no_sentinel_first r2) by (by apply (same_head r1 r2 Er2)).
  replace (after_pass2 m r1) with (after_pass2 m r2)
    by (unfold after_pass2; by destruct (same_head r1 r2 Er2) as (_ & _ & -> & _)).
  rewrite seam_pass3 by done.
  rewrite seam_pass4 by apply after_pass3_markers.
  fold (after_pass4 l2 m r2).
  rewrite (after_pass4_ends l l2 m r r2) by congruence.
  done.
Qed.

Lemma first_passes_ends (l r : jsstring) :
  left_plain l → no_sentinel_first r →
  last (first_passes l) = last l ∧ head (first_passes r) = head r.
Proof.
  intros Hl Hr. unfold first_passes.
  destruct (pass1_ends l r Hl Hr) as (El1 & Er1).
  set (l1 := replace_g re_dash l) in *.
  set (r1 := replace_g re_dash r) in *.
  assert (Hl1 : left_plain l1) by (by apply (same_last l l1 El1)).
  assert (Hr1 : no_sentinel_first r1) by (by apply (same_head r r1 Er1)).
  destruct (pass2_ends l1 r1 Hl1 Hr1) as (El2 & Er2).
  set (l2 := replace_g re_x80_not_before_word l1) in *.
  set (r2 := replace_g re_x80_not_before_word r1) in *.
  assert (Hl2 : left_plain l2) by (by apply (same_last l1 l2 El2)).
  assert (Hr2 : no_sentinel_first r2) by (by apply (same_head r1 r2 Er2)).
  destruct (pass3_ends l2 r2 Hl2 Hr2) as (El3 & Er3).
  set (l3 := replace_g re_collapse l2) in *.
  set (r3 := replace_g re_collapse r2) in *.
  assert (Hl3 : left_plain l3) by (by apply (same_last l2 l3 El3)).
  assert (Hr3 : no_sentinel_first r3) by (by apply (same_head r2 r3 Er3)).
  destruct (pass4_ends l3 r3 Hl3 Hr3) as (El4 & Er4).
  split; congruence.
Qed.

(** *** Runs of 0x81 *)

Lemma run_x81_prefix (x r : jsstring) :
  Forall (λ c, c = x81) x → head_x81_free r →
  run is_x81 (x ++ r) = length x.
Proof.
  intros Hx Hr. induction Hx as [|c x -> Hx IH]; simpl.
  - destruct r as [|d r']; [done|]. simpl in *.
    assert (Hd : is_x81 d = false) by (by apply Z.eqb_neq).
    by rewrite Hd.
  - by rewrite IH.
Qed.

Lemma replace_go_skip_prefix m (x r : jsstring) :
  replace_go m false (length x) (x ++ r) = replace_go m false 0 r.
Proof. induction x as [|c x IH]; [done|]. simpl. apply IH. Qed.

Lemma replace_go_copy_prefix_false m (e tail : jsstring) :
  (∀ e1 c e2, e = e1 ++ c :: e2 → m false (c :: e2 ++ tail) = None) →
  replace_go m false 0 (e ++ tail) = e ++ replace_go m false 0 tail.
Proof.
  induction e as [|c e IH]; intros Hno; [done|].
  change ((c :: e) ++ tail) with (c :: e ++ tail).
  rewrite replace_go_cons_none by (by apply (Hno [] c e)).
  rewrite IH; [done|].
  intros e1 c' e2 ->. by apply (Hno (c :: e1) c' e2).
Qed.

(** *** Pass 5 *)

Lemma re_edges_not_at start c t : c ≠ x81 → re_edges start (c :: t) = None.
Proof.
  intros Hc. assert (Hc' : is_x81 c = false) by (by apply Z.eqb_neq).
  unfold re_edges. simpl run. rewrite Hc'. simpl. by rewrite andb_false_r.
Qed.

Lemma re_edges_any_start (r : jsstring) :
  head_x81_free r → replace_go re_edges false 0 r = replace_g re_edges r.
Proof.
  destruct r as [|c r']; [done|]. intros Hc. simpl in Hc.
  unfold replace_g.
  by rewrite !replace_go_cons_none by (by apply re_edges_not_at).
Qed.

Lemma re_edges_insulated_seam l c rest :
  c ≠ x81 → insulated re_edges (l ++ [c]) rest.
Proof.
  intros Hc start t Hne [t0 ->]%suffix_snoc_inv; [|done].
  assert (Hc' : is_x81 c = false) by (by apply Z.eqb_neq).
  unfold re_edges.
  pose proof (run_snoc_le is_x81 t0 c Hc') as Hle.
  rewrite <- app_assoc. simpl app.
  rewrite (run_snoc_stop is_x81 t0 rest c) by done.
  destruct (start && _); [done|].
  rewrite !length_app. simpl length.
  rewrite !(proj2 (Nat.eqb_neq _ _)) by lia. done.
Qed.

Lemma seam_pass5 (l x r : jsstring) :
  left_plain l → head_x81_free r → Forall (λ c, c = x81) x →
  replace_g re_edges (l ++ x ++ r)
  = replace_g re_edges l ++ (if nonempty l && nonempty r then x else [])
    ++ replace_g re_edges r.
Proof.
  intros Hl Hfree Hx.
  destruct (left_plain_cases l Hl) as [->|(l0 & c & -> & [_ Hc])].
  - rewrite !app_nil_l. simpl.
    destruct x as [|c x']; [done|].
    apply Forall_cons in Hx as [-> Hx'].
    unfold replace_g at 1. change ((x81 :: x') ++ r) with (x81 :: x' ++ r).
    rewrite (replace_go_cons_some re_edges true x81 (x' ++ r)
               (S (length x')) []).
    + simpl. rewrite replace_go_skip_prefix. by apply re_edges_any_start.
    + unfold re_edges.
      change (x81 :: x' ++ r) with ((x81 :: x') ++ r).
      rewrite run_x81_prefix; [done| |done].
      by apply List.Forall_cons.
  - unfold replace_g at 1.
    rewrite replace_go_app; [| |by apply re_edges_insulated_seam|simpl; lia].
    2:{ apply re_edges_bounded. }
    replace (bool_decide (l0 ++ [c] = [])) with false
      by (symmetry; apply bool_decide_eq_false; by destruct l0).
    rewrite andb_false_r. fold (replace_g re_edges (l0 ++ [c])). f_equal.
    replace (nonempty (l0 ++ [c])) with true by (by destruct l0).
    rewrite andb_true_l.
    destruct r as [|c' b0].
    + simpl nonempty. cbv iota. rewrite app_nil_r. simpl.
      destruct x as [|d x']; [done|].
      apply Forall_cons in Hx as [-> Hx'].
      rewrite (replace_go_cons_some re_edges false x81 x' (S (length x')) []).
      * simpl. by rewrite replace_go_skip_all.
      * unfold re_edges.
        pose proof (run_x81_prefix (x81 :: x') []) as Hrun.
        rewrite app_nil_r in Hrun. rewrite Hrun; [|by apply List.Forall_cons|done].
        simpl. by rewrite Nat.eqb_refl.
    + simpl nonempty. cbv iota.
      rewrite replace_go_copy_prefix_false.
      * by rewrite re_edges_any_start.
      * intros e1 d e2 ->.
        apply Forall_app in Hx as [_ Hx].
        unfold re_edges.
        change (d :: e2 ++ c' :: b0) with ((d :: e2) ++ c' :: b0).
        rewrite run_x81_prefix by done.
        rewrite length_app.
        replace (length (d :: e2) =? _)%nat with false
          by (symmetry; apply Nat.eqb_neq; simpl; lia).
        by rewrite andb_false_r.
Qed.

(** *** Pass 6 *)

Lemma re_x81_space_x81_insulated_seam l c rest :
  c ≠ x81 → c ≠ 0x20 → insulated re_x81_space_x81 (l ++ [c]) rest.
Proof.
  intros Hc Hsp start t Hne [t0 ->]%suffix_snoc_inv; [|done].
  unfold re_x81_space_x81.
  destruct t0 as [|a [|b t0]]; simpl.
  - rewrite (proj2 (Z.eqb_neq c x81) Hc).
    by destruct rest as [|e [|f rest]].
  - rewrite (proj2 (Z.eqb_neq c 0x20) Hsp).
    destruct rest as [|e rest]; [done|]. by rewrite !andb_false_r.
  - by destruct t0.
Qed.

Lemma not_space_not_0x20 c : is_space c = false → c ≠ 0x20.
Proof. intros H ->. done. Qed.

Lemma seam_pass6_right (x r : jsstring) :
  right_part r → Forall (λ c, c = x81) x →
  replace_g re_x81_space_x81 (x ++ r) = x ++ replace_g re_x81_space_x81 r.
Proof.
  intros Hr Hx. apply replace_g_copy_prefix; [done|].
  intros start e1 c e2 ->.
  apply Forall_app in Hx as [_ Hx]. apply Forall_cons in Hx as [-> Hx].
  unfold re_x81_space_x81.
  destruct e2 as [|d e2].
  - rewrite app_nil_l.
    destruct r as [|c' [|d b1]]; try done.
    destruct Hr as [_ Hr].
    destruct (c' =? 0x20) eqn:Ec; [|falsify].
    apply Z.eqb_eq in Ec as ->. specialize (Hr eq_refl). simpl in Hr.
    destruct Hr as [_ Hd]. rewrite (proj2 (Z.eqb_neq d x81) Hd). falsify.
  - apply Forall_cons in Hx as [-> _].
    change ((x81 :: e2) ++ r) with (x81 :: e2 ++ r).
    by destruct (e2 ++ r).
Qed.

Lemma seam_pass6 (l x r : jsstring) :
  left_part l → right_part r → Forall (λ c, c = x81) x →
  replace_g re_x81_space_x81 (l ++ x ++ r)
  = replace_g re_x81_space_x81 l ++ x ++ replace_g re_x81_space_x81 r.
Proof.
  intros Hl Hr Hx.
  destruct (left_part_cases l Hl) as [->|(l0 & c & -> & [_ Hc] & Hsp)].
  { rewrite !app_nil_l. by apply seam_pass6_right. }
  rewrite replace_g_app; [by rewrite (seam_pass6_right x r Hr Hx)| | |].
  - apply re_x81_space_x81_bounded.
  - done.
  - apply re_x81_space_x81_insulated_seam; [done|].
    by apply not_space_not_0x20.
Qed.

(** *** Pass 7 *)

Lemma re_x81_run_insulated_seam l c rest :
  c ≠ x81 → is_space c = false → insulated re_x81_run (l ++ [c]) rest.
Proof.
  intros Hc Hsp start t Hne [t0 ->]%suffix_snoc_inv; [|done].
  assert (Hc' : is_x81 c = false) by (by apply Z.eqb_neq).
  unfold re_x81_run. rewrite <- app_assoc. simpl app.
  destruct t0 as [|d t0].
  - simpl. by rewrite Hc', Hsp.
  - rewrite <- !app_comm_cons.
    rewrite (run_snoc_stop is_x81 t0 rest c) by done.
    change (d :: t0 ++ c :: rest) with ((d :: t0) ++ c :: rest).
    by rewrite (run_snoc_stop is_x81 (d :: t0) rest c) by done.
Qed.

Lemma seam_pass7_right (x r : jsstring) :
  head_x81_free r → Forall (λ c, c = x81) x →
  replace_g re_x81_run (x ++ r)
  = (if nonempty x then lit " " else []) ++ replace_g re_x81_run r.
Proof.
  intros Hfree Hx.
  destruct x as [|c x']; [done|].
  apply Forall_cons in Hx as [-> Hx'].
  unfold replace_g at 1. change ((x81 :: x') ++ r) with (x81 :: x' ++ r).
  rewrite (replace_go_cons_some re_x81_run true x81 (x' ++ r)
             (S (length x')) (lit " ")).
  - simpl Nat.pred. rewrite replace_go_skip_prefix.
    by rewrite <- (replace_go_start_free re_x81_run 0 r start_free_re_x81_run).
  - unfold re_x81_run. change (is_space x81) with false. rewrite andb_false_l.
    change (x81 :: x' ++ r) with ((x81 :: x') ++ r).
    rewrite run_x81_prefix; [done| |done].
    by apply List.Forall_cons.
Qed.

Lemma seam_pass7 (l x r : jsstring) :
  left_part l → head_x81_free r → Forall (λ c, c = x81) x →
  replace_g re_x81_run (l ++ x ++ r)
  = replace_g re_x81_run l ++ (if nonempty x then lit " " else [])
    ++ replace_g re_x81_run r.
Proof.
  intros Hl Hr Hx.
  destruct (left_part_cases l Hl) as [->|(l0 & c & -> & [_ Hc] & Hsp)].
  { rewrite !app_nil_l. by apply seam_pass7_right. }
  rewrite replace_g_app; [by rewrite (seam_pass7_right x r Hr Hx)| | |].
  - apply re_x81_run_bounded.
  - done.
  - by apply re_x81_run_insulated_seam.
Qed.

(** *** The last three passes *)

Lemma last_passes_seam (u x v : jsstring) :
  left_part u → Forall (λ c, c = x81) x → no_sentinel_first v →
  right_part (replace_g re_edges v) →
  last_passes (u ++ x ++ v)
  = last_passes u ++ gap u x v ++ last_passes v.
Proof.
  intros Hu Hx Hv Hv5. unfold last_passes.
  pose proof (left_part_plain u Hu) as Hup.
  rewrite seam_pass5 by auto using no_sentinel_first_x81_free.
  destruct (pass5_ends u v Hup Hv) as (Eu5 & Ev5).
  set (u5 := replace_g re_edges u) in *.
  set (v5 := replace_g re_edges v) in *.
  assert (Hu5 : left_part u5) by (by apply (same_last u u5 Eu5)).
  assert (Hv5' : no_sentinel_first v5) by (by apply (same_head v v5 Ev5)).
  set (x5 := if nonempty u && nonempty v then x else []).
  assert (Hx5 : Forall (λ c, c = x81) x5).
  { unfold x5. destruct (nonempty u && nonempty v); [exact Hx | constructor]. }
  rewrite seam_pass6 by done.
  destruct (pass6_ends u5 v5 (left_part_plain u5 Hu5) Hv5') as (Eu6 & Ev6).
  set (u6 := replace_g re_x81_space_x81 u5) in *.
  set (v6 := replace_g re_x81_space_x81 v5) in *.
  assert (Hu6 : left_part u6) by (by apply (same_last u5 u6 Eu6)).
  assert (Hv6 : head_x81_free v6).
  { apply (same_head v5 v6 Ev6). by apply no_sentinel_first_x81_free. }
  rewrite seam_pass7 by done.
  f_equal. f_equal. unfold gap, x5.
  by destruct (nonempty u), (nonempty v), x.
Qed.

(** *** A space followed by a second run of 0x81 *)

Lemma re_x81_space_x81_not_at start c t :
  c ≠ x81 → re_x81_space_x81 start (c :: t) = None.
Proof.
  intros Hc. unfold re_x81_space_x81. destruct t as [|b [|d t]]; try done.
  by rewrite (proj2 (Z.eqb_neq c x81) Hc).
Qed.

Lemma head_not_space_right_part w :
  no_sentinel_first w → head w ≠ Some 0x20 → right_part w.
Proof.
  destruct w as [|d w']; [done|]. simpl. intros Hd Hsp.
  split; [done|]. intros ->. done.
Qed.

Lemma pass6_space_plain (u x3 w : jsstring) :
  left_part u → Forall (λ c, c = x81) x3 → right_part w →
  replace_g re_x81_space_x81 (u ++ 0x20 :: x3 ++ w)
  = replace_g re_x81_space_x81 u ++ 0x20 :: x3
    ++ replace_g re_x81_space_x81 w.
Proof.
  intros Hu Hx3 Hw.
  assert (Hright : replace_g re_x81_space_x81 (0x20 :: x3 ++ w)
                   = 0x20 :: x3 ++ replace_g re_x81_space_x81 w).
  { rewrite replace_g_copy; [|done|by apply re_x81_space_x81_not_at].
    by rewrite seam_pass6_right. }
  destruct (left_part_cases u Hu) as [->|(u0 & c & -> & [_ Hc] & Hsp)].
  { by rewrite !app_nil_l. }
  rewrite replace_g_app; [by rewrite Hright| | |].
  - apply re_x81_space_x81_bounded.
  - done.
  - apply re_x81_space_x81_insulated_seam; [done|].
    by apply not_space_not_0x20.
Qed.

Lemma pass6_space_match (u x' x3' w : jsstring) :
  left_part u → Forall (λ c, c = x81) x' → Forall (λ c, c = x81) x3' →
  right_part w →
  replace_g re_x81_space_x81 (u ++ x' ++ x81 :: 0x20 :: x81 :: x3' ++ w)
  = replace_g re_x81_space_x81 u ++ x' ++ 0x20 :: 0x20 :: x3'
    ++ replace_g re_x81_space_x81 w.
Proof.
  intros Hu Hx' Hx3' Hw.
  assert (Hmatch : replace_g re_x81_space_x81
                     (x81 :: 0x20 :: x81 :: x3' ++ w)
                   = 0x20 :: 0x20 :: x3' ++ replace_g re_x81_space_x81 w).
  { unfold replace_g at 1.
    rewrite (replace_go_cons_some re_x81_space_x81 true x81
               (0x20 :: x81 :: x3' ++ w) 3 (lit "  ")) by done.
    simpl Nat.pred.
    change (0x20 :: x81 :: x3' ++ w) with ([0x20; x81] ++ x3' ++ w).
    rewrite (replace_go_skip_prefix re_x81_space_x81 [0x20; x81]).
    rewrite <- (replace_go_start_free re_x81_space_x81 0 (x3' ++ w)
                  start_free_re_x81_space_x81).
    fold (replace_g re_x81_space_x81 (x3' ++ w)).
    by rewrite seam_pass6_right. }
  assert (Hright : replace_g re_x81_space_x81
                     (x' ++ x81 :: 0x20 :: x81 :: x3' ++ w)
                   = x' ++ 0x20 :: 0x20 :: x3'
                     ++ replace_g re_x81_space_x81 w).
  { rewrite replace_g_copy_prefix; [by rewrite Hmatch|done|].
    intros start e1 c e2 ->.
    apply Forall_app in Hx' as [_ Hx']. apply Forall_cons in Hx' as [-> Hx'].
    unfold re_x81_space_x81.
    destruct e2 as [|d e2]; [done|].
    apply Forall_cons in Hx' as [-> _].
    change ((x81 :: e2) ++ x81 :: 0x20 :: x81 :: x3' ++ w)
      with (x81 :: e2 ++ x81 :: 0x20 :: x81 :: x3' ++ w).
    by destruct (e2 ++ x81 :: 0x20 :: x81 :: x3' ++ w). }
  destruct (left_part_cases u Hu) as [->|(u0 & c & -> & [_ Hc] & Hsp)].
  { by rewrite !app_nil_l. }
  rewrite replace_g_app; [by rewrite Hright| | |].
  - apply re_x81_space_x81_bounded.
  - done.
  - apply re_x81_space_x81_insulated_seam; [done|].
    by apply not_space_not_0x20.
Qed.

Lemma pass7_space_run (y w : jsstring) :
  Forall (λ c, c = x81) y → head_x81_free w →
  replace_g re_x81_run (0x20 :: y ++ w) = 0x20 :: replace_g re_x81_run w.
Proof.
  intros Hy Hw. destruct y as [|c y'].
  - rewrite app_nil_l. apply replace_g_copy; [done|].
    unfold re_x81_run.
    pose proof (run_x81_prefix [] w (Forall_nil_2 _) Hw) as Hrun.
    rewrite app_nil_l in Hrun. simpl run. rewrite Hrun. done.
  - unfold replace_g at 1.
    rewrite (replace_go_cons_some re_x81_run true 0x20 ((c :: y') ++ w)
               (S (length (c :: y'))) (lit " ")).
    + change (Nat.pred (S (length (c :: y')))) with (length (c :: y')).
      rewrite (replace_go_skip_prefix re_x81_run (c :: y') w).
      by rewrite <- (replace_go_start_free re_x81_run 0 w
                       start_free_re_x81_run).
    + unfold re_x81_run. rewrite run_x81_prefix by done.
      done.
Qed.

Lemma pass7_space_space (y w : jsstring) :
  Forall (λ c, c = x81) y → head_x81_free w →
  replace_g re_x81_run (0x20 :: 0x20 :: y ++ w)
  = 0x20 :: 0x20 :: replace_g re_x81_run w.
Proof.
  intros Hy Hw. rewrite replace_g_copy; [|done|done].
  by rewrite pass7_space_run.
Qed.

Lemma last_passes_space (u x x3 w : jsstring) :
  left_part u → Forall (λ c, c = x81) x → Forall (λ c, c = x81) x3 →
  x3 ≠ [] → no_sentinel_first w → w ≠ [] → head w ≠ Some 0x20 →
  last_passes (u ++ x ++ 0x20 :: x3 ++ w)
  = last_passes u ++ gap_before_space u x ++ 0x20 :: last_passes w.
Proof.
  intros Hu Hx Hx3 Hne3 Hw Hnew Hsp. unfold last_passes.
  pose proof (left_part_plain u Hu) as Hup.
  (* pass 5 *)
  rewrite seam_pass5 by done.
  change (0x20 :: x3 ++ w) with ([0x20] ++ x3 ++ w).
  rewrite (seam_pass5 [0x20] x3 w)
    by (done || by apply no_sentinel_first_x81_free).
  change (replace_g re_edges [0x20]) with [0x20].
  replace (nonempty ([0x20] ++ x3 ++ w)) with true by done.
  replace (nonempty [0x20] && nonempty w) with true by (by destruct w).
  rewrite andb_true_r.
  change ([0x20] ++ x3 ++ replace_g re_edges w)
    with (0x20 :: x3 ++ replace_g re_edges w).
  destruct (pass5_ends u w Hup Hw) as (Eu5 & Ew5).
  set (u5 := replace_g re_edges u) in *.
  set (w5 := replace_g re_edges w) in *.
  assert (Hu5 : left_part u5) by (by apply (same_last u u5 Eu5)).
  assert (Hw5 : no_sentinel_first w5) by (by apply (same_head w w5 Ew5)).
  assert (Hr5 : right_part w5).
  { apply head_not_space_right_part; [done | by rewrite Ew5]. }
  destruct (pass6_ends u5 w5 (left_part_plain u5 Hu5) Hw5) as (Eu6 & Ew6).
  assert (Hu6 : left_part (replace_g re_x81_space_x81 u5))
    by (by apply (same_last u5 _ Eu6)).
  assert (Hw6 : head_x81_free (replace_g re_x81_space_x81 w5)).
  { apply (same_head w5 _ Ew6). by apply no_sentinel_first_x81_free. }
  assert (Hplain :
    replace_g re_x81_run
      (replace_g re_x81_space_x81 (u5 ++ [] ++ 0x20 :: x3 ++ w5))
    = replace_g re_x81_run (replace_g re_x81_space_x81 u5)
      ++ [] ++ 0x20
      :: replace_g re_x81_run (replace_g re_x81_space_x81 w5)).
  { rewrite app_nil_l.
    rewrite pass6_space_plain by done.
    set (u6 := replace_g re_x81_space_x81 u5) in *.
    set (w6 := replace_g re_x81_space_x81 w5) in *.
    rewrite <- (app_nil_l (0x20 :: x3 ++ w6)).
    rewrite (seam_pass7 u6 [] (0x20 :: x3 ++ w6)) by done.
    by rewrite pass7_space_run. }
  unfold gap_before_space.
  destruct (nonempty u) eqn:Enu; [|exact Hplain].
  destruct x as [|c1 x1]; [exact Hplain|]. clear Hplain.
  (* pass 6 makes two spaces *)
  destruct (exists_last (l := c1 :: x1) ltac:(done)) as (x' & cl & Ex).
  assert (Hlen : length (c1 :: x1) = S (length x'))
    by (rewrite Ex, length_app; simpl; lia).
  rewrite Ex in Hx |- *.
  apply Forall_app in Hx as [Hx' Hcl].
  apply Forall_cons in Hcl as [-> _].
  destruct x3 as [|c3 x3']; [done|].
  apply Forall_cons in Hx3 as [-> Hx3'].
  rewrite <- (app_assoc x' [x81]).
  change ([x81] ++ 0x20 :: (x81 :: x3') ++ w5)
    with (x81 :: 0x20 :: x81 :: x3' ++ w5).
  rewrite pass6_space_match by done.
  set (u6 := replace_g re_x81_space_x81 u5) in *.
  set (w6 := replace_g re_x81_space_x81 w5) in *.
  rewrite (seam_pass7 u6 x' (0x20 :: 0x20 :: x3' ++ w6)) by done.
  rewrite pass7_space_space by done.
  f_equal.
  destruct x1 as [|c2 x2].
  - destruct x' as [|? ?]; [done | simpl in Hlen; lia].
  - destruct x' as [|? ?]; [simpl in Hlen; lia | done].
Qed.

(** *** The seven passes over a run of sentinels between two parts *)

Lemma existsb_x81_elem (m : jsstring) : existsb is_x81 m = true ↔ x81 ∈ m.
Proof.
  rewrite existsb_exists. split.
  - intros (c & Hc%list_elem_of_In & ->%is_x81_true). done.
  - intros H. exists x81. split; [by apply list_elem_of_In | done].
Qed.

Lemma resolve_split (s : jsstring) :
  resolveSpacing s = last_passes (first_passes s).
Proof. done. Qed.

Lemma resolve_seam (l m r : jsstring) :
  left_part l → markers m → no_sentinel_first r → no_dash_across l m r →
  right_part (replace_g re_edges (first_passes r)) →
  resolveSpacing (l ++ m ++ r)
  = resolveSpacing l
    ++ (if nonempty (after_pass4 l m r) && nonempty l && nonempty r
        then lit " " else [])
    ++ resolveSpacing r.
Proof.
  intros Hl Hm Hr Hdash Hr5. rewrite !resolve_split.
  pose proof (left_part_plain l Hl) as Hlp.
  rewrite first_passes_seam by done.
  destruct (first_passes_ends l r Hlp Hr) as (El & Er).
  rewrite last_passes_seam.
  - unfold gap.
    destruct (same_last l (first_passes l) El) as (_ & _ & _ & ->).
    by destruct (same_head r (first_passes r) Er) as (_ & _ & _ & ->).
  - by apply (same_last l (first_passes l) El).
  - apply after_pass4_all.
  - by apply (same_head r (first_passes r) Er).
  - done.
Qed.

(** What follows the run starts with a unit that is no space. *)
Lemma right_part_after_passes (r : jsstring) :
  no_sentinel_first r → head r ≠ Some 0x20 →
  right_part (replace_g re_edges (first_passes r)).
Proof.
  intros Hr Hsp.
  destruct (first_passes_ends [] r I Hr) as (_ & E4).
  assert (H4 : no_sentinel_first (first_passes r))
    by (by apply (same_head r _ E4)).
  destruct (pass5_ends [] (first_passes r) I H4) as (_ & E5).
  apply head_not_space_right_part.
  - by apply (same_head (first_passes r) _ E5).
  - congruence.
Qed.

(** The first four passes on a space, a run of sentinels and what
    follows it. *)
Lemma first_passes_space (m3 w : jsstring) :
  markers m3 → no_sentinel_first w →
  first_passes (0x20 :: m3 ++ w)
  = 0x20 :: List.filter is_x81 m3 ++ first_passes w.
Proof.
  intros Hm3 Hw. change (0x20 :: m3 ++ w) with ([0x20] ++ m3 ++ w).
  rewrite first_passes_seam; [|done|done|done|].
  - by rewrite after_pass4_value.
  - right. right. right. split; [done | by right].
Qed.

(** What follows the run starts with a space, and the sentinels after
    it hold no 0x81, or end the string. *)
Lemma right_part_after_space (m3 w : jsstring) :
  markers m3 → no_sentinel_first w → ¬ (x81 ∈ m3) ∨ w = [] →
  right_part (replace_g re_edges (first_passes (0x20 :: m3 ++ w))).
Proof.
  intros Hm3 Hw Hcase. rewrite first_passes_space by done.
  destruct (first_passes_ends [] w I Hw) as (_ & E4).
  assert (H4 : no_sentinel_first (first_passes w))
    by (by apply (same_head w _ E4)).
  destruct (pass5_ends [] (first_passes w) I H4) as (_ & E5).
  change (0x20 :: List.filter is_x81 m3 ++ first_passes w)
    with ([0x20] ++ List.filter is_x81 m3 ++ first_passes w).
  rewrite seam_pass5;
    [|done|by apply no_sentinel_first_x81_free|apply filter_x81_all].
  change (replace_g re_edges [0x20]) with [0x20].
  assert (Hmid : (if nonempty [0x20] && nonempty (first_passes w)
                  then List.filter is_x81 m3 else []) = []).
  { destruct Hcase as [Hx | ->].
    - rewrite filter_x81_nil; [by destruct (_ && _)|].
      destruct (existsb is_x81 m3) eqn:E; [|done].
      by apply existsb_x81_elem in E.
    - done. }
  rewrite Hmid, app_nil_l. simpl. split; [done|]. intros _.
  by apply (same_head (first_passes w) _ E5).
Qed.

Lemma resolve_seam_space (l m m3 w : jsstring) :
  left_part l → markers m → markers m3 → (x81 ∈ m3) →
  no_sentinel_first w → w ≠ [] → head w ≠ Some 0x20 →
  existsb is_x81 m = true ∨ l = [] ∨ last l ≠ Some 0x2D →
  resolveSpacing (l ++ m ++ 0x20 :: m3 ++ w)
  = resolveSpacing l ++ gap_before_space l (List.filter is_x81 m)
    ++ 0x20 :: resolveSpacing w.
Proof.
  intros Hl Hm Hm3 Hx3 Hw Hne Hsp Hdash. rewrite !resolve_split.
  pose proof (left_part_plain l Hl) as Hlp.
  rewrite first_passes_seam; [|done|done|done|].
  2:{ destruct Hdash as [H|[H|H]]; [by left | by right; left |].
      right. right. right. split; [done | by left]. }
  rewrite first_passes_space by done.
  rewrite after_pass4_value. simpl head_word. rewrite andb_false_r.
  destruct (first_passes_ends l w Hlp Hw) as (El & Ew).
  rewrite last_passes_space.
  - unfold gap_before_space.
    by destruct (same_last l (first_passes l) El) as (_ & _ & _ & ->).
  - by apply (same_last l (first_passes l) El).
  - apply filter_x81_all.
  - apply filter_x81_all.
  - apply nonempty_true, filter_x81_cons. by apply existsb_x81_elem.
  - by apply (same_head w (first_passes w) Ew).
  - apply nonempty_true.
    destruct (same_head w (first_passes w) Ew) as (_ & _ & _ & ->).
    by apply nonempty_true.
  - congruence.
Qed.

Lemma resolve_left (l m1 : jsstring) :
  left_part l → markers m1 → resolveSpacing (l ++ m1) = resolveSpacing l.
Proof.
  intros Hl Hm1. rewrite <- (app_nil_r (l ++ m1)), <- app_assoc.
  rewrite resolve_seam; [|done|done|done|by right; right; left|done].
  simpl nonempty. rewrite andb_false_r. by rewrite !app_nil_r.
Qed.

Lemma resolve_right (m2 r : jsstring) :
  markers m2 → no_sentinel_first r →
  right_part (replace_g re_edges (first_passes r)) →
  resolveSpacing (m2 ++ r) = resolveSpacing r.
Proof.
  intros Hm2 Hr Hr5. rewrite <- (app_nil_l (m2 ++ r)).
  rewrite resolve_seam; [|done|done|done|by right; left|done].
  simpl nonempty. by rewrite andb_false_r.
Qed.

(** Joining with one space, with nothing or with two are three
    different results. *)
Lemma joined_by_one_space (x g y : jsstring) :
  x ++ g ++ y = x ++ lit " " ++ y ↔ g = lit " ".
Proof.
  split; [|by intros ->].
  intros H%app_inv_head. by apply app_inv_tail in H.
Qed.

(** ** Resolving a concatenation *)

(** The claim C4 read to the letter fails: the deferred outputs for
    "x" and for "y" are "x" and "y", and resolving "xy" gives "xy",
    not "x y". *)
Lemma resolve_concat_no_space_counterexample :
  (resolveSpacing (lit "x" ++ lit "y") = lit "xy"
   ∧ resolveSpacing (lit "x") ++ lit " " ++ resolveSpacing (lit "y")
     = lit "x y")
  ∧ ¬ (∀ (tables : row → option page) (sa sb : jsstring) o w wa wb a b,
         deferredSmartSpacing (prepareOptions o) = true →
         unidecode tables sa (Some o) w = (Ok a, wa) →
         unidecode tables sb (Some o) wa = (Ok b, wb) →
         resolveSpacing (a ++ b)
         = resolveSpacing a ++ lit " " ++ resolveSpacing b).
Proof.
  split; [split; reflexivity|].
  intros H.
  specialize (H (λ _, None) (lit "x") (lit "y")
                {| in_german := None; in_deferredSmartSpacing := Some true;
                   in_smartSpacing := None; in_skipRanges := None |}
                fresh fresh fresh (lit "x") (lit "y")
                eq_refl eq_refl eq_refl).
  vm_compute in H. discriminate.
Qed.

(** C4, amended. Take any two strings, deferred outputs among them,
    and look at the seam of their concatenation: [a] ends with a unit
    [c] that is no sentinel and no white space, followed by a run [m1]
    of sentinels; [b] starts with a run [m2] of sentinels followed by a
    unit [c'] that is no sentinel.

    Where [c'] is not a space, resolving the concatenation gives the
    two resolved strings joined by exactly one space whenever the seam
    holds a 0x81 (as at either end of a wrapped emoji), or holds some
    sentinel and [c] and [c'] are both word characters (as where a
    wrapped substitution abuts a word, on either side or on both);
    where neither is a hyphen, the seam adds nothing in every other
    case, so the equation of the claim holds in the cases named and
    in no other.

    Where [c'] is a space, followed by a run [m3] of sentinels and
    then by [w] (which, where [m3] holds a 0x81, does not start with
    a space), the equation holds whenever the seam holds a 0x81,
    unless it holds two or more and [m3] holds one too with [w] not
    empty (pass 6 then makes two spaces at the seam); and it holds in
    no other case.

    In particular, where neither string holds a sentinel, resolving
    the concatenation adds no space. *)
Theorem resolve_concat_at_seam :
  (∀ (a0 m1 m2 b0 : jsstring) c c',
     not_sentinel c → is_space c = false →
     not_sentinel c' → c' ≠ 0x20 →
     markers m1 → markers m2 →
     let a := a0 ++ c :: m1 in
     let b := m2 ++ c' :: b0 in
     let spaced :=
       (x81 ∈ m1 ++ m2)
       ∨ (m1 ++ m2 ≠ [] ∧ is_word c = true ∧ is_word c' = true) in
     (spaced →
      resolveSpacing (a ++ b)
      = resolveSpacing a ++ lit " " ++ resolveSpacing b)
     ∧ (c ≠ 0x2D → c' ≠ 0x2D →
        (¬ spaced →
         resolveSpacing (a ++ b) = resolveSpacing a ++ resolveSpacing b)
        ∧ (resolveSpacing (a ++ b)
           = resolveSpacing a ++ lit " " ++ resolveSpacing b
           ↔ spaced)))
  ∧ (∀ (a0 m1 m2 m3 w : jsstring) c,
       not_sentinel c → is_space c = false →
       markers m1 → markers m2 → markers m3 → no_sentinel_first w →
       ((x81 ∈ m3) → head w ≠ Some 0x20) →
       let a := a0 ++ c :: m1 in
       let b := m2 ++ 0x20 :: m3 ++ w in
       let spaced :=
         (x81 ∈ m1 ++ m2)
         ∧ ((x81 ∈ m3) → w ≠ [] →
            length (List.filter is_x81 (m1 ++ m2)) = 1%nat) in
       (spaced →
        resolveSpacing (a ++ b)
        = resolveSpacing a ++ lit " " ++ resolveSpacing b)
       ∧ ((x81 ∈ m1 ++ m2) ∨ c ≠ 0x2D →
          (resolveSpacing (a ++ b)
           = resolveSpacing a ++ lit " " ++ resolveSpacing b
           ↔ spaced)))
  ∧ (∀ a b : jsstring,
       sentinel_free a → sentinel_free b →
       resolveSpacing (a ++ b) = a ++ b
       ∧ resolveSpacing (a ++ b) = resolveSpacing a ++ resolveSpacing b).
Proof.
  split; [|split].
  - intros a0 m1 m2 b0 c c' Hc Hsp Hc' Hsp' Hm1 Hm2 a b spaced.
    set (l := a0 ++ [c]). set (r := c' :: b0).
    assert (Hl : left_part l) by (by apply left_part_snoc).
    assert (Hr : no_sentinel_first r) by done.
    assert (Hr5 : right_part (replace_g re_edges (first_passes r))).
    { apply right_part_after_passes; [done|]. simpl. congruence. }
    assert (Hm : markers (m1 ++ m2)) by (by apply Forall_app).
    assert (Ea : resolveSpacing a = resolveSpacing l).
    { replace a with (l ++ m1) by (unfold a, l; by rewrite <- app_assoc).
      by apply resolve_left. }
    assert (Eb : resolveSpacing b = resolveSpacing r)
      by (by apply resolve_right).
    set (g := if bool_decide spaced then lit " " else []).
    assert (Eab : (x81 ∈ m1 ++ m2) ∨ (c ≠ 0x2D ∧ c' ≠ 0x2D) →
                  resolveSpacing (a ++ b)
                  = resolveSpacing a ++ g ++ resolveSpacing b).
    { intros Hdash. rewrite Ea, Eb.
      replace (a ++ b) with (l ++ (m1 ++ m2) ++ r)
        by (unfold a, b, l, r; by rewrite <- !app_assoc).
      rewrite resolve_seam; [|done|done|done| |done].
      2:{ destruct Hdash as [Hx | [H1 H2]].
          - left. by apply existsb_x81_elem.
          - right. right. right. unfold l. rewrite last_snoc. simpl.
            split; [congruence | left; congruence]. }
      f_equal. f_equal. unfold g.
      rewrite after_pass4_nonempty.
      unfold last_word, l. rewrite last_snoc. simpl head_word.
      replace (nonempty (a0 ++ [c])) with true by (by destruct a0).
      simpl nonempty. rewrite !andb_true_r.
      destruct (existsb is_x81 (m1 ++ m2)) eqn:Ex.
      - apply existsb_x81_elem in Ex.
        rewrite bool_decide_eq_true_2; [done | by left].
      - assert (Hno : ¬ (x81 ∈ m1 ++ m2)).
        { intros H%existsb_x81_elem. congruence. }
        simpl orb.
        destruct (nonempty (m1 ++ m2) && is_word c && is_word c') eqn:E.
        + apply andb_true_iff in E as [E Hw'].
          apply andb_true_iff in E as [Hne%nonempty_true Hw].
          rewrite bool_decide_eq_true_2; [done | by right].
        + rewrite bool_decide_eq_false_2; [done|].
          intros [H | (Hne%nonempty_true & Hw & Hw')]; [done|].
          by rewrite Hne, Hw, Hw' in E. }
    split.
    + intros Hs. rewrite Eab.
      * unfold g. by rewrite bool_decide_eq_true_2.
      * destruct Hs as [Hx | (_ & Hw & Hw')]; [by left | right].
        split; intros ->; done.
    + intros H1 H2. rewrite Eab by (by right). split.
      * intros Hs. unfold g. by rewrite bool_decide_eq_false_2.
      * rewrite joined_by_one_space. unfold g.
        destruct (bool_decide spaced) eqn:E.
        -- by apply bool_decide_eq_true in E.
        -- by apply bool_decide_eq_false in E.
  - intros a0 m1 m2 m3 w c Hc Hsp Hm1 Hm2 Hm3 Hw Hw20 a b spaced.
    set (l := a0 ++ [c]).
    assert (Hl : left_part l) by (by apply left_part_snoc).
    assert (Hnel : nonempty l = true) by (unfold l; by destruct a0).
    assert (Hm : markers (m1 ++ m2)) by (by apply Forall_app).
    assert (Ea : resolveSpacing a = resolveSpacing l).
    { replace a with (l ++ m1) by (unfold a, l; by rewrite <- app_assoc).
      by apply resolve_left. }
    assert (Eab0 : a ++ b = l ++ (m1 ++ m2) ++ 0x20 :: m3 ++ w)
      by (unfold a, b, l; by rewrite <- !app_assoc).
    assert (Hkey : (x81 ∈ m1 ++ m2) ∨ c ≠ 0x2D →
                   ∃ g, resolveSpacing (a ++ b)
                        = resolveSpacing a ++ g ++ resolveSpacing b
                        ∧ (g = lit " " ↔ spaced)).
    { intros Hdash.
      destruct (decide ((x81 ∈ m3) ∧ w ≠ [])) as [[Hx3 Hne]|Hcase].
      - (* a second run of 0x81 after the space *)
        exists (gap_before_space l (List.filter is_x81 (m1 ++ m2))).
        assert (Eb : resolveSpacing b = 0x20 :: resolveSpacing w).
        { unfold b. rewrite <- (app_nil_l (m2 ++ _)).
          rewrite (resolve_seam_space [] m2 m3 w);
            [done|done|done|done|done|done|done|by apply Hw20
            |by right; left]. }
        split.
        + rewrite Ea, Eb, Eab0.
          rewrite (resolve_seam_space l (m1 ++ m2) m3 w);
            [done|done|done|done|done|done|done|by apply Hw20|].
          destruct Hdash as [Hx | Hd].
          * left. by apply existsb_x81_elem.
          * right. right. unfold l. rewrite last_snoc. congruence.
        + unfold gap_before_space, spaced. rewrite Hnel.
          destruct (List.filter is_x81 (m1 ++ m2)) as [|x1 [|x2 xs]] eqn:Ef.
          * split; [done|]. intros [_ H]. by specialize (H Hx3 Hne).
          * split; [|done]. intros _. split; [|done].
            apply existsb_x81_elem.
            destruct (existsb is_x81 (m1 ++ m2)) eqn:Ex; [done|].
            by rewrite filter_x81_nil in Ef.
          * split; [done|]. intros [_ H]. by specialize (H Hx3 Hne).
      - (* no second run *)
        assert (Hcase' : ¬ (x81 ∈ m3) ∨ w = []).
        { destruct (decide (x81 ∈ m3)); [|by left].
          destruct w; [by right|]. exfalso. by apply Hcase. }
        set (r := 0x20 :: m3 ++ w).
        assert (Hr5 : right_part (replace_g re_edges (first_passes r)))
          by (by apply right_part_after_space).
        assert (Eb : resolveSpacing b = resolveSpacing r)
          by (by apply resolve_right).
        exists (if bool_decide (x81 ∈ m1 ++ m2) then lit " " else []).
        split.
        + rewrite Ea, Eb, Eab0. fold r.
          rewrite resolve_seam; [|done|done|done| |done].
          2:{ destruct Hdash as [Hx | Hd].
              - left. by apply existsb_x81_elem.
              - right. right. right. unfold l. rewrite last_snoc. simpl.
                split; [congruence | by left]. }
          f_equal. f_equal. rewrite after_pass4_nonempty, Hnel.
          simpl head_word. simpl nonempty. rewrite !andb_false_r, !andb_true_r.
          rewrite orb_false_r.
          destruct (existsb is_x81 (m1 ++ m2)) eqn:Ex.
          * apply existsb_x81_elem in Ex. by rewrite bool_decide_eq_true_2.
          * rewrite bool_decide_eq_false_2; [done|].
            intros H%existsb_x81_elem. congruence.
        + unfold spaced.
          destruct (bool_decide (x81 ∈ m1 ++ m2)) eqn:E.
          * apply bool_decide_eq_true in E. split; [|done]. intros _.
            split; [done|]. intros Hx3 Hne.
            destruct Hcase' as [? | ->]; done.
          * apply bool_decide_eq_false in E. split; [done|].
            by intros [? _]. }
    split.
    + intros Hs. destruct (Hkey (or_introl (proj1 Hs))) as (g & -> & Hg).
      by rewrite (proj2 Hg Hs).
    + intros Hdash. destruct (Hkey Hdash) as (g & -> & Hg).
      by rewrite joined_by_one_space.
  - intros a b Ha Hb.
    assert (Hab : sentinel_free (a ++ b)) by (by apply Forall_app).
    by rewrite !resolver_copies_clean_string.
Qed.

(** A wrapped emoji text ":)" before a wrapped "cd"; "ab" before a
    string that opens with the 0x80 of a wrapped "cd"; and a wrapped
    emoji text before a space and a second one. *)
Lemma resolve_concat_at_seam_witness :
  resolveSpacing
    ((lit "x" ++ [x80; x81] ++ lit ":)" ++ [x81; x80])
     ++ (x80 :: lit "cd" ++ [x80]))
  = resolveSpacing (lit "x" ++ [x80; x81] ++ lit ":)" ++ [x81; x80])
    ++ lit " " ++ resolveSpacing (x80 :: lit "cd" ++ [x80])
  ∧ resolveSpacing (lit "ab" ++ (x80 :: lit "cd" ++ [x80]))
    = resolveSpacing (lit "ab") ++ lit " "
      ++ resolveSpacing (x80 :: lit "cd" ++ [x80])
  ∧ resolveSpacing
      (([x80; x81] ++ lit ":)" ++ [x81; x80])
       ++ (lit " " ++ [x80; x81] ++ lit ":(" ++ [x81; x80]))
    = resolveSpacing ([x80; x81] ++ lit ":)" ++ [x81; x80])
      ++ lit " "
      ++ resolveSpacing (lit " " ++ [x80; x81] ++ lit ":(" ++ [x81; x80]).
Proof.
  assert (H80 : x80 = x80 ∨ x80 = x81) by (by left).
  assert (H81 : x81 = x80 ∨ x81 = x81) by (by right).
  split; [|split].
  - refine (proj1 (proj1 resolve_concat_at_seam
                     (lit "x" ++ [x80; x81] ++ lit ":") [x81; x80] [x80]
                     (lit "d" ++ [x80]) 0x29 0x63 _ _ _ _ _ _) _).
    + split; discriminate.
    + reflexivity.
    + split; discriminate.
    + discriminate.
    + repeat (apply List.Forall_cons; [done|]). constructor.
    + repeat (apply List.Forall_cons; [done|]). constructor.
    + left. apply list_elem_of_here.
  - refine (proj1 (proj1 resolve_concat_at_seam
                     (lit "a") [] [x80] (lit "d" ++ [x80]) 0x62 0x63
                     _ _ _ _ _ _) _).
    + split; discriminate.
    + reflexivity.
    + split; discriminate.
    + discriminate.
    + constructor.
    + repeat (apply List.Forall_cons; [done|]). constructor.
    + right. split; [discriminate | by split].
  - refine (proj1 (proj1 (proj2 resolve_concat_at_seam)
                     ([x80; x81] ++ lit ":") [x81; x80] [] [x80; x81]
                     (lit ":(" ++ [x81; x80]) 0x29 _ _ _ _ _ _ _) _).
    + split; discriminate.
    + reflexivity.
    + repeat (apply List.Forall_cons; [done|]). constructor.
    + constructor.
    + repeat (apply List.Forall_cons; [done|]). constructor.
    + split; discriminate.
    + intros _. discriminate.
    + split; [apply list_elem_of_here | reflexivity].
Defined.

(** * Further properties of the code *)

(** ** The resolver: twice is once, and no longer than its input *)

Lemma replace_go_length m :
  bounded m → shrinking m →
  ∀ s start skip, (skip ≤ length s)%nat →
    (length (replace_go m start skip s) + skip ≤ length s)%nat.
Proof.
  intros Hb Hs. induction s as [|c t IH]; intros start skip Hskip.
  - simpl in *. lia.
  - simpl in *. destruct skip as [|k].
    + destruct (m start (c :: t)) as [[n r]|] eqn:E.
      * pose proof (Hb _ _ _ _ E) as Hn. pose proof (Hs _ _ _ _ E) as Hr.
        simpl in Hn. rewrite length_app.
        specialize (IH false (Nat.pred n)). lia.
      * specialize (IH false O). simpl. lia.
    + specialize (IH false k). lia.
Qed.

Lemma replace_g_length m s :
  bounded m → shrinking m → (length (replace_g m s) ≤ length s)%nat.
Proof.
  intros Hb Hs. pose proof (replace_go_length m Hb Hs s true O). 
  unfold replace_g. lia.
Qed.

Lemma re_dash_shrinking : shrinking re_dash.
Proof.
  intros start t n r. unfold re_dash.
  destruct t as [|p1 [|a [|b [|c [|d [|p3 t]]]]]]; try discriminate.
  destruct (_ && _); [|discriminate]. intros [= <- <-]. simpl. lia.
Qed.

Lemma re_x80_not_before_word_shrinking : shrinking re_x80_not_before_word.
Proof.
  intros start t n r. unfold re_x80_not_before_word.
  destruct t as [|c t]; [discriminate|].
  destruct (_ && _); [|discriminate]. intros [= <- <-]. simpl. lia.
Qed.

Lemma re_collapse_shrinking : shrinking re_collapse.
Proof.
  intros start t n r. unfold re_collapse.
  destruct t as [|c [|d t]]; try discriminate.
  destruct (_ && _); [intros [= <- <-]; simpl; lia|].
  destruct (_ && _); [|discriminate]. intros [= <- <-]. simpl. lia.
Qed.

Lemma re_x80_shrinking : shrinking re_x80.
Proof.
  intros start t n r Hm. rewrite (re_x80_replacement _ _ _ _ Hm). simpl. lia.
Qed.

Lemma re_edges_shrinking : shrinking re_edges.
Proof.
  intros start t n r Hm. rewrite (re_edges_replacement _ _ _ _ Hm). simpl. lia.
Qed.

Lemma re_x81_space_x81_shrinking : shrinking re_x81_space_x81.
Proof.
  intros start t n r Hm.
  rewrite (re_x81_space_x81_replacement _ _ _ _ Hm).
  apply re_x81_space_x81_bounded in Hm as Hn. revert Hm.
  unfold re_x81_space_x81.
  destruct t as [|a [|b [|c t]]]; try discriminate.
  destruct (_ && _); [|discriminate]. intros [= <- _]. simpl. lia.
Qed.

Lemma re_x81_run_shrinking : shrinking re_x81_run.
Proof.
  intros start t n r Hm. rewrite (re_x81_run_replacement _ _ _ _ Hm).
  apply re_x81_run_bounded in Hm. simpl. lia.
Qed.

(** X1. Resolving an already resolved string changes nothing: the
    resolver is idempotent, on every string. *)
Theorem resolveSpacing_idempotent (s : jsstring) :
  resolveSpacing (resolveSpacing s) = resolveSpacing s.
Proof.
  apply resolver_copies_clean_string, resolveSpacing_not_sentinel.
Qed.

(** X2. The resolver never makes a string longer: each of its seven
    replacements is at most as long as what it replaces. *)
Theorem resolveSpacing_no_longer (s : jsstring) :
  (length (resolveSpacing s) ≤ length s)%nat.
Proof.
  unfold resolveSpacing.
  repeat (etrans; [apply replace_g_length|]);
    eauto using re_dash_bounded, re_dash_shrinking,
      re_x80_not_before_word_bounded, re_x80_not_before_word_shrinking,
      re_collapse_bounded, re_collapse_shrinking,
      re_x80_bounded, re_x80_shrinking, re_edges_bounded, re_edges_shrinking,
      re_x81_space_x81_bounded, re_x81_space_x81_shrinking,
      re_x81_run_bounded, re_x81_run_shrinking.
Qed.

(** ** Deferred spacing *)

(** The replacer reads three options only. *)
Lemma replacer_options tables char o1 o2 w :
  german o1 = german o2 → smartSpacing o1 = smartSpacing o2 →
  skipRanges o1 = skipRanges o2 →
  replacer tables char o1 w = replacer tables char o2 w.
Proof. intros Hg Hs Hk. unfold replacer. by rewrite Hg, Hs, Hk. Qed.

Lemma replace_codepoints_ext f g s :
  (∀ char w, f char w = g char w) →
  ∀ w, replace_codepoints f s w = replace_codepoints g s w.
Proof.
  intros Hfg.
  induction s as [s IH] using (induction_ltof1 _ (@length Z)).
  unfold ltof in IH. destruct s as [|c t]; intros w; [done|].
  simpl. destruct (_ && _).
  - unfold bind. by rewrite (IH t) by (simpl; lia).
  - destruct t as [|d u].
    + unfold bind. rewrite Hfg. by destruct (g [c] w) as [[r|] w1].
    + destruct (_ && _); unfold bind; rewrite Hfg.
      * destruct (g [c; d] w) as [[r|] w1]; [|done].
        by rewrite (IH u) by (simpl; lia).
      * destruct (g [c] w) as [[r|] w1]; [|done].
        by rewrite (IH (d :: u)) by (simpl; lia).
Qed.

(** What [unidecode] returns when it does not resolve. *)
Lemma unidecode_unresolved tables s o w :
  negb (smartSpacing (options_of o)) || deferredSmartSpacing (options_of o)
    = true →
  s ≠ [] →
  unidecode tables s o w
  = replace_codepoints (λ m, replacer tables m (options_of o))
      (if german (options_of o)
       then replace_g re_umlaut_lower (replace_g re_umlaut_upper s)
       else s) w.
Proof.
  intros Hmode Hs. unfold unidecode. destruct s as [|c t]; [done|].
  rewrite Hmode. unfold bind, ret.
  by destruct (replace_codepoints _ _ w) as [[str|] w1].
Qed.

Lemma deferred_then_resolved tables s g sk sm w :
  unidecode tables s
    (Some {| in_german := g; in_deferredSmartSpacing := Some false;
             in_smartSpacing := Some true; in_skipRanges := sk |}) w
  = (let* str :=
       unidecode tables s
         (Some {| in_german := g; in_deferredSmartSpacing := Some true;
                  in_smartSpacing := sm; in_skipRanges := sk |}) in
     ret (resolveSpacing str)) w.
Proof.
  destruct s as [|c t]; [done|]. unfold bind at 1, ret.
  rewrite (unidecode_unresolved tables (c :: t)
             (Some {| in_german := g; in_deferredSmartSpacing := Some true;
                      in_smartSpacing := sm; in_skipRanges := sk |}))
    by done.
  unfold unidecode, bind, ret. simpl.
  match goal with
  | |- context [replace_codepoints ?f ?x w] =>
      rewrite (replace_codepoints_ext f
                 (λ m, replacer tables m
                         (options_of
                            (Some {| in_german := g;
                                     in_deferredSmartSpacing := Some true;
                                     in_smartSpacing := sm;
                                     in_skipRanges := sk |}))) x)
        by (intros; by apply replacer_options)
  end.
  unfold options_of. simpl.
  by destruct (replace_codepoints _ _ w) as [[str|] w1].
Qed.

(** X3. Deferring and resolving later is resolving at once: for every
    input, table store and cache, [resolveSpacing] applied to what
    [unidecode] returns with [deferredSmartSpacing: true] is what
    [unidecode] returns with [smartSpacing: true] and the same
    [german] and [skipRanges], and the cache ends in the same
    state. *)
Theorem resolving_a_deferred_output tables (s : jsstring) g sk sm w :
  unidecode tables s
    (Some {| in_german := g; in_deferredSmartSpacing := Some false;
             in_smartSpacing := Some true; in_skipRanges := sk |}) w
  = (let* str :=
       unidecode tables s
         (Some {| in_german := g; in_deferredSmartSpacing := Some true;
                  in_smartSpacing := sm; in_skipRanges := sk |}) in
     ret (resolveSpacing str)) w.
Proof. apply deferred_then_resolved. Qed.

(** ** Cutting the input in two *)

Lemma ends_high_app_r (l1 l2 : jsstring) :
  l2 ≠ [] → ends_high (l1 ++ l2) = ends_high l2.
Proof.
  intros Hne. unfold ends_high. rewrite last_app.
  destruct (last l2) as [y|] eqn:E; [done|].
  by apply last_None in E.
Qed.

Lemma replace_go_nil_inv m :
  ends_plain m → ∀ s start, replace_go m start O s = [] → s = [].
Proof.
  intros Hm [|c t] start; [done|]. simpl.
  destruct (m start (c :: t)) as [[n r]|] eqn:E; [|done].
  destruct (Hm _ _ _ _ E) as [Hr _]. by destruct r.
Qed.

Lemma replace_go_ends_high m :
  ends_plain m →
  ∀ s start skip,
    ends_high (replace_go m start skip s) = true → ends_high s = true.
Proof.
  intros Hm. induction s as [|c t IH]; intros start skip; [done|].
  assert (Htail : ∀ rest, ends_high rest = true → rest ≠ []) by
    (by intros [|? ?]).
  assert (Hcons : ends_high t = true → ends_high (c :: t) = true).
  { intros Ht. rewrite <- Ht. apply (ends_high_app_r [c]). by apply Htail. }
  simpl. destruct skip as [|k]; [|by intros ?%IH%Hcons].
  destruct (m start (c :: t)) as [[n r]|] eqn:E.
  - destruct (Hm _ _ _ _ E) as [Hr Hplain].
    destruct (replace_go m false (Nat.pred n) t) as [|x rest] eqn:Erest.
    + rewrite app_nil_r. congruence.
    + rewrite ends_high_app_r by done. rewrite <- Erest.
      by intros ?%IH%Hcons.
  - destruct (replace_go m false O t) as [|x rest] eqn:Erest.
    + by apply replace_go_nil_inv in Erest as ->.
    + change (c :: x :: rest) with ([c] ++ x :: rest).
      rewrite (ends_high_app_r [c]) by done. rewrite <- Erest.
      by intros ?%IH%Hcons.
Qed.

Lemma re_umlaut_upper_ends_plain : ends_plain re_umlaut_upper.
Proof.
  intros start t n r. unfold re_umlaut_upper.
  destruct t as [|c [|d u]]; try discriminate.
  destruct (_ && _); [|discriminate]. by intros [= _ <-].
Qed.

Lemma re_umlaut_lower_ends_plain : ends_plain re_umlaut_lower.
Proof.
  intros start t n r. unfold re_umlaut_lower.
  destruct t as [|c [|d u]]; try discriminate.
  destruct (_ && _); [|discriminate]. by intros [= _ <-].
Qed.

Lemma re_umlaut_upper_keeps_first c : keeps_first re_umlaut_upper c.
Proof.
  intros start t n r. unfold re_umlaut_upper.
  destruct t as [|d u]; [discriminate|].
  destruct (_ && _); [|discriminate]. intros [= _ <-]. by eexists.
Qed.

Lemma re_umlaut_lower_keeps_first c : keeps_first re_umlaut_lower c.
Proof.
  intros start t n r. unfold re_umlaut_lower.
  destruct t as [|d u]; [discriminate|].
  destruct (_ && _); [|discriminate]. intros [= _ <-]. by eexists.
Qed.

Lemma replace_g_head m c t :
  keeps_first m c → ∃ t', replace_g m (c :: t) = c :: t'.
Proof.
  intros Hk. unfold replace_g. simpl.
  destruct (m true (c :: t)) as [[n r]|] eqn:E; [|by eexists].
  destruct (Hk _ _ _ _ E) as [r' ->]. by eexists.
Qed.

Lemma needs_diaeresis_app m a b :
  needs_diaeresis m → two_units m → start_free m →
  no_diaeresis_first b →
  replace_g m (a ++ b) = replace_g m a ++ replace_g m b.
Proof.
  intros Hm Hlocal Hs Hb. destruct b as [|c rest].
  - by rewrite !app_nil_r.
  - apply replace_g_app;
      auto using needs_diaeresis_bounded, needs_diaeresis_insulated.
Qed.

(** The German pass on a string cut before a unit other than U+0308
    is the pass on the two parts; it keeps the first unit of a string,
    and leaves no high surrogate at the end where none was. *)
Lemma german_pass_app options a b :
  (german options = true → no_diaeresis_first b) →
  german_pass options (a ++ b)
  = german_pass options a ++ german_pass options b.
Proof.
  unfold german_pass. destruct (german options); [|done].
  intros Hb. specialize (Hb eq_refl).
  rewrite (needs_diaeresis_app re_umlaut_upper)
    by auto using re_umlaut_upper_needs_diaeresis, two_units_re_umlaut_upper,
         start_free_re_umlaut_upper.
  apply needs_diaeresis_app;
    auto using re_umlaut_lower_needs_diaeresis, two_units_re_umlaut_lower,
      start_free_re_umlaut_lower.
  destruct b as [|c rest]; [done|].
  by destruct (replace_g_head re_umlaut_upper c rest
                 (re_umlaut_upper_keeps_first c)) as [t' ->].
Qed.

Lemma german_pass_starts_low options b :
  starts_low (german_pass options b) = starts_low b.
Proof.
  unfold german_pass. destruct (german options); [|done].
  destruct b as [|c rest]; [done|].
  destruct (replace_g_head re_umlaut_upper c rest
              (re_umlaut_upper_keeps_first c)) as [t' ->].
  by destruct (replace_g_head re_umlaut_lower c t'
                 (re_umlaut_lower_keeps_first c)) as [t'' ->].
Qed.

Lemma german_pass_ends_high options a :
  ends_high (german_pass options a) = true → ends_high a = true.
Proof.
  unfold german_pass. destruct (german options); [|done].
  intros H.
  apply (replace_go_ends_high _ re_umlaut_lower_ends_plain) in H.
  by apply (replace_go_ends_high _ re_umlaut_upper_ends_plain) in H.
Qed.

Lemma german_pass_nil_inv options s : german_pass options s = [] → s = [].
Proof.
  unfold german_pass. destruct (german options); [|done].
  intros H.
  apply (replace_go_nil_inv _ re_umlaut_lower_ends_plain) in H.
  by apply (replace_go_nil_inv _ re_umlaut_upper_ends_plain) in H.
Qed.

(** [unidecode] in a mode that does not resolve, on any input. *)
Lemma unidecode_scan tables s o w :
  negb (smartSpacing (options_of o)) || deferredSmartSpacing (options_of o)
    = true →
  unidecode tables s o w
  = replace_codepoints (λ m, replacer tables m (options_of o))
      (german_pass (options_of o) s) w.
Proof.
  intros Hmode. destruct s as [|c t].
  - unfold german_pass. by destruct (german (options_of o)).
  - by rewrite unidecode_unresolved.
Qed.

Lemma unidecode_app_unresolved tables a b o w :
  negb (smartSpacing (options_of o)) || deferredSmartSpacing (options_of o)
    = true →
  clean_cut (options_of o) a b →
  unidecode tables (a ++ b) o w
  = (let* x := unidecode tables a o in
     let* y := unidecode tables b o in
     ret (x ++ y)) w.
Proof.
  intros Hmode [Hpair Hfold]. unfold bind.
  rewrite !unidecode_scan by done.
  rewrite german_pass_app by done.
  rewrite replace_codepoints_app.
  - unfold bind, ret.
    destruct (replace_codepoints _ (german_pass _ a) w) as [[x|] w1]; [|done].
    by rewrite unidecode_scan by done.
  - rewrite german_pass_starts_low.
    destruct (starts_low b); [|by rewrite andb_false_r].
    rewrite andb_true_r in *.
    destruct (ends_high (german_pass (options_of o) a)) eqn:E; [|done].
    apply german_pass_ends_high in E. congruence.
Qed.

(** X4. In a mode that does not resolve spacing, [unidecode] of a
    concatenation is [unidecode] of the first part followed by
    [unidecode] of the second, with the cache passed from one call to
    the next, provided the cut is not inside a surrogate pair and, in
    German mode, not before a U+0308. *)
Theorem unidecode_of_concatenation tables (a b : jsstring) o w :
  negb (smartSpacing (options_of o)) || deferredSmartSpacing (options_of o)
    = true →
  clean_cut (options_of o) a b →
  unidecode tables (a ++ b) o w
  = (let* x := unidecode tables a o in
     let* y := unidecode tables b o in
     ret (x ++ y)) w.
Proof. apply unidecode_app_unresolved. Qed.

(** "M" + U+00FC cut from "ller", in deferred German mode. *)
Lemma unidecode_of_concatenation_witness :
  let o := Some {| in_german := Some true;
                   in_deferredSmartSpacing := Some true;
                   in_smartSpacing := None; in_skipRanges := None |} in
  unidecode (λ _, None) ([0x4D; 0xFC] ++ lit "ller") o fresh
  = (let* x := unidecode (λ _, None) [0x4D; 0xFC] o in
     let* y := unidecode (λ _, None) (lit "ller") o in
     ret (x ++ y)) fresh.
Proof.
  intros o. apply unidecode_of_concatenation; [reflexivity|].
  split; [reflexivity | intros _; simpl; lia].
Defined.

(** X5. Batching with deferred spacing is sound: transliterating two
    pieces with [deferredSmartSpacing: true] and resolving the
    concatenation of the two outputs gives what [unidecode] with
    [smartSpacing: true] gives on the concatenated input, under the
    same condition on the cut. *)
Theorem deferred_batch_resolves_as_whole tables (a b : jsstring) g sk sm w :
  let deferred :=
    Some {| in_german := g; in_deferredSmartSpacing := Some true;
            in_smartSpacing := sm; in_skipRanges := sk |} in
  let smart :=
    Some {| in_german := g; in_deferredSmartSpacing := Some false;
            in_smartSpacing := Some true; in_skipRanges := sk |} in
  clean_cut (options_of deferred) a b →
  unidecode tables (a ++ b) smart w
  = (let* x := unidecode tables a deferred in
     let* y := unidecode tables b deferred in
     ret (resolveSpacing (x ++ y))) w.
Proof.
  intros deferred smart Hcut. unfold smart.
  rewrite (deferred_then_resolved tables (a ++ b) g sk sm w).
  unfold bind at 1.
  fold deferred. rewrite unidecode_app_unresolved by done.
  unfold bind, ret.
  destruct (unidecode tables a deferred w) as [[x|] w1]; [|done].
  by destruct (unidecode tables b deferred w1) as [[y|] w2].
Qed.

(** An em dash at the end of the first piece, a letter at the start of
    the second. *)
Lemma deferred_batch_resolves_as_whole_witness :
  let deferred :=
    Some {| in_german := None; in_deferredSmartSpacing := Some true;
            in_smartSpacing := None; in_skipRanges := None |} in
  let smart :=
    Some {| in_german := None; in_deferredSmartSpacing := Some false;
            in_smartSpacing := Some true; in_skipRanges := None |} in
  unidecode (λ _, None) ([0x61; 0x2014] ++ [0x62]) smart fresh
  = (let* x := unidecode (λ _, None) [0x61; 0x2014] deferred in
     let* y := unidecode (λ _, None) [0x62] deferred in
     ret (resolveSpacing (x ++ y))) fresh.
Proof.
  intros deferred smart.
  apply (deferred_batch_resolves_as_whole (λ _, None) [0x61; 0x2014] [0x62]
           None None None fresh).
  split; [reflexivity | discriminate].
Defined.

(** ** The cache over a run *)

(** What every step of the replacer keeps, [unidecode] keeps. *)
Lemma unidecode_invariant tables (I : world → Prop) :
  (∀ w r, I w → I (world_after tables w r)) →
  ∀ s o w out w', unidecode tables s o w = (out, w') → I w → I w'.
Proof.
  intros Hstep s o w out w'.
  assert (Hrep : ∀ char w0 out0 w0',
            replacer tables char (options_of o) w0 = (out0, w0') →
            I w0 → I w0').
  { intros char w0 out0 w0' [->| ->]%replacer_world Hw; [done|].
    by apply Hstep. }
  unfold unidecode. destruct s as [|c t]; [by intros [= _ <-]|].
  unfold bind.
  match goal with
  | |- context [replace_codepoints ?f ?x w] =>
      destruct (replace_codepoints f x w) as [[str|] w1] eqn:E
  end.
  - destruct (_ || _); intros [= _ <-] Hw;
      exact (replace_codepoints_invariant I _ Hrep _ _ _ _ E Hw).
  - intros [= _ <-] Hw.
    exact (replace_codepoints_invariant I _ Hrep _ _ _ _ E Hw).
Qed.

Lemma pad_page_length p : length (pad_page p) = (256 `max` length p)%nat.
Proof.
  unfold pad_page. destruct (length p <? 256)%nat eqn:E.
  - apply Nat.ltb_lt in E. rewrite length_app, length_replicate. lia.
  - apply Nat.ltb_ge in E. lia.
Qed.

Lemma loaded_full tables r : (256 ≤ length (loaded tables r))%nat.
Proof.
  unfold loaded. destruct (tables r) as [p|].
  - rewrite pad_page_length. lia.
  - unfold fallback_page. by rewrite length_replicate.
Qed.

(** X6. Every page in the cache has 256 entries or more after a call
    if that was so before it, as it is for the empty cache: a short
    table is padded when it is loaded, so the entry of a low byte is
    always there to read. *)
Theorem cached_pages_stay_full tables (s : jsstring) o w out w' :
  unidecode tables s o w = (out, w') →
  pages_full w →
  pages_full w'
  ∧ ∀ r p cp, dataCache w' !! r = Some p →
              is_Some (p !! Z.to_nat (Z.land cp 0xFF)).
Proof.
  intros Hrun Hw.
  assert (Hw' : pages_full w').
  { revert Hrun Hw. apply unidecode_invariant.
    intros w0 r Hw0 r' p. unfold world_after.
    destruct (dataCache w0 !! r) eqn:E; simpl; [apply Hw0|].
    rewrite lookup_insert. case_decide as Hr; [|apply Hw0].
    intros [= <-]. apply loaded_full. }
  split; [done|]. intros r p cp Hp. apply lookup_lt_is_Some.
  pose proof (Hw' r p Hp). pose proof (land_255_range cp). lia.
Qed.

Lemma cached_pages_stay_full_witness :
  pages_full
    (snd (unidecode (λ r, if bool_decide (r = (0, false))
                          then Some [lit "a"; lit "b"] else None)
            [0xE9; 0x4E2D] None fresh)).
Proof.
  refine (proj1 (cached_pages_stay_full _ [0xE9; 0x4E2D] None fresh _ _
                   (surjective_pairing _) _)).
  intros r p. unfold fresh. simpl. by rewrite lookup_empty.
Defined.

(** X7. The cache only grows: a call never removes a cached page nor
    changes one, and the record of accesses is only added to. *)
Theorem cache_only_grows tables (s : jsstring) o w out w' :
  unidecode tables s o w = (out, w') →
  (∀ r p, dataCache w !! r = Some p → dataCache w' !! r = Some p)
  ∧ trace w `prefix_of` trace w'.
Proof.
  intros Hrun.
  apply (unidecode_invariant tables
           (λ w1, (∀ r p, dataCache w !! r = Some p →
                          dataCache w1 !! r = Some p)
                  ∧ trace w `prefix_of` trace w1) ) with (2 := Hrun);
    [|by split].
  intros w0 r [Hkeep Htrace]. unfold world_after.
  destruct (dataCache w0 !! r) eqn:E; simpl.
  - split; [done|]. by apply prefix_app_r.
  - split; [|by apply prefix_app_r].
    intros r' p Hp. rewrite lookup_insert_ne; [by apply Hkeep|].
    intros <-. apply Hkeep in Hp. congruence.
Qed.

Lemma cache_only_grows_witness :
  let w1 := snd (unidecode (λ _, None) [0xE9] None fresh) in
  let w2 := snd (unidecode (λ _, None) [0x4E2D] None w1) in
  (∀ r p, dataCache w1 !! r = Some p → dataCache w2 !! r = Some p)
  ∧ trace w1 `prefix_of` trace w2.
Proof.
  intros w1 w2.
  exact (cache_only_grows (λ _, None) [0x4E2D] None w1 _ w2
           (surjective_pairing _)).
Defined.

Lemma required_app t1 t2 : required (t1 ++ t2) = required t1 ++ required t2.
Proof. apply omap_app. Qed.

(** X8. Each page is loaded at most once: over any run that starts
    with no row required twice and every required row cached, as on
    the fresh module, [require] is never called a second time for a
    row, and every row it was called for stays cached. *)
Theorem pages_loaded_once tables (s : jsstring) o w out w' :
  unidecode tables s o w = (out, w') → loads_once w → loads_once w'.
Proof.
  apply unidecode_invariant.
  intros w0 r [Hnodup Hcached]. unfold world_after, loads_once.
  destruct (dataCache w0 !! r) eqn:E; simpl.
  - rewrite required_app. simpl. rewrite app_nil_r. by split.
  - rewrite required_app. simpl. split.
    + apply NoDup_app. split; [done|]. split; [|apply NoDup_singleton].
      intros r' Hin ->%list_elem_of_singleton.
      destruct (Hcached _ Hin) as [p Hp]. congruence.
    + intros r' [Hin| ->%list_elem_of_singleton]%elem_of_app.
      * rewrite lookup_insert. case_decide; [by eexists | by apply Hcached].
      * rewrite lookup_insert_eq. by eexists.
Qed.

Lemma pages_loaded_once_witness :
  loads_once (snd (unidecode (λ _, None) [0xE9; 0xE8; 0xE9] None fresh)).
Proof.
  refine (pages_loaded_once (λ _, None) [0xE9; 0xE8; 0xE9] None fresh _ _
            (surjective_pairing _) _).
  split; [apply NoDup_nil_2 | by intros r ?%elem_of_nil].
Defined.

(** ** The cache does not show in the result *)

Lemma page_after_consistent tables w r :
  cache_consistent tables w → page_after tables w r = loaded tables r.
Proof.
  intros Hw. unfold page_after.
  destruct (dataCache w !! r) as [p|] eqn:E; [by apply Hw | done].
Qed.

Lemma replacer_output_consistent tables char options w1 w2 :
  cache_consistent tables w1 → cache_consistent tables w2 →
  fst (replacer tables char options w1) = fst (replacer tables char options w2).
Proof.
  intros H1 H2. unfold replacer.
  destruct (in_skip_ranges _ _); [done|].
  destruct (_ || _); [done|].
  destruct (_ && negb _); [done|].
  rewrite !ensure_read_bind, !page_after_consistent by done.
  destruct (smartSpacing options && _); [done|].
  destruct (_ || _ || _ || _); [done|].
  by destruct (_ || _).
Qed.

Lemma replace_codepoints_related (R : world → world → Prop) f s :
  (∀ char w1 w2, R w1 w2 →
     fst (f char w1) = fst (f char w2) ∧ R (snd (f char w1)) (snd (f char w2))) →
  ∀ w1 w2, R w1 w2 →
    fst (replace_codepoints f s w1) = fst (replace_codepoints f s w2)
    ∧ R (snd (replace_codepoints f s w1)) (snd (replace_codepoints f s w2)).
Proof.
  intros Hf.
  assert (Hstep : ∀ char t,
    (∀ w1 w2, R w1 w2 →
       fst (replace_codepoints f t w1) = fst (replace_codepoints f t w2)
       ∧ R (snd (replace_codepoints f t w1))
           (snd (replace_codepoints f t w2))) →
    ∀ w1 w2, R w1 w2 →
      let step := (let* r := f char in
                   let* rest := replace_codepoints f t in ret (r ++ rest)) in
      fst (step w1) = fst (step w2) ∧ R (snd (step w1)) (snd (step w2))).
  { intros char t IH w1 w2 HR. unfold bind, ret.
    destruct (Hf char w1 w2 HR) as [Ho HR'].
    destruct (f char w1) as [[r1|] v1], (f char w2) as [[r2|] v2];
      simpl in *; try done.
    injection Ho as ->.
    destruct (IH v1 v2 HR') as [Ho' HR''].
    destruct (replace_codepoints f t v1) as [[x1|] u1],
             (replace_codepoints f t v2) as [[x2|] u2];
      simpl in *; try done.
    by injection Ho' as ->. }
  induction s as [s IH] using (induction_ltof1 _ (@length Z)).
  unfold ltof in IH. destruct s as [|c t]; intros w1 w2 HR; [done|].
  simpl. destruct (_ && _).
  - unfold bind, ret.
    destruct (IH t) with (w1 := w1) (w2 := w2) as [Ho HR']; [simpl; lia|done|].
    destruct (replace_codepoints f t w1) as [[x1|] u1],
             (replace_codepoints f t w2) as [[x2|] u2];
      simpl in *; try done.
    by injection Ho as ->.
  - destruct t as [|d u].
    + apply (Hstep [c] []); [|done]. apply IH. simpl; lia.
    + destruct (_ && _).
      * apply (Hstep [c; d] u); [|done]. apply IH. simpl; lia.
      * apply (Hstep [c] (d :: u)); [|done]. apply IH. simpl; lia.
Qed.

(** X9. The cache is a pure memo: whatever pages are already cached
    from earlier calls on the same table store, [unidecode] returns
    the string it returns on the fresh module, and the cache it
    leaves again holds only pages that a load gives. *)
Theorem cache_does_not_change_results tables (s : jsstring) o w :
  cache_consistent tables w →
  fst (unidecode tables s o w) = fst (unidecode tables s o fresh)
  ∧ cache_consistent tables (snd (unidecode tables s o w)).
Proof.
  intros Hw. split.
  - unfold unidecode. destruct s as [|c t]; [done|]. unfold bind.
    match goal with
    | |- context [replace_codepoints ?f ?x w] =>
        destruct (replace_codepoints_related
                    (λ w1 w2, cache_consistent tables w1
                              ∧ cache_consistent tables w2) f x)
          with (w1 := w) (w2 := fresh) as [Ho _]
    end.
    + intros char w1 w2 [H1 H2]. split; [by apply replacer_output_consistent|].
      split; eapply replacer_consistent; eauto using surjective_pairing.
    + split; [done | apply fresh_consistent].
    + destruct (replace_codepoints _ _ w) as [[x1|] u1],
               (replace_codepoints _ _ fresh) as [[x2|] u2];
        simpl in *; try done.
      injection Ho as ->. by destruct (_ || _).
  - eapply unidecode_consistent; eauto using surjective_pairing.
Qed.

(** The cache left by a first call, used by a second one. *)
Lemma cache_does_not_change_results_witness :
  let tables := λ r : row,
    if bool_decide (r = (0, false))
    then Some (<[233%nat := lit "e"]> (replicate 256 (lit "?")))
    else None in
  let w1 := snd (unidecode tables [0xE9; 0x4E2D] None fresh) in
  fst (unidecode tables [0x4E2D; 0xE9] None w1)
  = fst (unidecode tables [0x4E2D; 0xE9] None fresh).
Proof.
  intros tables w1.
  refine (proj1 (cache_does_not_change_results tables [0x4E2D; 0xE9] None w1 _)).
  exact (proj2 (cache_does_not_change_results tables [0xE9; 0x4E2D] None fresh
                  (fresh_consistent tables))).
Defined.

(** ** Short pages *)

Lemma pad_page_entry p low :
  0 ≤ low < 256 →
  entry (pad_page p) low
  = match p !! Z.to_nat low with Some e => e | None => lit "_" end.
Proof.
  intros Hlow. unfold entry, pad_page.
  destruct (length p <? 256)%nat eqn:E.
  - apply Nat.ltb_lt in E.
    destruct (p !! Z.to_nat low) as [e|] eqn:Ep.
    + by rewrite (lookup_app_l_Some _ _ _ _ Ep).
    + apply lookup_ge_None in Ep. rewrite lookup_app_r by done.
      rewrite lookup_replicate_2; [done | lia].
  - apply Nat.ltb_ge in E.
    destruct (p !! Z.to_nat low) as [e|] eqn:Ep; [done|].
    apply lookup_ge_None in Ep. lia.
Qed.

(** X10. A table shorter than 256 entries reads as if padded with
    "_": with smart spacing off, a code point that gets as far as the
    table and whose page loads is replaced by the entry of its low
    byte when the table has one, and by "_" when the table ends before
    it; entries the table has are never overwritten. *)
Theorem short_page_reads_placeholder tables char options w p :
  let cp := codePointAt0 char in
  let high := Z.shiftr cp 8 in
  let r := (high, (high =? 0) && german options) in
  let emoji := (high =? 0x1F4) || (high =? 0x1F6) || (high =? 0x1F9) in
  cache_consistent tables w →
  tables r = Some p →
  in_skip_ranges (skipRanges options) cp = false →
  ((0x18 <? high) && (high <? 0x1E)) || ((0xD7 <? high) && (high <? 0xF9))
    = false →
  (0xFF <? high) && negb emoji = false →
  smartSpacing options = false →
  fst (replacer tables char options w)
  = Ok (match p !! Z.to_nat (Z.land cp 0xFF) with
        | Some e => e
        | None => lit "_"
        end).
Proof.
  intros cp high r emoji Hw Hp Hskip Hband Hout Hsmart.
  rewrite replacer_lookup by done. fold cp high r.
  rewrite Hsmart. simpl.
  rewrite page_after_consistent by done. unfold loaded. rewrite Hp.
  by rewrite pad_page_entry by apply land_255_range.
Qed.

(** A page of two entries: U+0001 of the page is read, U+00E9 is past
    its end. *)
Lemma short_page_reads_placeholder_witness :
  let tables := λ r : row,
    if bool_decide (r = (0, false)) then Some [lit "a"; lit "b"] else None in
  fst (replacer tables [0xE9] (prepareOptions no_options) fresh)
  = Ok (lit "_").
Proof.
  intros tables.
  exact (short_page_reads_placeholder tables [0xE9] (prepareOptions no_options)
           fresh [lit "a"; lit "b"] (fresh_consistent tables)
           eq_refl eq_refl eq_refl eq_refl eq_refl).
Defined.

(** ** Code points beyond the pages *)

(** X11. A surrogate pair is a code point past U+FFFF, whose high
    part is above 0xFF: unless that part is one of the three emoji
    pages or a skip range covers the code point, the replacer returns
    "_" for it and neither reads nor loads a page, so the scan puts
    "_" where the pair stood. *)
Theorem astral_code_point_placeholder tables options h l pre post w :
  let cp := codePointAt0 [h; l] in
  let high := Z.shiftr cp 8 in
  is_high_surrogate h = true → is_low_surrogate l = true →
  (high =? 0x1F4) || (high =? 0x1F6) || (high =? 0x1F9) = false →
  in_skip_ranges (skipRanges options) cp = false →
  0x10000 ≤ cp ≤ 0x10FFFF
  ∧ replacer tables [h; l] options w = (Ok (lit "_"), w)
  ∧ replace_codepoints (λ m, replacer tables m options)
      (pre ++ [h; l] ++ post) w
    = (let* a := replace_codepoints (λ m, replacer tables m options) pre in
       let* b := replace_codepoints (λ m, replacer tables m options) post in
       ret (a ++ lit "_" ++ b)) w.
Proof.
  intros cp high Hh Hl Hemoji Hskip.
  assert (Hcp : 0x10000 ≤ cp ≤ 0x10FFFF).
  { unfold cp, codePointAt0. rewrite Hh, Hl. simpl.
    unfold is_high_surrogate, is_low_surrogate in *. lia. }
  assert (Hhigh : 0x100 ≤ high ≤ 0x10FF)
    by (apply high_byte_bounds; lia).
  assert (Hrep : ∀ w0, replacer tables [h; l] options w0 = (Ok (lit "_"), w0)).
  { intros w0. unfold replacer. fold cp. rewrite Hskip. fold high.
    rewrite Hemoji.
    replace (((0x18 <? high) && (high <? 0x1E))
             || ((0xD7 <? high) && (high <? 0xF9))) with false by lia.
    by replace ((0xFF <? high) && negb false) with true by lia. }
  split; [done|]. split; [apply Hrep|].
  rewrite replace_codepoints_char by (right; by exists h, l).
  unfold bind, ret.
  destruct (replace_codepoints _ pre w) as [[a|] w1]; [|done].
  by rewrite Hrep.
Qed.

(** U+1F0A1, a playing card, is on none of the emoji pages. *)
Lemma astral_code_point_placeholder_witness :
  replacer (λ _, None) [0xD83C; 0xDCA1] (prepareOptions no_options) fresh
  = (Ok (lit "_"), fresh).
Proof.
  exact (proj1 (proj2 (astral_code_point_placeholder (λ _, None)
                         (prepareOptions no_options) 0xD83C 0xDCA1 [] [] fresh
                         eq_refl eq_refl eq_refl eq_refl))).
Defined.

(** ** The skip ranges *)

(** X12. The loop over [skipRanges] says yes exactly when some listed
    pair holds the code point between its two ends, both included:
    the order of the pairs does not matter, and a pair whose first
    end is above its second holds nothing. *)
Theorem skip_ranges_membership (ranges : list (Z * Z)) (cp : Z) :
  in_skip_ranges ranges cp = true
  ↔ ∃ lo hi, (lo, hi) ∈ ranges ∧ lo ≤ cp ≤ hi.
Proof.
  split.
  - induction ranges as [|[lo hi] rest IH]; [done|]. simpl.
    destruct ((lo <=? cp) && (cp <=? hi)) eqn:E.
    + intros _. exists lo, hi. split; [apply list_elem_of_here | lia].
    + intros (lo' & hi' & Hin & Hcp)%IH.
      exists lo', hi'. split; [by apply list_elem_of_further | done].
  - intros (lo & hi & Hin & Hcp). by eapply in_skip_ranges_covered.
Qed.

(** ** The output is ASCII *)

Lemma trim_start_Forall (P : Z → Prop) s :
  Forall P s → Forall P (trim_start s).
Proof.
  induction 1 as [|c t Hc Ht IH]; simpl; [constructor|].
  destruct (is_space c); [done | by constructor].
Qed.

Lemma trim_Forall (P : Z → Prop) s : Forall P s → Forall P (trim s).
Proof.
  intros H. unfold trim.
  by apply Forall_rev, trim_start_Forall, Forall_rev, trim_start_Forall.
Qed.

Lemma ascii_is_ascii_or_sentinel s : ascii_only s → Forall ascii_or_sentinel s.
Proof. intros H. eapply Forall_impl; [exact H|]. by left. Qed.

Lemma lit_underscore_ascii : ascii_only (lit "_").
Proof. apply List.Forall_cons; [unfold is_ascii; simpl; lia | constructor]. Qed.

Lemma loaded_ascii tables r :
  tables_ascii tables → Forall ascii_only (loaded tables r).
Proof.
  intros Ht. unfold loaded. destruct (tables r) as [p|] eqn:E.
  - unfold pad_page. destruct (_ <? _)%nat; [|by eapply Ht].
    apply Forall_app. split; [by eapply Ht|].
    apply Forall_replicate, lit_underscore_ascii.
  - apply Forall_replicate, lit_underscore_ascii.
Qed.

Lemma entry_ascii p low : Forall ascii_only p → ascii_only (entry p low).
Proof.
  intros Hp. unfold entry. destruct (p !! Z.to_nat low) as [e|] eqn:E.
  - by eapply Forall_lookup_1.
  - unfold ascii_only, is_ascii, lit. simpl.
    repeat (apply List.Forall_cons; [lia|]). apply List.Forall_nil.
Qed.

(** With no skip range, what the replacer returns is ASCII but for the
    markers, and plain ASCII when smart spacing is off. *)
Lemma replacer_output_ascii tables char options w out w' :
  tables_ascii tables → cache_consistent tables w →
  skipRanges options = [] →
  replacer tables char options w = (Ok out, w') →
  Forall ascii_or_sentinel out
  ∧ (smartSpacing options = false → ascii_only out).
Proof.
  intros Ht Hw Hskip. unfold replacer. rewrite Hskip. simpl.
  destruct (_ || _).
  { intros [= <- _]. split; [|intros _]; apply List.Forall_nil. }
  destruct (_ && negb _).
  { intros [= <- _].
    split; [apply ascii_is_ascii_or_sentinel|intros _]; apply lit_underscore_ascii. }
  rewrite ensure_read_bind, page_after_consistent by done.
  set (newChar := entry _ _).
  assert (Hnew : ascii_only newChar) by (by apply entry_ascii, loaded_ascii).
  assert (Hx80 : ascii_or_sentinel x80) by (right; by left).
  assert (Hx81 : ascii_or_sentinel x81) by (right; by right).
  assert (Hdash : Forall ascii_or_sentinel (x80 :: lit "--" ++ [x80])).
  { unfold lit. simpl.
    repeat (apply List.Forall_cons;
            [first [exact Hx80 | left; unfold is_ascii; lia]|]).
    apply List.Forall_nil. }
  destruct (smartSpacing options).
  - change (negb true) with false. rewrite !andb_true_l, !orb_false_l.
    repeat match goal with
           | |- (if ?c then _ else _) _ = _ → _ => destruct c
           end;
      intros [= <- _]; (split; [|done]); try done.
    + by apply ascii_is_ascii_or_sentinel.
    + apply List.Forall_cons; [done|]. apply List.Forall_cons; [done|].
      apply Forall_app. split; [by apply ascii_is_ascii_or_sentinel|].
      by repeat apply List.Forall_cons.
    + apply List.Forall_cons; [done|].
      apply Forall_app.
      split; [by apply ascii_is_ascii_or_sentinel, trim_Forall|].
      by repeat apply List.Forall_cons.
  - change (negb false) with true. rewrite andb_false_l, orb_true_l.
    intros [= <- _]. split; [by apply ascii_is_ascii_or_sentinel | done].
Qed.

Lemma replace_codepoints_Forall (I : world → Prop) (P : Z → Prop) f :
  (∀ c, is_ascii c → P c) →
  (∀ char w out w', I w → f char w = (Ok out, w') → Forall P out ∧ I w') →
  ∀ s w out w',
    I w → replace_codepoints f s w = (Ok out, w') → Forall P out ∧ I w'.
Proof.
  intros Hascii Hf.
  assert (Hstep : ∀ char t,
    (∀ w out w', I w → replace_codepoints f t w = (Ok out, w') →
                 Forall P out ∧ I w') →
    ∀ w out w', I w →
      (let* r := f char in
       let* rest := replace_codepoints f t in ret (r ++ rest)) w = (Ok out, w') →
      Forall P out ∧ I w').
  { intros char t IH w out w' Hw. unfold bind, ret.
    destruct (f char w) as [[r|] w1] eqn:E1; [|done].
    destruct (Hf _ _ _ _ Hw E1) as [Hr Hw1].
    destruct (replace_codepoints f t w1) as [[rest|] w2] eqn:E2; [|done].
    destruct (IH _ _ _ Hw1 E2) as [Hrest Hw2].
    intros [= <- <-]. split; [by apply Forall_app | done]. }
  induction s as [s IH] using (induction_ltof1 _ (@length Z)).
  unfold ltof in IH. destruct s as [|c t]; intros w out w' Hw.
  - intros [= <- <-]. by split.
  - simpl. destruct ((0 <=? c) && (c <=? 127)) eqn:Ec.
    + unfold bind, ret.
      destruct (replace_codepoints f t w) as [[rest|] w1] eqn:E; [|done].
      destruct (IH t) with (w := w) (out := rest) (w' := w1) as [Hrest Hw1];
        [simpl; lia | done | done |].
      intros [= <- <-]. split; [|done]. constructor; [|done].
      apply Hascii. unfold is_ascii. lia.
    + destruct t as [|d u].
      * apply Hstep; [|done]. apply IH. simpl; lia.
      * destruct (is_high_surrogate c && is_low_surrogate d);
          (apply Hstep; [|done]); apply IH; simpl; lia.
Qed.

Lemma re_dash_replacement_ascii start t n r :
  re_dash start t = Some (n, r) → Forall ascii_or_sentinel r.
Proof.
  unfold re_dash.
  destruct t as [|p1 [|a [|b [|c [|d [|p3 t]]]]]]; try discriminate.
  destruct (is_word p1) eqn:E1; [|discriminate].
  destruct (is_word p3) eqn:E3; [|by rewrite andb_false_r].
  destruct (_ && _); [|discriminate]. intros [= _ <-].
  repeat (apply List.Forall_cons; [left; unfold is_ascii; bool_lia|]).
  apply List.Forall_nil.
Qed.

Lemma re_x80_not_before_word_replacement start t n r :
  re_x80_not_before_word start t = Some (n, r) → r = [].
Proof.
  unfold re_x80_not_before_word. destruct t as [|c t]; [discriminate|].
  destruct (_ && _); congruence.
Qed.

Lemma re_collapse_replacement_ascii start t n r :
  re_collapse start t = Some (n, r) → Forall ascii_or_sentinel r.
Proof.
  unfold re_collapse. destruct t as [|c [|d t]]; try discriminate.
  assert (Hx81 : ascii_or_sentinel x81) by (right; by right).
  destruct (_ && _); [intros [= _ <-]; by repeat constructor|].
  destruct (is_word c) eqn:E; [|discriminate].
  destruct (d =? x80); [|discriminate]. intros [= _ <-].
  apply List.Forall_cons; [left; unfold is_ascii; bool_lia|].
  by repeat constructor.
Qed.

(** The resolver turns a string that is ASCII but for the markers into
    an ASCII string. *)
Lemma resolveSpacing_ascii s :
  Forall ascii_or_sentinel s → ascii_only (resolveSpacing s).
Proof.
  intros Hs.
  assert (Hout : Forall ascii_or_sentinel (resolveSpacing s)).
  { unfold resolveSpacing.
    assert (Hsp : ∀ k, Forall ascii_or_sentinel (replicate k 0x20)).
    { intros k. apply Forall_replicate. left. unfold is_ascii. lia. }
    repeat (apply replace_go_Forall with (P := ascii_or_sentinel);
            [| by auto |]); try done.
    - intros start t n r ->%re_x81_run_replacement. apply (Hsp 1%nat).
    - intros start t n r ->%re_x81_space_x81_replacement. apply (Hsp 2%nat).
    - by intros start t n r ->%re_edges_replacement.
    - by intros start t n r ->%re_x80_replacement.
    - apply re_collapse_replacement_ascii.
    - by intros start t n r ->%re_x80_not_before_word_replacement.
    - apply re_dash_replacement_ascii. }
  pose proof (resolveSpacing_not_sentinel s) as Hno.
  rewrite Forall_forall in Hout, Hno. apply Forall_forall.
  intros c Hc. destruct (Hout c Hc) as [?|[?|?]]; [done| |];
    destruct (Hno c Hc); congruence.
Qed.

(** X13. The result is ASCII: when every string of the
    table store is ASCII, no skip range is given and spacing is not
    deferred, [unidecode] returns a string whose units are all in
    0x00..0x7F, whatever the input and whatever earlier calls left in
    the cache. *)
Theorem output_is_ascii tables (s : jsstring) o w :
  tables_ascii tables → cache_consistent tables w →
  skipRanges (options_of o) = [] →
  deferredSmartSpacing (options_of o) = false →
  ∃ out w', unidecode tables s o w = (Ok out, w') ∧ ascii_only out.
Proof.
  intros Ht Hw Hskip Hdef.
  destruct (unidecode_returns tables s o w) as (out & w' & Hrun).
  exists out, w'. split; [done|]. revert Hrun.
  unfold unidecode. destruct s as [|c t]; [intros [= <- _]; constructor|].
  unfold bind. rewrite Hdef, orb_false_r.
  match goal with
  | |- context [replace_codepoints ?f ?x w] =>
      destruct (replace_codepoints f x w) as [[str|] w1] eqn:E; [|done]
  end.
  destruct (smartSpacing (options_of o)) eqn:Hsmart; simpl; intros [= <- _].
  - apply resolveSpacing_ascii.
    refine (proj1 (replace_codepoints_Forall (cache_consistent tables)
                     ascii_or_sentinel _ _ _ _ _ _ _ Hw E)); [by left|].
    intros char w0 out0 w0' Hw0 Hrep. split.
    + by eapply replacer_output_ascii.
    + by eapply replacer_consistent.
  - refine (proj1 (replace_codepoints_Forall (cache_consistent tables)
                     is_ascii _ _ _ _ _ _ _ Hw E)); [done|].
    intros char w0 out0 w0' Hw0 Hrep. split.
    + by eapply replacer_output_ascii.
    + by eapply replacer_consistent.
Qed.

(** A store with one page, against a string with a sentinel, an em
    dash, a private-use code point and an emoji. *)
Lemma output_is_ascii_witness :
  let tables := λ r : row,
    if bool_decide (r = (0, false))
    then Some (<[189%nat := lit " 1/2"]> (replicate 200 (lit "?")))
    else None in
  ∃ out w',
    unidecode tables [0x80; 0x61; 0xBD; 0x2014; 0xE000; 0xD83D; 0xDE00; 0x7A]
      (Some {| in_german := Some true; in_deferredSmartSpacing := None;
               in_smartSpacing := Some true; in_skipRanges := None |}) fresh
    = (Ok out, w')
    ∧ ascii_only out.
Proof.
  intros tables.
  apply output_is_ascii; [|apply fresh_consistent|done|done].
  assert (Hpage : Forall ascii_only
                      (<[189%nat := lit " 1/2"]> (replicate 200 (lit "?")))).
  { apply Forall_insert.
    - apply Forall_replicate. apply List.Forall_cons; [|constructor].
      unfold is_ascii. simpl. lia.
    - unfold ascii_only, is_ascii, lit. simpl.
      repeat (apply List.Forall_cons; [lia|]). apply List.Forall_nil. }
  intros r p. unfold tables. case_bool_decide; [|done].
  intros [= <-]. exact Hpage.
Defined.

(** ** Which pages are asked for, and under which file names *)

Lemma replacer_requires tables char options w out w' :
  0 ≤ codePointAt0 char →
  replacer tables char options w = (out, w') →
  ∀ r, r ∈ required (trace w') → r ∈ required (trace w) ∨ requestable r.
Proof.
  intros Hcp. unfold replacer.
  destruct (in_skip_ranges _ _); [intros [= _ <-]; by left|].
  set (high := Z.shiftr (codePointAt0 char) 8).
  assert (Hhigh : 0 ≤ high) by (by apply Z.shiftr_nonneg).
  match goal with
  | |- (if ?c then _ else _) _ = _ → _ => destruct c eqn:Hband
  end; [intros [= _ <-]; by left|].
  match goal with
  | |- (if ?c then _ else _) _ = _ → _ => destruct c eqn:Hout
  end; [intros [= _ <-]; by left|].
  rewrite ensure_read_bind.
  set (r0 := (high, (high =? 0) && german options)).
  assert (Hr0 : requestable r0).
  { unfold requestable, r0. simpl. split; lia. }
  assert (Hw' : ∀ r, r ∈ required (trace (world_after tables w r0)) →
                     r ∈ required (trace w) ∨ requestable r).
  { intros r. unfold world_after.
    destruct (dataCache w !! r0); simpl; rewrite required_app; simpl.
    - rewrite app_nil_r. by left.
    - intros [?| ->%list_elem_of_singleton]%elem_of_app; [by left | by right]. }
  repeat match goal with
         | |- (if ?c then _ else _) _ = _ → _ => destruct c
         end;
    intros [= _ <-]; apply Hw'.
Qed.

Lemma replace_codepoints_invariant_on (P : Z → Prop) (I : world → Prop) f :
  (∀ char w out w',
     Forall P char → char ≠ [] → f char w = (out, w') → I w → I w') →
  ∀ s w out w',
    Forall P s → replace_codepoints f s w = (out, w') → I w → I w'.
Proof.
  intros Hf.
  assert (Hstep : ∀ char t,
    Forall P char → char ≠ [] →
    (∀ w out w', replace_codepoints f t w = (out, w') → I w → I w') →
    ∀ w out w',
      (let* r := f char in
       let* rest := replace_codepoints f t in ret (r ++ rest)) w = (out, w') →
      I w → I w').
  { intros char t Hchar Hne IH w out w'. unfold bind, ret.
    destruct (f char w) as [[r|] w1] eqn:E1.
    - destruct (replace_codepoints f t w1) as [[rest|] w2] eqn:E2;
        intros [= _ <-] Hw; eapply IH; eauto.
    - intros [= _ <-] Hw. eauto. }
  induction s as [s IH] using (induction_ltof1 _ (@length Z)).
  unfold ltof in IH. destruct s as [|c t]; intros w out w' Hs.
  - by intros [= _ <-].
  - apply Forall_cons in Hs as [Hc Ht]. simpl.
    destruct ((0 <=? c) && (c <=? 127)).
    + unfold bind, ret.
      destruct (replace_codepoints f t w) as [[rest|] w1] eqn:E;
        intros [= _ <-] Hw; eapply (IH t); eauto.
    + destruct t as [|d u].
      * apply Hstep; [by apply List.Forall_cons | done |].
        intros w1 o1 w1' E1 H1.
        by apply (IH [] ltac:(simpl; lia) w1 o1 w1').
      * apply Forall_cons in Ht as [Hd Hu].
        destruct (is_high_surrogate c && is_low_surrogate d).
        -- apply Hstep;
             [by repeat apply List.Forall_cons | done |].
           intros w1 o1 w1' E1 H1.
           by apply (IH u ltac:(simpl; lia) w1 o1 w1').
        -- apply Hstep; [by apply List.Forall_cons | done |].
           intros w1 o1 w1' E1 H1.
           apply (IH (d :: u) ltac:(simpl; lia) w1 o1 w1'); try done.
           by apply List.Forall_cons.
Qed.

Lemma codePointAt0_nonneg char :
  Forall (λ c, 0 ≤ c) char → 0 ≤ codePointAt0 char.
Proof.
  intros H. destruct char as [|c [|d u]]; simpl; [done| |].
  - by apply Forall_cons in H as [? _].
  - apply Forall_cons in H as [Hc _].
    destruct (_ && _) eqn:E; [|done].
    unfold is_high_surrogate, is_low_surrogate in E. lia.
Qed.

Lemma german_pass_nonneg options s :
  Forall (λ c, 0 ≤ c) s → Forall (λ c, 0 ≤ c) (german_pass options s).
Proof.
  intros Hs. unfold german_pass. destruct (german options); [|done].
  apply replace_go_Forall with (P := λ c, 0 ≤ c); [| done |].
  - intros start t n r. unfold re_umlaut_lower.
    destruct t as [|c [|d u]]; try discriminate.
    destruct (_ || _) eqn:E; [|discriminate].
    destruct (d =? _); [|discriminate]. intros [= _ <-].
    apply List.Forall_cons; [lia|]. by apply List.Forall_cons.
  - apply replace_go_Forall with (P := λ c, 0 ≤ c); [| done | done].
    intros start t n r. unfold re_umlaut_upper.
    destruct t as [|c [|d u]]; try discriminate.
    destruct (_ || _) eqn:E; [|discriminate].
    destruct (d =? _); [|discriminate]. intros [= _ <-].
    apply List.Forall_cons; [lia|]. by apply List.Forall_cons.
Qed.

(** X14. The only pages [unidecode] ever asks [require] for are
    those of a high byte in 0x00..0xFF outside the two dropped bands
    and of the three emoji pages, the half row being asked for row 0
    only: no page is asked for a dropped code point nor for a code
    point past U+FFFF that is not an emoji. *)
Theorem only_requestable_pages_required tables (s : jsstring) o w out w' :
  Forall (λ c, 0 ≤ c) s →
  unidecode tables s o w = (out, w') →
  ∀ r, r ∈ required (trace w') → r ∈ required (trace w) ∨ requestable r.
Proof.
  intros Hs. unfold unidecode. destruct s as [|c t]; [intros [= _ <-]; by left|].
  fold (german_pass (options_of o) (c :: t)). unfold bind.
  match goal with
  | |- context [replace_codepoints ?f ?x w] =>
      destruct (replace_codepoints f x w) as [[str|] w1] eqn:E
  end.
  all: assert (Hw1 : ∀ r, r ∈ required (trace w1) →
                          r ∈ required (trace w) ∨ requestable r).
  all: try (refine (replace_codepoints_invariant_on (λ c, 0 ≤ c)
              (λ w0, ∀ r, r ∈ required (trace w0) →
                          r ∈ required (trace w) ∨ requestable r)
              _ _ _ _ _ _ (german_pass_nonneg _ _ Hs) E _); [|by left];
            intros char w0 out0 w0' Hchar _ Hrep Hw0 r Hr;
            destruct (replacer_requires _ _ _ _ _ _
                        (codePointAt0_nonneg _ Hchar) Hrep r Hr);
            [by apply Hw0 | by right]).
  - destruct (_ || _); by intros [= _ <-].
  - by intros [= _ <-].
Qed.

Lemma only_requestable_pages_required_witness :
  Forall requestable
    (required
       (trace (snd (unidecode (λ _, None)
                      [0xE9; 0xE000; 0xD83C; 0xDCA1; 0xD83D; 0xDE00]
                      None fresh)))).
Proof.
  apply Forall_forall. intros r Hr.
  destruct (only_requestable_pages_required (λ _, None)
              [0xE9; 0xE000; 0xD83C; 0xDCA1; 0xD83D; 0xDE00] None fresh _ _
              ltac:(repeat (apply List.Forall_cons; [lia|]);
                    apply List.Forall_nil)
              (surjective_pairing _) r Hr) as [Hold | Hnew].
  - by apply elem_of_nil in Hold.
  - exact Hnew.
Defined.

(** The rows of [requestable], listed. *)
Lemma requestable_listed r :
  requestable r →
  r ∈ (0, true) :: ((λ h, (h, false)) <$> (seqZ 0 256 ++ [0x1F4; 0x1F6; 0x1F9])).
Proof.
  destruct r as [h [|]]; intros [Hh Hhalf]; cbn [fst snd] in Hh, Hhalf.
  - rewrite (Hhalf eq_refl). apply list_elem_of_here.
  - apply list_elem_of_further, list_elem_of_fmap. exists h. split; [done|].
    apply elem_of_app.
    destruct (decide (0 ≤ h ≤ 0xFF)) as [Hb|Hb].
    + left. apply elem_of_seqZ. lia.
    + right. apply list_elem_of_In. cbn [In]. lia.
Qed.

(** X15. The file names built for [require] tell the pages apart:
    two different rows that the replacer can ask for never get the
    same name, so a page cached under its row is the page of its
    file. *)
Theorem data_file_names_distinct r1 r2 :
  requestable r1 → requestable r2 → r1 ≠ r2 → data_file r1 ≠ data_file r2.
Proof.
  set (rows := (0, true)
               :: ((λ h, (h, false)) <$> (seqZ 0 256 ++ [0x1F4; 0x1F6; 0x1F9]))).
  assert (Hcheck :
    forallb (λ r1 : Z * bool,
      forallb (λ r2 : Z * bool,
        implb (String.eqb (data_file r1) (data_file r2))
              (bool_decide (r1 = r2))) rows) rows = true)
    by (vm_compute; reflexivity).
  rewrite forallb_forall in Hcheck.
  intros H1%requestable_listed H2%requestable_listed Hne Hname.
  apply list_elem_of_In in H1, H2.
  specialize (Hcheck r1 H1). rewrite forallb_forall in Hcheck.
  specialize (Hcheck r2 H2).
  apply String.eqb_eq in Hname. rewrite Hname in Hcheck.
  cbn [implb] in Hcheck. by apply bool_decide_eq_true in Hcheck.
Qed.

Lemma data_file_names_distinct_witness :
  data_file (0, true) ≠ data_file (0, false).
Proof.
  apply data_file_names_distinct.
  - split; cbn [fst snd]; [lia | done].
  - split; cbn [fst snd]; [lia | done].
  - discriminate.
Defined.

(** X16. The page of a one-byte row is named "./data/x" followed by
    exactly two lower-case digits in base 16, the first being "0"
    below 0x10; the half row of German mode is named like row 0 with
    ".8" after it. *)
Theorem data_file_two_digits high :
  0 ≤ high ≤ 0xFF →
  data_file (high, false)
  = ("./data/x" ++ String (hex_digit (high / 16))
                     (String (hex_digit (high mod 16)) ""))%string
  ∧ data_file (high, true) = (data_file (high, false) ++ ".8")%string.
Proof.
  intros Hhigh.
  assert (Hall : forallb (λ h,
            String.eqb (data_file (h, false))
              ("./data/x" ++ String (hex_digit (h / 16))
                               (String (hex_digit (h mod 16)) ""))%string
            && String.eqb (data_file (h, true))
                          (data_file (h, false) ++ ".8")%string)
          (seqZ 0 256) = true) by (vm_compute; reflexivity).
  rewrite forallb_forall in Hall.
  specialize (Hall high). rewrite andb_true_iff, !String.eqb_eq in Hall.
  apply Hall, list_elem_of_In, elem_of_seqZ. lia.
Qed.

Lemma data_file_two_digits_witness :
  data_file (0x0A, false) = "./data/x0a"%string
  ∧ data_file (0x0A, true) = "./data/x0a.8"%string.
Proof.
  destruct (data_file_two_digits 0x0A ltac:(lia)) as [H1 H2].
  split; [exact H1 | exact H2].
Defined.

(** ** Where smart spacing makes a difference *)

(** A character for which the replacer, whatever its spacing mode,
    returns a text without 0x80 gets the same text with smart spacing
    off, and the cache is left the same. *)
Lemma replacer_plain tables char o1 o2 w r w1 :
  german o1 = german o2 → skipRanges o1 = skipRanges o2 →
  smartSpacing o2 = false →
  replacer tables char o1 w = (Ok r, w1) → (x80 ∉ r) →
  replacer tables char o2 w = (Ok r, w1).
Proof.
  intros Hg Hk Hs. unfold replacer. rewrite Hg, Hk, Hs.
  destruct (in_skip_ranges _ _); [done|].
  match goal with
  | |- (if ?c then _ else _) _ = _ → _ => destruct c
  end; [done|].
  match goal with
  | |- (if ?c then _ else _) _ = _ → _ => destruct c
  end; [done|].
  rewrite !ensure_read_bind. cbn [negb andb orb].
  repeat match goal with
         | |- (if ?c then _ else _) _ = _ → _ => destruct c
         end; try done;
    intros [= <- <-] Hr; exfalso; apply Hr; apply list_elem_of_here.
Qed.

Lemma replace_codepoints_plain tables o1 o2 :
  german o1 = german o2 → skipRanges o1 = skipRanges o2 →
  smartSpacing o2 = false →
  ∀ s w out w',
    replace_codepoints (λ m, replacer tables m o1) s w = (Ok out, w') →
    (x80 ∉ out) →
    replace_codepoints (λ m, replacer tables m o2) s w = (Ok out, w').
Proof.
  intros Hg Hk Hs.
  assert (Hstep : ∀ char t,
    (∀ w out w',
       replace_codepoints (λ m, replacer tables m o1) t w = (Ok out, w') →
       (x80 ∉ out) →
       replace_codepoints (λ m, replacer tables m o2) t w = (Ok out, w')) →
    ∀ w out w',
      (let* r := replacer tables char o1 in
       let* rest := replace_codepoints (λ m, replacer tables m o1) t in
       ret (r ++ rest)) w = (Ok out, w') →
      (x80 ∉ out) →
      (let* r := replacer tables char o2 in
       let* rest := replace_codepoints (λ m, replacer tables m o2) t in
       ret (r ++ rest)) w = (Ok out, w')).
  { intros char t IH w out w'. unfold bind, ret.
    destruct (replacer tables char o1 w) as [[r|] w1] eqn:E1; [|done].
    destruct (replace_codepoints _ t w1) as [[rest|] w2] eqn:E2; [|done].
    intros [= <- <-] Hout. apply not_elem_of_app in Hout as [Hr Hrest].
    rewrite (replacer_plain tables char o1 o2 w r w1) by done.
    by rewrite (IH w1 rest w2). }
  induction s as [s IH] using (induction_ltof1 _ (@length Z)).
  unfold ltof in IH. destruct s as [|c t]; intros w out w'; [done|].
  simpl. destruct ((0 <=? c) && (c <=? 127)).
  - unfold bind, ret.
    destruct (replace_codepoints _ t w) as [[rest|] w1] eqn:E; [|done].
    intros [= <- <-] Hout. apply not_elem_of_cons in Hout as [_ Hrest].
    by rewrite (IH t ltac:(simpl; lia) w rest w1).
  - destruct t as [|d u].
    + apply Hstep. intros w0 out0 w0'. apply (IH [] ltac:(simpl; lia)).
    + destruct (_ && _); apply Hstep; intros w0 out0 w0'.
      * apply (IH u ltac:(simpl; lia)).
      * apply (IH (d :: u) ltac:(simpl; lia)).
Qed.

(** X17. Smart spacing changes the output only through the sentinels
    it puts in: when the deferred output of a string holds no 0x80 and
    no 0x81, the output without smart spacing and the resolved output
    with it are both that same string, and the cache ends the same. *)
Theorem smart_spacing_only_through_sentinels
    tables (s : jsstring) g sk sm w out w' :
  unidecode tables s
    (Some {| in_german := g; in_deferredSmartSpacing := Some true;
             in_smartSpacing := sm; in_skipRanges := sk |}) w
  = (Ok out, w') →
  sentinel_free out →
  unidecode tables s
    (Some {| in_german := g; in_deferredSmartSpacing := Some false;
             in_smartSpacing := Some false; in_skipRanges := sk |}) w
  = (Ok out, w')
  ∧ unidecode tables s
      (Some {| in_german := g; in_deferredSmartSpacing := Some false;
               in_smartSpacing := Some true; in_skipRanges := sk |}) w
    = (Ok out, w').
Proof.
  intros Hrun Hout. split.
  - destruct s as [|c t]; [done|].
    rewrite unidecode_unresolved in Hrun |- * by done.
    revert Hrun. cbn [options_of prepareOptions german in_german].
    intros Hrun.
    eapply replace_codepoints_plain; [| | |exact Hrun|]; try done.
    intros Hin. unfold sentinel_free in Hout.
    rewrite Forall_forall in Hout. by destruct (Hout _ Hin).
  - rewrite (deferred_then_resolved tables s g sk sm w).
    unfold bind, ret. rewrite Hrun.
    by rewrite resolver_copies_clean_string.
Qed.

Lemma smart_spacing_only_through_sentinels_witness :
  let tables := λ r : row,
    if bool_decide (r = (0, false))
    then Some (<[233%nat := lit "e"]> (replicate 256 (lit " ? ")))
    else None in
  ∃ out w',
    unidecode tables [0x63; 0x61; 0x66; 0xE9; 0x2603]
      (Some {| in_german := None; in_deferredSmartSpacing := Some false;
               in_smartSpacing := Some false; in_skipRanges := None |}) fresh
    = (Ok out, w')
    ∧ unidecode tables [0x63; 0x61; 0x66; 0xE9; 0x2603]
        (Some {| in_german := None; in_deferredSmartSpacing := Some false;
                 in_smartSpacing := Some true; in_skipRanges := None |}) fresh
      = (Ok out, w').
Proof.
  intros tables.
  destruct (unidecode tables [0x63; 0x61; 0x66; 0xE9; 0x2603]
      (Some {| in_german := None; in_deferredSmartSpacing := Some true;
               in_smartSpacing := None; in_skipRanges := None |}) fresh)
    as [out w'] eqn:Hrun.
  vm_compute in Hrun. injection Hrun as <- <-.
  eexists _, _.
  apply (smart_spacing_only_through_sentinels tables
           [0x63; 0x61; 0x66; 0xE9; 0x2603] None None None fresh).
  - vm_compute. reflexivity.
  - repeat (apply List.Forall_cons; [split; discriminate|]). constructor.
Defined.

(** ** A wrapped text standing alone *)

Lemma needs_sentinel_copy m s start :
  needs_sentinel m → sentinel_free s → replace_go m start 0 s = s.
Proof.
  intros Hm Hs. apply replace_go_no_match.
  intros st t [pre ->] _.
  destruct (m st t) as [[n r]|] eqn:E; [|reflexivity].
  exfalso. apply (Hm _ _ _ _ E).
  unfold sentinel_free in *. by apply Forall_app in Hs as [_ ?].
Qed.

Lemma sentinel_free_split (e e1 e2 : jsstring) c :
  sentinel_free e → e = e1 ++ c :: e2 →
  c ≠ x80 ∧ c ≠ x81 ∧ sentinel_free e2.
Proof.
  intros He ->. unfold sentinel_free in He.
  apply Forall_app in He as [_ He]. apply Forall_cons in He as [[? ?] ?].
  done.
Qed.

Lemma re_dash_second start p1 a t :
  a ≠ x80 → re_dash start (p1 :: a :: t) = None.
Proof.
  intros H. unfold re_dash.
  destruct t as [|b [|c [|d [|p3 t]]]]; try done.
  rewrite (proj2 (Z.eqb_neq a x80) H). by rewrite andb_false_r.
Qed.

Lemma re_collapse_second start c d t :
  d ≠ x80 → re_collapse start (c :: d :: t) = None.
Proof.
  intros H. unfold re_collapse.
  rewrite (proj2 (Z.eqb_neq d x80) H). by rewrite !andb_false_r.
Qed.

(** Pass 1 finds no dash between the markers of one wrapped text. *)
Lemma wrapped_pass1 (e tail : jsstring) :
  sentinel_free e → tail = [x80] ∨ tail = [x81; x80] →
  ∀ start, replace_go re_dash start 0 (e ++ tail) = e ++ tail.
Proof.
  intros He Htail start. rewrite replace_go_copy_prefix.
  - by destruct Htail as [-> | ->].
  - intros st e1 c e2 Heq.
    destruct (sentinel_free_split e e1 e2 c He Heq) as (_ & _ & He2).
    destruct e2 as [|a e3].
    + by destruct Htail as [-> | ->].
    + apply re_dash_second. apply Forall_cons in He2 as [[? ?] ?]. done.
Qed.

(** Pass 2 copies a text without sentinels and takes the closing 0x80
    away. *)
Lemma wrapped_pass2 (e tail : jsstring) :
  sentinel_free e → tail = [x80] ∨ tail = [x81; x80] →
  ∀ start,
    replace_go re_x80_not_before_word start 0 (e ++ tail)
    = e ++ removelast tail.
Proof.
  intros He Htail start. rewrite replace_go_copy_prefix.
  - by destruct Htail as [-> | ->].
  - intros st e1 c e2 Heq.
    destruct (sentinel_free_split e e1 e2 c He Heq) as (Hc & _ & _).
    unfold re_x80_not_before_word.
    by rewrite (proj2 (Z.eqb_neq c x80) Hc).
Qed.

(** An expression that needs a 0x80 copies a string without one. *)
Lemma no_x80_copy m (s : jsstring) :
  (∀ start t n r, m start t = Some (n, r) → x80 ∈ t) →
  (x80 ∉ s) → ∀ start, replace_go m start 0 s = s.
Proof.
  intros Hm Hs. apply replace_go_no_match.
  intros st t [pre ->] _.
  destruct (m st t) as [[n r]|] eqn:E; [|reflexivity].
  exfalso. apply Hs, elem_of_app. right. by eapply Hm.
Qed.

Lemma re_collapse_needs_x80 start t n r :
  re_collapse start t = Some (n, r) → x80 ∈ t.
Proof.
  destruct t as [|c [|d t]]; try done.
  destruct (decide (d = x80)) as [->|Hd].
  - intros _. apply list_elem_of_further, list_elem_of_here.
  - by rewrite re_collapse_second.
Qed.

Lemma re_x80_needs_x80 start t n r :
  re_x80 start t = Some (n, r) → x80 ∈ t.
Proof.
  destruct t as [|c t]; [done|]. unfold re_x80.
  destruct (c =? x80) eqn:Ec; [|done].
  apply Z.eqb_eq in Ec as ->. intros _. apply list_elem_of_here.
Qed.

Lemma sentinel_free_no_x80 (e : jsstring) : sentinel_free e → x80 ∉ e.
Proof.
  intros He Hin. unfold sentinel_free in He. rewrite Forall_forall in He.
  by destruct (He _ Hin).
Qed.

(** The text the replacer wraps in two 0x80. *)
Lemma wrapped_resolves (e : jsstring) :
  sentinel_free e → resolveSpacing (x80 :: e ++ [x80]) = e.
Proof.
  intros He. destruct e as [|c e'] eqn:Ee; [reflexivity|]. rewrite <- Ee.
  assert (Hc : c ≠ x80 ∧ c ≠ x81).
  { by apply Forall_cons in He as [? _]. }
  rewrite <- Ee in He.
  unfold resolveSpacing.
  (* pass 1 *)
  assert (H1 : replace_g re_dash (x80 :: e ++ [x80]) = x80 :: e ++ [x80]).
  { unfold replace_g.
    rewrite replace_go_cons_none by apply re_dash_not_at_x80.
    by rewrite wrapped_pass1 by auto. }
  rewrite H1.
  (* passes 2 to 4 *)
  assert (H4 : replace_g re_x80
                 (replace_g re_collapse
                    (replace_g re_x80_not_before_word (x80 :: e ++ [x80])))
               = e).
  { unfold replace_g at 3.
    destruct (is_word c) eqn:Hw.
    - rewrite replace_go_cons_none
        by (rewrite Ee; unfold re_x80_not_before_word; simpl; by rewrite Hw).
      rewrite wrapped_pass2 by auto. simpl removelast. rewrite app_nil_r.
      unfold replace_g at 2.
      rewrite replace_go_cons_none
        by (rewrite Ee; apply re_collapse_second; tauto).
      rewrite needs_sentinel_copy
        by auto using re_collapse_needs_sentinel.
      unfold replace_g.
      rewrite (replace_go_cons_some re_x80 true x80 e 1 []) by done.
      simpl. by rewrite needs_sentinel_copy
        by auto using re_x80_needs_sentinel.
    - rewrite (replace_go_cons_some re_x80_not_before_word true x80
                 (e ++ [x80]) 1 [])
        by (rewrite Ee; unfold re_x80_not_before_word; simpl; by rewrite Hw).
      simpl Nat.pred. rewrite app_nil_l.
      rewrite wrapped_pass2 by auto. simpl removelast. rewrite app_nil_r.
      rewrite (needs_sentinel_no_change re_collapse)
        by auto using re_collapse_needs_sentinel.
      by rewrite (needs_sentinel_no_change re_x80)
        by auto using re_x80_needs_sentinel. }
  rewrite H4.
  rewrite (needs_sentinel_no_change re_edges e)
    by auto using re_edges_needs_sentinel.
  rewrite (needs_sentinel_no_change re_x81_space_x81 e)
    by auto using re_x81_space_x81_needs_sentinel.
  apply needs_sentinel_no_change; auto using re_x81_run_needs_sentinel.
Qed.

(** The text the replacer wraps in 0x80 0x81 and 0x81 0x80. *)
Lemma emoji_wrapped_resolves (e : jsstring) :
  sentinel_free e → resolveSpacing (x80 :: x81 :: e ++ [x81; x80]) = e.
Proof.
  intros He. destruct e as [|c e'] eqn:Ee; [reflexivity|]. rewrite <- Ee.
  assert (Hc : c ≠ x80 ∧ c ≠ x81).
  { by apply Forall_cons in He as [? _]. }
  rewrite <- Ee in He.
  unfold resolveSpacing.
  (* pass 1 *)
  assert (H1 : replace_g re_dash (x80 :: x81 :: e ++ [x81; x80])
               = x80 :: x81 :: e ++ [x81; x80]).
  { unfold replace_g.
    rewrite replace_go_cons_none by apply re_dash_not_at_x80.
    rewrite replace_go_cons_none by (by apply re_dash_not_at_non_word).
    by rewrite wrapped_pass1 by auto. }
  rewrite H1.
  (* pass 2 *)
  assert (H2 : replace_g re_x80_not_before_word
                 (x80 :: x81 :: e ++ [x81; x80])
               = x81 :: e ++ [x81]).
  { unfold replace_g.
    rewrite (replace_go_cons_some re_x80_not_before_word true x80
               (x81 :: e ++ [x81; x80]) 1 []) by done.
    simpl Nat.pred. rewrite app_nil_l.
    rewrite replace_go_cons_none by done.
    by rewrite wrapped_pass2 by auto. }
  rewrite H2.
  (* passes 3 and 4 *)
  assert (Hno : x80 ∉ x81 :: e ++ [x81]).
  { intros [Hx | [Hx | Hx]%elem_of_app]%elem_of_cons.
    - discriminate.
    - by apply (sentinel_free_no_x80 e He).
    - apply list_elem_of_singleton in Hx. discriminate. }
  assert (H3 : replace_g re_collapse (x81 :: e ++ [x81])
               = x81 :: e ++ [x81])
    by apply (no_x80_copy re_collapse _ re_collapse_needs_x80 Hno).
  assert (H4 : replace_g re_x80 (x81 :: e ++ [x81]) = x81 :: e ++ [x81])
    by apply (no_x80_copy re_x80 _ re_x80_needs_x80 Hno).
  rewrite H3, H4.
  (* pass 5 *)
  assert (H5 : replace_g re_edges (x81 :: e ++ [x81]) = e).
  { unfold replace_g.
    assert (Hrun : ∀ t, run is_x81 (e ++ t) = 0%nat).
    { intros t. rewrite Ee. simpl. unfold is_x81.
      by rewrite (proj2 (Z.eqb_neq c x81) (proj2 Hc)). }
    rewrite (replace_go_cons_some re_edges true x81 (e ++ [x81]) 1 []).
    2:{ unfold re_edges. simpl run. by rewrite Hrun. }
    simpl Nat.pred. rewrite app_nil_l.
    rewrite replace_go_copy_prefix.
    - rewrite Ee. simpl. by rewrite app_nil_r.
    - intros st e1 d e2 Heq.
      destruct (sentinel_free_split e e1 e2 d He Heq) as (_ & Hd & _).
      assert (Hd' : is_x81 d = false) by (by apply Z.eqb_neq).
      unfold re_edges. simpl run. rewrite Hd'. simpl.
      by rewrite andb_false_r. }
  rewrite H5.
  rewrite (needs_sentinel_no_change re_x81_space_x81 e)
    by auto using re_x81_space_x81_needs_sentinel.
  apply needs_sentinel_no_change; auto using re_x81_run_needs_sentinel.
Qed.

(** ** One character in smart spacing mode *)

Lemma trim_start_not_space (s : jsstring) :
  Forall (λ c, is_space c = false) s → trim_start s = s.
Proof.
  destruct s as [|c t]; [done|]. intros [Hc _]%Forall_cons.
  simpl. by rewrite Hc.
Qed.

Lemma trim_all_word (s : jsstring) : all_word s = true → trim s = s.
Proof.
  unfold all_word. intros [_ Hs]%andb_true_iff.
  assert (Hns : Forall (λ c, is_space c = false) s).
  { apply Forall_forall. intros c Hc%list_elem_of_In.
    rewrite forallb_forall in Hs. specialize (Hs c Hc).
    clear -Hs. bool_lia. }
  unfold trim. rewrite (trim_start_not_space s) by done.
  rewrite trim_start_not_space by (by apply Forall_rev).
  apply rev_involutive.
Qed.

Lemma german_pass_char options char :
  non_ascii_char char → german_pass options char = char.
Proof.
  unfold german_pass. destruct (german options); [|done].
  intros [(c & -> & _)|(h & l & -> & Hh & _)]; [done|].
  assert (Hu : re_umlaut_upper true [h; l] = None).
  { unfold re_umlaut_upper. unfold is_high_surrogate in Hh.
    replace ((h =? 65) || (h =? 79) || (h =? 85)) with false by lia.
    done. }
  assert (Hl : re_umlaut_lower true [h; l] = None).
  { unfold re_umlaut_lower. unfold is_high_surrogate in Hh.
    replace ((h =? 97) || (h =? 111) || (h =? 117)) with false by lia.
    done. }
  unfold replace_g.
  rewrite (replace_go_cons_none re_umlaut_upper true h [l] Hu).
  change (replace_go re_umlaut_upper false 0 [l]) with [l].
  by rewrite (replace_go_cons_none re_umlaut_lower true h [l] Hl).
Qed.

Lemma replace_codepoints_one f char w :
  non_ascii_char char →
  replace_codepoints f char w = f char w.
Proof.
  intros Hchar.
  pose proof (replace_codepoints_char f [] char [] w Hchar) as H.
  rewrite app_nil_l, app_nil_r in H. rewrite H.
  unfold bind, ret. simpl.
  destruct (f char w) as [[r|] w1]; [|done]. by rewrite app_nil_r.
Qed.

(** The replacer in smart spacing mode, then the resolver, against the
    replacer without smart spacing. *)
Lemma replacer_then_resolve tables char o1 o2 w p w' :
  let cp := codePointAt0 char in
  let high := Z.shiftr cp 8 in
  let emoji := (high =? 0x1F4) || (high =? 0x1F6) || (high =? 0x1F9) in
  german o2 = german o1 → skipRanges o2 = skipRanges o1 →
  smartSpacing o1 = false → smartSpacing o2 = true →
  replacer tables char o1 w = (Ok p, w') →
  sentinel_free p →
  ∃ r, replacer tables char o2 w = (Ok r, w')
       ∧ resolveSpacing r
         = if in_skip_ranges (skipRanges o1) cp then p
           else if cp =? 0x2014 then lit "--"
           else if emoji then p
           else trim p.
Proof.
  intros cp high emoji Hg Hk Hs1 Hs2 Hrun Hp.
  destruct (in_skip_ranges (skipRanges o1) cp) eqn:Hskip.
  { revert Hrun. unfold replacer. fold cp. rewrite Hk, Hskip.
    intros [= <- <-]. exists char.
    split; [done | by apply resolver_copies_clean_string]. }
  destruct (((0x18 <? high) && (high <? 0x1E))
            || ((0xD7 <? high) && (high <? 0xF9))) eqn:Hband.
  { revert Hrun. unfold replacer. fold cp. rewrite Hk, Hskip. fold high.
    rewrite Hband. intros [= <- <-]. exists []. split; [done|].
    replace (cp =? 0x2014) with false.
    2:{ symmetry. apply Z.eqb_neq. intros E. revert Hband.
        unfold high. rewrite E. by vm_compute. }
    replace emoji with false by (unfold emoji; lia). done. }
  destruct ((0xFF <? high) && negb emoji) eqn:Hout.
  { revert Hrun. unfold replacer. fold cp. rewrite Hk, Hskip. fold high.
    rewrite Hband. fold emoji. rewrite Hout. intros [= <- <-].
    exists (lit "_"). split; [done|].
    replace (cp =? 0x2014) with false.
    2:{ symmetry. apply Z.eqb_neq. intros E. revert Hout.
        unfold emoji, high. rewrite E. by vm_compute. }
    apply andb_true_iff in Hout as [_ Hout%negb_true_iff]. by rewrite Hout. }
  revert Hrun. rewrite !replacer_lookup by (by rewrite ?Hk).
  fold cp high emoji. rewrite Hg, Hs1, Hs2.
  set (newChar := entry _ _). cbn [negb andb orb].
  intros [= <- <-]. eexists. split; [reflexivity|].
  destruct (cp =? 0x2014); [reflexivity|].
  destruct (jsstring_eqb newChar (lit "[?]")) eqn:E1.
  { apply bool_decide_eq_true in E1. cbn [orb].
    rewrite resolver_copies_clean_string by done.
    destruct emoji; [done|]. by rewrite E1. }
  destruct (jsstring_eqb newChar (lit "_")) eqn:E2.
  { apply bool_decide_eq_true in E2. cbn [orb].
    rewrite resolver_copies_clean_string by done.
    destruct emoji; [done|]. by rewrite E2. }
  destruct (all_word newChar) eqn:E3.
  { cbn [orb]. rewrite resolver_copies_clean_string by done.
    destruct emoji; [done|]. by rewrite trim_all_word. }
  cbn [orb]. destruct emoji.
  - by apply emoji_wrapped_resolves.
  - apply wrapped_resolves. by apply trim_Forall.
Qed.

(** X18. Smart spacing on one character outside ASCII: where the
    output without smart spacing holds no sentinel, the output with
    smart spacing is that output with the white space at its two ends
    taken away, except that an em dash gives "--", and that a
    character of an emoji page or of a skip range keeps its output as
    it is.  The cache ends the same in both modes. *)
Theorem lone_character_smart_spacing tables (char : jsstring) g sk w p w' :
  let cp := codePointAt0 char in
  let high := Z.shiftr cp 8 in
  let emoji := (high =? 0x1F4) || (high =? 0x1F6) || (high =? 0x1F9) in
  let ranges := match sk with Some l => l | None => [] end in
  non_ascii_char char →
  unidecode tables char
    (Some {| in_german := g; in_deferredSmartSpacing := Some false;
             in_smartSpacing := Some false; in_skipRanges := sk |}) w
  = (Ok p, w') →
  sentinel_free p →
  unidecode tables char
    (Some {| in_german := g; in_deferredSmartSpacing := Some false;
             in_smartSpacing := Some true; in_skipRanges := sk |}) w
  = (Ok (if in_skip_ranges ranges cp then p
         else if cp =? 0x2014 then lit "--"
         else if emoji then p
         else trim p),
     w').
Proof.
  intros cp high emoji ranges Hchar Hplain Hp.
  rewrite (deferred_then_resolved tables char g sk (Some true) w).
  unfold bind, ret.
  rewrite unidecode_scan in Hplain |- * by done.
  rewrite german_pass_char, replace_codepoints_one in Hplain |- * by done.
  destruct (replacer_then_resolve tables char
              (options_of
                 (Some {| in_german := g;
                          in_deferredSmartSpacing := Some false;
                          in_smartSpacing := Some false;
                          in_skipRanges := sk |}))
              (options_of
                 (Some {| in_german := g;
                          in_deferredSmartSpacing := Some true;
                          in_smartSpacing := Some true;
                          in_skipRanges := sk |}))
              w p w' eq_refl eq_refl eq_refl eq_refl Hplain Hp)
    as (r & -> & Hr).
  by rewrite Hr.
Qed.

(** U+00BD with the table entry " 1/2": without smart spacing the
    entry, with it "1/2". *)
Lemma lone_character_smart_spacing_witness :
  let tables := λ r : row,
    if bool_decide (r = (0, false))
    then Some (<[189%nat := lit " 1/2"]> (replicate 256 (lit "?")))
    else None in
  unidecode tables [0xBD]
    (Some {| in_german := None; in_deferredSmartSpacing := Some false;
             in_smartSpacing := Some true; in_skipRanges := None |}) fresh
  = (Ok (lit "1/2"),
     snd (unidecode tables [0xBD]
            (Some {| in_german := None; in_deferredSmartSpacing := Some false;
                     in_smartSpacing := Some false; in_skipRanges := None |})
            fresh)).
Proof.
  intros tables.
  refine (lone_character_smart_spacing tables [0xBD] None None fresh
            (lit " 1/2") _ _ _ _).
  - left. exists 0xBD. unfold is_ascii. split; [done|]. split; [lia|done].
  - vm_compute. reflexivity.
  - repeat (apply List.Forall_cons; [split; discriminate|]). constructor.
Defined.
